(** * Bencode.h: a shallow embedding of the bencode document tree

    The C++ header declares, in namespace [bencode], a closed hierarchy of
    nodes ([String], [Integer], [List], [Dictionary]) deriving from [Item],
    a comparator ([Item::compare]) working on the flattened "components" of
    a node, a dictionary kept sorted by that comparator, a recursive
    parser ([Item::read], [Item::_read]) and a serializer ([write]).

    Conventions of the embedding:
    - [std::string] is a list of 8-bit characters ([bytes]);
    - [Item::Ptr] is [option Item], [NULL] being [None]; a tree owns its
      children, as in the source;
    - [uint32_t] values live in [N] and are reduced by [wrap32] where the
      code adds; [intmax_t] and [size_t] values live in [Z], both types
      being 64 bits wide;
    - a result of type [int] that the code only tests for its sign
      ([std::string::compare], [Item::compare]) is a [comparison]:
      [Lt] is negative, [Eq] is zero, [Gt] is positive;
    - code that allocates threads the number of live [Item] objects
      ([Heap]); code that may dereference [NULL] or loop returns an
      [Outcome];
    - the loops of the parser take a number of steps ([fuel]); what is
      proved of a decode that returns is proved for every number of
      steps from a stated bound on.

    The file has the model first (in the order of the header), then the
    notions the properties are stated with, then the properties: those
    the specification states first, further ones of the same code
    after them. *)

From Stdlib Require Import ZArith NArith Lia Bool Ascii String List Sorted
  Permutation.
Import ListNotations.

Unset Elimination Schemes.

(* ================================================================= *)
(** ** Bytes and [std::string] *)

Abbreviation bytes := (list ascii).

(** A string literal as a byte buffer. *)
Definition lit (s : string) : bytes := list_ascii_of_string s.

Section Lexicographic.
Variable A : Type.
Variable cmp : A -> A -> comparison.

(** Lexicographic comparison; a proper prefix sorts first. *)
Fixpoint lex (l1 l2 : list A) : comparison :=
  match l1, l2 with
  | [], [] => Eq
  | [], _ :: _ => Lt
  | _ :: _, [] => Gt
  | x :: r1, y :: r2 =>
      match cmp x y with
      | Eq => lex r1 r2
      | r => r
      end
  end.
End Lexicographic.
Arguments lex {A} cmp l1 l2.

(** [std::char_traits<char>::compare] orders characters as unsigned bytes. *)
Definition char_compare (c1 c2 : ascii) : comparison :=
  N.compare (N_of_ascii c1) (N_of_ascii c2).

(** [std::string::compare(const std::string&)]: the sign of the result. *)
Definition string_compare (s1 s2 : bytes) : comparison :=
  lex char_compare s1 s2.

(* ================================================================= *)
(** ** Machine integers *)

(** [uint32_t] arithmetic. *)
Definition wrap32 (n : N) : N := (n mod 2 ^ 32)%N.

(** The two instances of the template parameter [IntegerType] of [itoa]:
    [wrap] reduces a mathematical integer to the type's range. For
    [intmax_t] an overflow of [value + 1] is undefined in C++; it is
    written out here as two's complement wrap-around. *)
Record IntegerType : Type := { wrap : Z -> Z }.

Definition INTMAX_MAX : Z := 2 ^ 63 - 1.
Definition INTMAX_MIN : Z := - 2 ^ 63.

Definition intmax_t : IntegerType :=
  {| wrap := fun z => (z + 2 ^ 63) mod 2 ^ 64 - 2 ^ 63 |}%Z.
Definition size_t : IntegerType :=
  {| wrap := fun z => z mod 2 ^ 64 |}%Z.

Definition in_intmax (v : Z) : bool :=
  ((INTMAX_MIN <=? v) && (v <=? INTMAX_MAX))%Z.

(* ================================================================= *)
(** ** [itoa] *)

Definition itoa_digits : bytes := lit "0123456789abcdef".

(** The [do ... while(quotient != 0)] loop of [itoa]. The quotient
    shrinks at every turn, so [fuel] bounds the number of further turns;
    [itoa] gives it the binary logarithm of the value, which is enough
    (lemma [itoa_loop_fuel]). *)
Fixpoint itoa_loop (fuel : nat) (base quotient : Z) (buffer : bytes) : bytes :=
  let digit := Z.abs (Z.rem quotient base) in
  let buffer := buffer ++ [nth (Z.to_nat digit) itoa_digits "0"%char] in
  let quotient := Z.quot quotient base in
  if (quotient =? 0)%Z then buffer
  else match fuel with
       | O => buffer
       | S fuel => itoa_loop fuel base quotient buffer
       end.

(** [itoa(value, buffer, base)]. *)
Definition itoa (T : IntegerType) (value : Z) (buffer : bytes) (base : Z)
  : bytes :=
  if ((base <? 2) || (16 <? base))%Z then buffer
  else
    let buffer :=
      itoa_loop (Z.to_nat (Z.log2 (Z.abs value))) base value buffer in
    let buffer :=
      if (wrap T (value + 1) <? 1)%Z then buffer ++ ["-"%char] else buffer in
    rev buffer.

(** [itoa(value)] and [itoa(value, buffer)] with the default base. *)
Definition itoa10 (T : IntegerType) (value : Z) (buffer : bytes) : bytes :=
  itoa T value buffer 10.

(* ================================================================= *)
(** ** The document tree *)

Inductive Item : Type :=
| String (_value : bytes)
| Integer (_value : Z)
| List (_items : list (option Item))
| Dictionary (_items : list (option Item * option Item)).

(** [Item::Ptr]; [None] is [NULL]. *)
Abbreviation Ptr := (option Item).

(** [Dictionary::_Element]. *)
Abbreviation _Element := (Ptr * Ptr)%type.

(** [enum Type]. *)
Inductive Type_ : Type :=
| TypeString | TypeInteger | TypeList | TypeDictionary | TypeInvalid.

Definition type (x : Item) : Type_ :=
  match x with
  | String _ => TypeString
  | Integer _ => TypeInteger
  | List _ => TypeList
  | Dictionary _ => TypeDictionary
  end.

(** Number of [Item] objects in a tree (what [delete] releases). *)
Fixpoint nodes (x : Item) : nat :=
  match x with
  | String _ => 1
  | Integer _ => 1
  | List items =>
      S (fold_right (fun (item : Ptr) n =>
                       match item with
                       | Some i => nodes i + n
                       | None => n
                       end) O items)
  | Dictionary items =>
      S (fold_right (fun (item : _Element) n =>
                       match fst item with Some k => nodes k | None => O end
                       + match snd item with Some v => nodes v | None => O end
                       + n) O items)
  end.

Definition nodes_ptr (p : Ptr) : nat :=
  match p with Some x => nodes x | None => O end.

(* ================================================================= *)
(** ** Components *)

Section ComponentLoops.
Variable componentCount : Item -> N.
Variable component : Item -> N -> bytes -> bytes.

(** The loop of [List::componentCount]. *)
Fixpoint List_componentCount_loop (items : list Ptr) (components : N) : N :=
  match items with
  | [] => components
  | item :: rest =>
      List_componentCount_loop rest
        (match item with
         | Some i => wrap32 (components + componentCount i)
         | None => wrap32 (components + 1)
         end)
  end.

(** The loop of [Dictionary::componentCount]: a [NULL] key or value
    adds nothing. *)
Fixpoint Dictionary_componentCount_loop (items : list _Element)
         (components : N) : N :=
  match items with
  | [] => components
  | (first, second) :: rest =>
      let components :=
        match first with
        | Some k => wrap32 (components + componentCount k)
        | None => components
        end in
      let components :=
        match second with
        | Some v => wrap32 (components + componentCount v)
        | None => components
        end in
      Dictionary_componentCount_loop rest components
  end.

(** The loop of [List::component]. *)
Fixpoint List_component_loop (items : list Ptr) (index : N)
         (buffer : bytes) : bytes :=
  match items with
  | [] => []
  | item :: rest =>
      let itemCount :=
        match item with None => 1%N | Some i => componentCount i end in
      if (itemCount <=? index)%N then
        List_component_loop rest (index - itemCount)%N buffer
      else
        match item with
        | None => []
        | Some i => component i index buffer
        end
  end.

(** The loop of [Dictionary::component]: here a [NULL] key or value
    counts for one (empty) component. *)
Fixpoint Dictionary_component_loop (items : list _Element) (index : N)
         (buffer : bytes) : bytes :=
  match items with
  | [] => []
  | (first, second) :: rest =>
      let firstCount :=
        match first with None => 1%N | Some k => componentCount k end in
      let secondCount :=
        match second with None => 1%N | Some v => componentCount v end in
      if (firstCount <=? index)%N then
        let index := (index - firstCount)%N in
        if (secondCount <=? index)%N then
          Dictionary_component_loop rest (index - secondCount)%N buffer
        else
          match second with
          | None => []
          | Some v => component v index buffer
          end
      else
        match first with
        | None => []
        | Some k => component k index buffer
        end
  end.
End ComponentLoops.

(** [componentCount()] of the four classes. *)
Fixpoint componentCount (x : Item) : N :=
  match x with
  | String _ => 1%N
  | Integer _ => 1%N
  | List items => List_componentCount_loop componentCount items 0%N
  | Dictionary items => Dictionary_componentCount_loop componentCount items 0%N
  end.

(** [component(index, buffer)] of the four classes; the result is the
    content of [buffer] after the call. *)
Fixpoint component (x : Item) (index : N) (buffer : bytes) : bytes :=
  match x with
  | String value => if (index =? 0)%N then value else buffer
  | Integer value =>
      if (index =? 0)%N then itoa10 intmax_t value [] else buffer
  | List items =>
      List_component_loop componentCount component items index buffer
  | Dictionary items =>
      Dictionary_component_loop componentCount component items index buffer
  end.

(* ================================================================= *)
(** ** [Item::compare] *)

(** The [for] loop of [Item::compare] with [steps] turns left, followed
    by the final comparison of the two counts. [s1] and [s2] are the two
    local buffers, which every turn passes to [component]. *)
Fixpoint compare_loop (a other : Item) (c1 c2 : N) (steps : nat) (i : N)
         (s1 s2 : bytes) : comparison :=
  match steps with
  | O => if (c1 <? c2)%N then Lt else if (c2 <? c1)%N then Gt else Eq
  | S steps =>
      let s1 := component a i s1 in
      let s2 := component other i s2 in
      match string_compare s1 s2 with
      | Eq => compare_loop a other c1 c2 steps (N.succ i) s1 s2
      | result => result
      end
  end.

Definition compare (a other : Item) : comparison :=
  let c1 := componentCount a in
  let c2 := componentCount other in
  let max := if (c1 <? c2)%N then c1 else c2 in
  compare_loop a other c1 c2 (N.to_nat max) 0%N [] [].

(** The relational operators of [Item]. *)
Definition Item_lt (a other : Item) : bool :=
  match compare a other with Lt => true | _ => false end.
Definition Item_le (a other : Item) : bool :=
  match compare a other with Gt => false | _ => true end.
Definition Item_gt (a other : Item) : bool :=
  match compare a other with Gt => true | _ => false end.
Definition Item_ge (a other : Item) : bool :=
  match compare a other with Lt => false | _ => true end.
Definition Item_eq (a other : Item) : bool :=
  match compare a other with Eq => true | _ => false end.
Definition Item_ne (a other : Item) : bool :=
  match compare a other with Eq => false | _ => true end.

(** The comparator as section 4.3 of the specification words it: the
    [i]-th component of a node, the first index below the smaller count
    at which the components differ, and the prefix rule. *)
Definition component_at (x : Item) (i : N) : bytes := component x i [].

Definition differ_at (a b : Item) (i : nat) : bool :=
  match string_compare (component_at a (N.of_nat i))
                       (component_at b (N.of_nat i)) with
  | Eq => false
  | _ => true
  end.

Definition compare_spec (a b : Item) : comparison :=
  let n := N.min (componentCount a) (componentCount b) in
  match find (differ_at a b) (seq 0 (N.to_nat n)) with
  | Some i =>
      string_compare (component_at a (N.of_nat i)) (component_at b (N.of_nat i))
  | None => N.compare (componentCount a) (componentCount b)
  end.

(** The flattened text of a node: its components in order. *)
Definition flatten (x : Item) : list bytes :=
  map (fun i => component_at x (N.of_nat i))
      (seq 0 (N.to_nat (componentCount x))).

(* ================================================================= *)
(** ** Outcomes and state *)

(** What running a piece of the code can come to: it returns [a]; it
    dereferences [NULL] or a past-the-end iterator ([Undefined]); or the
    model stopped after the number of steps it was given while the code
    would still be running ([OutOfFuel]). *)
Inductive Outcome (A : Type) : Type :=
| Done (a : A)
| Undefined
| OutOfFuel.
Arguments Done {A} a.
Arguments Undefined {A}.
Arguments OutOfFuel {A}.

(** Code that reads and writes a state [S]. *)
Definition M (S A : Type) : Type := S -> Outcome (A * S).

Definition ret {S A : Type} (a : A) : M S A := fun s => Done (a, s).

Definition bind {S A B : Type} (c : M S A) (k : A -> M S B) : M S B :=
  fun s =>
    match c s with
    | Done (a, s') => k a s'
    | Undefined => Undefined
    | OutOfFuel => OutOfFuel
    end.

Definition undefined {S A : Type} : M S A := fun _ => Undefined.
Definition out_of_fuel {S A : Type} : M S A := fun _ => OutOfFuel.

Definition lift {S A : Type} (o : Outcome A) : M S A :=
  fun s =>
    match o with
    | Done a => Done (a, s)
    | Undefined => Undefined
    | OutOfFuel => OutOfFuel
    end.

Declare Scope monad_scope.
Delimit Scope monad_scope with monad.
Notation "x <- c ;; k" := (bind c (fun x => k))
  (at level 61, c at next level, right associativity) : monad_scope.
Notation "' p <- c ;; k" := (bind c (fun x => let p := x in k))
  (at level 61, p pattern, c at next level, right associativity) : monad_scope.
Notation "c ;;; k" := (bind c (fun _ => k))
  (at level 61, right associativity) : monad_scope.
Open Scope monad_scope.

(** The free store, seen as the number of live [Item] objects: [new]
    adds one object, [delete] releases a node together with everything
    its destructor deletes, and does nothing on [NULL]. *)
Definition Heap : Type := Z.

Definition new_ (x : Item) : M Heap Ptr :=
  fun live => Done (Some x, (live + 1)%Z).

Definition delete_ (p : Ptr) : M Heap unit :=
  fun live => Done (tt, (live - Z.of_nat (nodes_ptr p))%Z).

(* ================================================================= *)
(** ** [List] *)

Fixpoint insert_at {A : Type} (before : nat) (item : A) (items : list A)
  : list A :=
  match before, items with
  | O, _ => item :: items
  | S n, x :: rest => x :: insert_at n item rest
  | S _, [] => [item]
  end.

(** [List::insert(item, before)]: [std::vector::insert] at
    [begin() + before], undefined past the end. *)
Definition List_insert (item : Ptr) (before : nat) (items : list Ptr)
  : Outcome (list Ptr) :=
  if (before <=? length items)%nat then Done (insert_at before item items)
  else Undefined.

(** [List::push(item)] is [insert(item, _items.size())]. *)
Definition List_push (item : Ptr) (items : list Ptr) : Outcome (list Ptr) :=
  List_insert item (length items) items.

(* ================================================================= *)
(** ** [Item::Assignment] *)

(** [Assignment::operator=(Item::Ptr value)] on a slot holding [slot];
    the result is the new content of the slot. The test
    [value == _item] compares addresses: in this tree model the two
    coincide for [NULL] and [NULL] only, a caller handing back the very
    node the slot holds is not modelled. *)
Definition Assignment_assign (value : Ptr) (slot : Ptr) : M Heap Ptr :=
  match value, slot with
  | None, None => ret slot
  | _, _ => delete_ slot ;;; ret value
  end.

(** [Assignment::operator=(intmax_t value)]. *)
Definition Assignment_assign_int (value : Z) (slot : Ptr) : M Heap Ptr :=
  delete_ slot ;;; new_ (Integer value).

(** [Assignment::operator=(const std::string &value)]. *)
Definition Assignment_assign_string (value : bytes) (slot : Ptr) : M Heap Ptr :=
  delete_ slot ;;; new_ (String value).

(* ================================================================= *)
(** ** [Dictionary] *)

(** The [while] loop of [Dictionary::_find]; a position is an index into
    [_items], [length _items] being [end()]. Both [key] and
    [position->first] are dereferenced by
    [key->compare( *position->first)]. *)
Fixpoint _find_loop (key : Ptr) (items : list _Element) (position : nat)
  : Outcome nat :=
  match items with
  | [] => Done position
  | (first, _) :: rest =>
      match key, first with
      | Some k, Some f =>
          match compare k f with
          | Gt => _find_loop key rest (S position)
          | _ => Done position
          end
      | _, _ => Undefined
      end
  end.

(** [Dictionary::_find(key, position)]. The test [position->first == key]
    compares addresses and is modelled for [NULL] only: a non-null [key]
    that is the stored pointer itself is the same tree, for which the
    final [compare] answers zero as well (lemma [compare_refl]). *)
Definition _find (key : Ptr) (items : list _Element) : Outcome (bool * nat) :=
  match _find_loop key items 0 with
  | Done position =>
      match nth_error items position with
      | None => Done (false, position)
      | Some (first, _) =>
          match first, key with
          | None, None => Done (true, position)
          | None, Some _ => Done (false, position)
          | Some _, None => Done (false, position)
          | Some f, Some k =>
              Done (match compare f k with Eq => true | _ => false end,
                    position)
          end
      end
  | Undefined => Undefined
  | OutOfFuel => OutOfFuel
  end.

(** Writes [value] to [position->second]. *)
Fixpoint set_second (position : nat) (value : Ptr) (items : list _Element)
  : list _Element :=
  match position, items with
  | _, [] => []
  | O, (first, _) :: rest => (first, value) :: rest
  | S n, e :: rest => e :: set_second n value rest
  end.

Fixpoint erase {A : Type} (position : nat) (items : list A) : list A :=
  match position, items with
  | _, [] => []
  | O, _ :: rest => rest
  | S n, x :: rest => x :: erase n rest
  end.

Section DictionaryEngine.
(** The virtual [Item::clone]. *)
Variable clone : Item -> M Heap Ptr.

Definition clone_ptr (p : Ptr) : M Heap Ptr :=
  match p with
  | None => ret None
  | Some x => clone x
  end.

(** [Dictionary::operator[](Item::ConstPtr key)], both overloads: the
    dictionary after the call and the position whose [second] the
    returned handle refers to. *)
Definition Dictionary_index_with (key : Ptr) (items : list _Element)
  : M Heap (list _Element * nat) :=
  '(found, position) <- lift (_find key items) ;;
  if (found : bool) then ret (items, position)
  else
    k <- clone_ptr key ;;
    let items := insert_at position (k, None) items in
    '(_, position) <- lift (_find key items) ;;
    if (position <? length items)%nat then ret (items, position)
    else undefined.

(** [dictionary[key] = value]. *)
Definition Dictionary_assign_with (key value : Ptr) (items : list _Element)
  : M Heap (list _Element) :=
  '(items, position) <- Dictionary_index_with key items ;;
  match nth_error items position with
  | None => undefined
  | Some (_, slot) =>
      v <- Assignment_assign value slot ;;
      ret (set_second position v items)
  end.

(** The loop of [List::clone]. *)
Fixpoint List_clone_loop (items : list Ptr) (result : list Ptr)
  : M Heap (list Ptr) :=
  match items with
  | [] => ret result
  | item :: rest =>
      c <- clone_ptr item ;;
      result <- lift (List_push c result) ;;
      List_clone_loop rest result
  end.

(** The loop of [Dictionary::clone]:
    [( *result)[first->clone()] = second->clone()], the right operand
    of the assignment first. *)
Fixpoint Dictionary_clone_loop (items : list _Element)
         (result : list _Element) : M Heap (list _Element) :=
  match items with
  | [] => ret result
  | (first, second) :: rest =>
      v <- clone_ptr second ;;
      k <- clone_ptr first ;;
      result <- Dictionary_assign_with k v result ;;
      Dictionary_clone_loop rest result
  end.
End DictionaryEngine.

(** [clone()] of the four classes. [Dictionary::clone] clones the clone
    of a key once more inside [operator[]], so the recursion is not
    structural: [fuel] bounds its depth. *)
Fixpoint clone_fuel (fuel : nat) (x : Item) : M Heap Ptr :=
  match fuel with
  | O => out_of_fuel
  | S fuel =>
      match x with
      | String value => new_ (String value)
      | Integer value => new_ (Integer value)
      | List items =>
          _ <- new_ (List []) ;;
          result <- List_clone_loop (clone_fuel fuel) items [] ;;
          ret (Some (List result))
      | Dictionary items =>
          _ <- new_ (Dictionary []) ;;
          result <- Dictionary_clone_loop (clone_fuel fuel) items [] ;;
          ret (Some (Dictionary result))
      end
  end.

(** Nesting depth of a tree. *)
Fixpoint depth (x : Item) : nat :=
  match x with
  | String _ => 1
  | Integer _ => 1
  | List items =>
      S (fold_right (fun (item : Ptr) n =>
                       Nat.max (match item with Some i => depth i | None => O end) n)
                    O items)
  | Dictionary items =>
      S (fold_right (fun (item : _Element) n =>
                       Nat.max
                         (Nat.max
                            (match fst item with Some k => depth k | None => O end)
                            (match snd item with Some v => depth v | None => O end))
                         n)
                    O items)
  end.

(** [Item::clone]; the depth of the tree is fuel enough for the trees
    the program builds (lemma [clone_valid]). *)
Definition clone (x : Item) : M Heap Ptr := clone_fuel (depth x) x.

Definition Dictionary_index := Dictionary_index_with clone.
Definition Dictionary_assign := Dictionary_assign_with clone.

(** [Dictionary::has_key(Item::Ptr key)]: the answer and the dictionary
    after the call. *)
Definition Dictionary_has_key (key : Ptr) (items : list _Element)
  : M Heap (bool * list _Element) :=
  '(found, _) <- lift (_find key items) ;;
  ret (found, items).

(** [Dictionary::remove(Item::Ptr key)]: the value handed to the caller
    and the dictionary after the call. *)
Definition Dictionary_remove (key : Ptr) (items : list _Element)
  : M Heap (Ptr * list _Element) :=
  '(found, position) <- lift (_find key items) ;;
  if (found : bool) then
    match nth_error items position with
    | None => undefined
    | Some (first, value) =>
        delete_ first ;;;
        ret (value, erase position items)
    end
  else ret (None, items).

(* ================================================================= *)
(** ** [List]: slots, removal and destructor *)

(** The [for] loop of [List::operator[]]: [push(NULL)] as long as
    [fill <= index]. *)
Fixpoint List_fill_loop (fuel : nat) (fill index : N) (items : list Ptr)
  : Outcome (list Ptr) :=
  if (fill <=? index)%N then
    match fuel with
    | O => OutOfFuel
    | S fuel =>
        match List_push None items with
        | Done items => List_fill_loop fuel (N.succ fill) index items
        | Undefined => Undefined
        | OutOfFuel => OutOfFuel
        end
    end
  else Done items.

(** [List::operator[](uint32_t index)], both overloads, and
    [List::value(index)]: the list after the call and the position of
    the slot [_items[index]] the result refers to. The loop takes at
    most [index + 1] turns. *)
Definition List_index (index : N) (items : list Ptr)
  : Outcome (list Ptr * nat) :=
  match List_fill_loop (S (N.to_nat index)) (N.of_nat (length items))
                       index items with
  | Done items =>
      if (N.to_nat index <? length items)%nat
      then Done (items, N.to_nat index)
      else Undefined
  | Undefined => Undefined
  | OutOfFuel => OutOfFuel
  end.

(** Writes [value] to [_items[position]]. *)
Fixpoint set_item (position : nat) (value : Ptr) (items : list Ptr)
  : list Ptr :=
  match position, items with
  | _, [] => []
  | O, _ :: rest => value :: rest
  | S n, item :: rest => item :: set_item n value rest
  end.

(** [list[index] = value]. *)
Definition List_assign (index : N) (value : Ptr) (items : list Ptr)
  : M Heap (list Ptr) :=
  '(items, position) <- lift (List_index index items) ;;
  match nth_error items position with
  | None => undefined
  | Some slot =>
      v <- Assignment_assign value slot ;;
      ret (set_item position v items)
  end.

(** Reading [list[index]]: the pointer the handle converts to (the
    [const] overload returns it directly) and the list after the
    call. *)
Definition List_value (index : N) (items : list Ptr)
  : Outcome (Ptr * list Ptr) :=
  match List_index index items with
  | Done (items, position) =>
      match nth_error items position with
      | Some slot => Done (slot, items)
      | None => Undefined
      end
  | Undefined => Undefined
  | OutOfFuel => OutOfFuel
  end.

(** [List::remove(index)]: the item handed to the caller and the list
    after the call. [std::vector::erase] needs an iterator to an
    element. *)
Definition List_remove (index : N) (items : list Ptr)
  : Outcome (Ptr * list Ptr) :=
  let item :=
    if (index <? N.of_nat (length items))%N
    then nth (N.to_nat index) items None
    else None in
  if (index <? N.of_nat (length items))%N
  then Done (item, erase (N.to_nat index) items)
  else Undefined.

(** [List::pop()] is [remove(_items.size() - 1)]: the subtraction is
    done in [size_t] and the result passed as a [uint32_t]. *)
Definition List_pop (items : list Ptr) : Outcome (Ptr * list Ptr) :=
  List_remove
    (wrap32 (Z.to_N (wrap size_t (Z.of_nat (length items) - 1)))) items.

(** The loop of [List::~List()]: [delete pop()] as long as the list has
    items. *)
Fixpoint List_destroy_loop (fuel : nat) (items : list Ptr) : M Heap unit :=
  if (0 <? length items)%nat then
    match fuel with
    | O => out_of_fuel
    | S fuel =>
        '(item, items) <- lift (List_pop items) ;;
        delete_ item ;;;
        List_destroy_loop fuel items
    end
  else ret tt.

(* ================================================================= *)
(** ** [Dictionary]: reading a value, iterating over the keys *)

(** Reading [dictionary[key]]: the pointer the handle converts to
    ([Assignment::operator Item::Ptr]; the [const] overload of
    [operator[]] returns it directly), and the dictionary after the
    call. *)
Definition Dictionary_value (key : Ptr) (items : list _Element)
  : M Heap (Ptr * list _Element) :=
  '(items, position) <- Dictionary_index key items ;;
  match nth_error items position with
  | None => undefined
  | Some (_, slot) => ret (slot, items)
  end.

(** [Dictionary::key_iterator]: the dictionary it points into, seen
    through its pairs, and an index. *)
Record key_iterator : Type := {
  _container : list _Element;
  _index : N
}.

(** [Dictionary::keys()]. *)
Definition Dictionary_keys (items : list _Element) : key_iterator :=
  {| _container := items; _index := 0 |}.

(** [static_cast<int>(_index)] and the conversion of an [int] to
    [uint32_t], both in two's complement. *)
Definition to_int (n : N) : Z :=
  if (n <? 2 ^ 31)%N then Z.of_N n else (Z.of_N n - 2 ^ 32)%Z.

Definition to_uint32 (z : Z) : N := Z.to_N (z mod 2 ^ 32).

(** [operator++()]. *)
Definition key_iterator_incr (it : key_iterator) : key_iterator :=
  {| _container := _container it; _index := wrap32 (_index it + 1) |}.

(** [operator++(int)]: the copy returned and the iterator after the
    call. *)
Definition key_iterator_post_incr (it : key_iterator)
  : key_iterator * key_iterator :=
  let it := key_iterator_incr it in
  ({| _container := _container it;
      _index := to_uint32 (Z.of_N (_index it) - 1) |}, it).

(** [operator--()]. *)
Definition key_iterator_decr (it : key_iterator) : key_iterator :=
  if (0 <? _index it)%N
  then {| _container := _container it; _index := _index it - 1 |}
  else it.

(** [operator--(int)]. *)
Definition key_iterator_post_decr (it : key_iterator)
  : key_iterator * key_iterator :=
  let increment := if (0 <? _index it)%N then 1%Z else 0%Z in
  let it :=
    {| _container := _container it;
       _index := to_uint32 (Z.of_N (_index it) - increment) |} in
  ({| _container := _container it;
      _index := to_uint32 (Z.of_N (_index it) + increment) |}, it).

(** [operator+=(int count)] and [operator+(int count)]. *)
Definition key_iterator_add (it : key_iterator) (count : Z) : key_iterator :=
  {| _container := _container it;
     _index := to_uint32 (Z.of_N (_index it) + count) |}.

(** [operator-=(int count)] and [operator-(int count)]. *)
Definition key_iterator_sub (it : key_iterator) (count : Z) : key_iterator :=
  {| _container := _container it;
     _index :=
       if (to_int (_index it) <? count)%Z then 0%N
       else to_uint32 (Z.of_N (_index it) - count) |}.

(** [_valid()] and [operator bool()]. *)
Definition key_iterator_valid (it : key_iterator) : bool :=
  (_index it <? N.of_nat (length (_container it)))%N.

(** [operator->()]. *)
Definition key_iterator_arrow (it : key_iterator) : Ptr :=
  if key_iterator_valid it
  then fst (nth (N.to_nat (_index it)) (_container it) (None, None))
  else None.

(** [operator*()]: dereferences [_items[_index].first]. *)
Definition key_iterator_deref (it : key_iterator) : Outcome Item :=
  match nth_error (_container it) (N.to_nat (_index it)) with
  | Some (Some key, _) => Done key
  | _ => Undefined
  end.

(* ================================================================= *)
(** ** Serializer *)

(** [ReferencedStringOutput]: what has been written is appended to the
    referenced buffer. (The [printf] calls of the source trace to the
    standard output and are left out.) *)
Definition Output : Type := bytes.

Definition Output_write_byte (byte : ascii) (out : Output) : Output :=
  out ++ [byte].
Definition Output_write (data : bytes) (out : Output) : Output :=
  out ++ data.


(** [#define bencodeNULLEntry "0:"]. *)
Definition bencodeNULLEntry : bytes := lit "0:".

Section WriteLoops.
Variable write : Item -> Output -> Output.

(** The loop of [List::write]. *)
Fixpoint List_write_loop (items : list Ptr) (out : Output) : Output :=
  match items with
  | [] => out
  | item :: rest =>
      List_write_loop rest
        (match item with
         | Some i => write i out
         | None => Output_write bencodeNULLEntry out
         end)
  end.

(** The loop of [Dictionary::write]. *)
Fixpoint Dictionary_write_loop (items : list _Element) (out : Output)
  : Output :=
  match items with
  | [] => out
  | (first, second) :: rest =>
      let out :=
        match first with
        | None => Output_write bencodeNULLEntry out
        | Some k => write k out
        end in
      let out :=
        match second with
        | None => Output_write bencodeNULLEntry out
        | Some v => write v out
        end in
      Dictionary_write_loop rest out
  end.
End WriteLoops.

(** [write(Output &out)] of the four classes. The one-argument [itoa]
    of the source hands back its local buffer; the model passes on the
    text that buffer holds. *)
Fixpoint write (x : Item) (out : Output) : Output :=
  match x with
  | String value =>
      let out :=
        Output_write (itoa10 size_t (Z.of_nat (length value)) []) out in
      let out := Output_write_byte ":"%char out in
      Output_write value out
  | Integer value =>
      let out := Output_write_byte "i"%char out in
      let out := Output_write (itoa10 intmax_t value []) out in
      Output_write_byte "e"%char out
  | List items =>
      let out := Output_write_byte "l"%char out in
      let out := List_write_loop write items out in
      Output_write_byte "e"%char out
  | Dictionary items =>
      let out := Output_write_byte "d"%char out in
      let out := Dictionary_write_loop write items out in
      Output_write_byte "e"%char out
  end.

(** Serializing into an empty buffer. *)
Definition encode (x : Item) : bytes := write x [].

(* ================================================================= *)
(** ** [display] *)

(** The double quote character. *)
Definition quote : ascii := ascii_of_nat 34.

Section DisplayLoops.
Variable display : Item -> bytes.

(** The loop of [List::display]; [buffer] and [separator] are the two
    locals it updates. *)
Fixpoint List_display_loop (items : list Ptr) (buffer separator : bytes)
  : bytes :=
  match items with
  | [] => buffer
  | item :: rest =>
      let buffer :=
        match item with
        | None => buffer ++ (separator ++ lit "[NULL]")
        | Some i => buffer ++ (separator ++ display i)
        end in
      List_display_loop rest buffer (lit ", ")
  end.

(** The loop of [Dictionary::display]. The separator is put in front
    of a key and in front of the text of a [NULL] value. *)
Fixpoint Dictionary_display_loop (items : list _Element)
         (buffer separator : bytes) : bytes :=
  match items with
  | [] => buffer
  | (first, second) :: rest =>
      let buffer :=
        match first with
        | None => buffer ++ (separator ++ lit "[NULL]")
        | Some k => buffer ++ (separator ++ display k)
        end in
      let buffer := buffer ++ [":"%char] in
      let buffer :=
        match second with
        | None => buffer ++ (separator ++ lit "[NULL]")
        | Some v => buffer ++ display v
        end in
      Dictionary_display_loop rest buffer (lit ", ")
  end.
End DisplayLoops.

(** [display(buffer)] of the four classes: the text it leaves in
    [buffer], which each of them overwrites. *)
Fixpoint display (x : Item) : bytes :=
  match x with
  | String value => quote :: value ++ [quote]
  | Integer value => itoa10 intmax_t value []
  | List items => List_display_loop display items (lit "[") [] ++ lit "]"
  | Dictionary items =>
      Dictionary_display_loop display items (lit "{") [] ++ lit "}"
  end.

(* ================================================================= *)
(** ** [strtoimax] *)

(** [std::string::c_str()] read as a C string: the bytes before the
    first NUL. *)
Fixpoint c_str (s : bytes) : bytes :=
  match s with
  | [] => []
  | c :: rest => if Ascii.eqb c zero then [] else c :: c_str rest
  end.

Definition isspace (c : ascii) : bool :=
  let n := N_of_ascii c in ((n =? 32) || ((9 <=? n) && (n <=? 13)))%N.

Definition isdigit (c : ascii) : bool :=
  let n := N_of_ascii c in ((48 <=? n) && (n <=? 57))%N.

Fixpoint skip_spaces (s : bytes) : bytes :=
  match s with
  | c :: rest => if isspace c then skip_spaces rest else s
  | [] => []
  end.

(** The value of the longest prefix of decimal digits. *)
Fixpoint digits_value (s : bytes) (acc : Z) : Z :=
  match s with
  | c :: rest =>
      if isdigit c
      then digits_value rest (acc * 10 + (Z.of_N (N_of_ascii c) - 48))%Z
      else acc
  | [] => acc
  end.

(** [strtoimax(s.c_str(), NULL, 10)] as ISO C defines it: white space,
    an optional sign, the longest run of digits (zero if there is none),
    and [INTMAX_MAX] or [INTMAX_MIN] when the value is out of range. *)
Definition strtoimax (s : bytes) : Z :=
  let s := skip_spaces (c_str s) in
  let value :=
    match s with
    | c :: rest =>
        if Ascii.eqb c "-"%char then (- digits_value rest 0)%Z
        else if Ascii.eqb c "+"%char then digits_value rest 0
        else digits_value s 0
    | [] => 0%Z
    end in
  if (INTMAX_MAX <? value)%Z then INTMAX_MAX
  else if (value <? INTMAX_MIN)%Z then INTMAX_MIN
  else value.

(* ================================================================= *)
(** ** Input *)

(** The interface [Input]: [read()], [read(bytes, storage)] (the result
    is the new content of [storage]) and [end()]. *)
Class Input (I : Type) : Type := {
  Input_read : I -> ascii * I;
  Input_read_n : Z -> I -> bytes * I;
  Input_end : I -> bool
}.

(** [ReferencedStringInput]. *)
Record ReferencedStringInput : Type := {
  _buffer : bytes;
  _position : nat
}.

(** [ReferencedStringInput::read()]: [NUL] once the buffer is used up. *)
Definition ReferencedStringInput_read (i : ReferencedStringInput)
  : ascii * ReferencedStringInput :=
  match nth_error (_buffer i) (_position i) with
  | Some c => (c, {| _buffer := _buffer i; _position := S (_position i) |})
  | None => (zero, i)
  end.

(** [ReferencedStringInput::read(bytes, storage)]. A buffer is shorter
    than [std::string::max_size()] and [bytes] comes from [strtoimax],
    so [_position + bytes] does not wrap. *)
Definition ReferencedStringInput_read_n (n : Z) (i : ReferencedStringInput)
  : bytes * ReferencedStringInput :=
  if (_position i <? length (_buffer i))%nat then
    let n :=
      if (Z.of_nat (_position i) + n <? Z.of_nat (length (_buffer i)))%Z
      then Z.to_nat n
      else (length (_buffer i) - _position i)%nat in
    (firstn n (skipn (_position i) (_buffer i)),
     {| _buffer := _buffer i; _position := (_position i + n)%nat |})
  else ([], i).

(** [ReferencedStringInput::end()], as the source has it. *)
Definition ReferencedStringInput_end (i : ReferencedStringInput) : bool :=
  (length (_buffer i) =? 0)%nat
  || (_position i <? length (_buffer i) - 1)%nat.

#[export] Instance ReferencedStringInput_Input : Input ReferencedStringInput := {
  Input_read := ReferencedStringInput_read;
  Input_read_n := ReferencedStringInput_read_n;
  Input_end := ReferencedStringInput_end
}.

(** The loop of [Input::read(bytes, storage)], the implementation the
    base class gives: [read()] is called as long as bytes are wanted
    and [end()] answers false. *)
Fixpoint Input_read_loop {I : Type} {input : Input I} (count : nat) (i : I)
         (storage : bytes) : bytes * I :=
  match count with
  | O => (storage, i)
  | S count =>
      if Input_end i then (storage, i)
      else
        let (byte, i) := Input_read i in
        Input_read_loop count i (storage ++ [byte])
  end.

(** [Input::read(bytes, storage)]: [storage] is cleared first. *)
Definition Input_read_default {I : Type} {input : Input I} (count : Z)
           (i : I) : bytes * I :=
  Input_read_loop (Z.to_nat count) i [].

(* ================================================================= *)
(** ** Parser *)

(** What [Item::_read] works on: the source [in], the shared scratch
    [buffer], and the free store. *)
Record ParseState (I : Type) : Type := {
  source : I;
  buffer : bytes;
  live : Heap
}.
Arguments source {I} p.
Arguments buffer {I} p.
Arguments live {I} p.

Section Parser.
Context {I : Type} {input : Input I}.

Abbreviation P := (M (ParseState I)).

(** [in.read()]. *)
Definition in_read : P ascii :=
  fun s =>
    let (byte, i) := Input_read (source s) in
    Done (byte, {| source := i; buffer := buffer s; live := live s |}).

(** [in.read(size, buffer)]. *)
Definition in_read_n (size : Z) : P unit :=
  fun s =>
    let (storage, i) := Input_read_n size (source s) in
    Done (tt, {| source := i; buffer := storage; live := live s |}).

Definition buffer_clear : P unit :=
  fun s => Done (tt, {| source := source s; buffer := []; live := live s |}).

Definition buffer_append (byte : ascii) : P unit :=
  fun s =>
    Done (tt, {| source := source s; buffer := buffer s ++ [byte];
                 live := live s |}).

Definition buffer_get : P bytes := fun s => Done (buffer s, s).

(** An operation on the free store, inside the parser. *)
Definition heap {A : Type} (c : M Heap A) : P A :=
  fun s =>
    match c (live s) with
    | Done (a, h) =>
        Done (a, {| source := source s; buffer := buffer s; live := h |})
    | Undefined => Undefined
    | OutOfFuel => OutOfFuel
    end.

(** [while('e' != (byte= in.read())) buffer.append(1, byte);] *)
Fixpoint integer_loop (fuel : nat) : P unit :=
  match fuel with
  | O => out_of_fuel
  | S fuel =>
      byte <- in_read ;;
      if Ascii.eqb byte "e"%char then ret tt
      else buffer_append byte ;;; integer_loop fuel
  end.

(** The [do ... while(':' != byte)] loop of the string case; [false]
    stands for its [return NULL]. *)
Fixpoint length_loop (fuel : nat) (byte : ascii) : P bool :=
  match fuel with
  | O => out_of_fuel
  | S fuel =>
      if negb (isdigit byte) then ret false
      else
        buffer_append byte ;;;
        byte <- in_read ;;
        if Ascii.eqb byte ":"%char then ret true
        else length_loop fuel byte
  end.

Section Loops.
(** The recursive call [_read(in, byte, buffer)]. *)
Variable _read : ascii -> P Ptr.

(** The [while] loop of the list case, [result] being the items
    pushed so far. *)
Fixpoint list_loop (fuel : nat) (result : list Ptr) : P Ptr :=
  match fuel with
  | O => out_of_fuel
  | S fuel =>
      byte <- in_read ;;
      if Ascii.eqb byte "e"%char then ret (Some (List result))
      else
        item <- _read byte ;;
        match item with
        | None => heap (delete_ (Some (List result))) ;;; ret None
        | Some _ =>
            result <- lift (List_push item result) ;;
            list_loop fuel result
        end
  end.

(** The [while] loop of the dictionary case. The value is parsed
    even when the key came back [NULL]. *)
Fixpoint dictionary_loop (fuel : nat) (result : list _Element) : P Ptr :=
  match fuel with
  | O => out_of_fuel
  | S fuel =>
      byte <- in_read ;;
      if Ascii.eqb byte "e"%char then ret (Some (Dictionary result))
      else
        key <- _read byte ;;
        byte <- in_read ;;
        value <- _read byte ;;
        match key, value with
        | Some _, Some _ =>
            result <- heap (Dictionary_assign key value result) ;;
            dictionary_loop fuel result
        | _, _ =>
            heap (delete_ (Some (Dictionary result))) ;;;
            heap (delete_ value) ;;;
            heap (delete_ key) ;;;
            ret None
        end
  end.
End Loops.

(** [Item::_read(in, type, buffer)]. *)
Fixpoint _read (fuel : nat) (type : ascii) : P Ptr :=
  match fuel with
  | O => out_of_fuel
  | S fuel =>
      if Ascii.eqb type "i"%char then
        buffer_clear ;;;
        integer_loop fuel ;;;
        text <- buffer_get ;;
        heap (new_ (Integer (strtoimax text)))
      else if isdigit type then
        buffer_clear ;;;
        ok <- length_loop fuel type ;;
        if (ok : bool) then
          text <- buffer_get ;;
          let size := strtoimax text in
          buffer_clear ;;;
          in_read_n size ;;;
          text <- buffer_get ;;
          heap (new_ (String text))
        else ret None
      else if Ascii.eqb type "l"%char then
        _ <- heap (new_ (List [])) ;;
        list_loop (_read fuel) fuel []
      else if Ascii.eqb type "d"%char then
        _ <- heap (new_ (Dictionary [])) ;;
        dictionary_loop (_read fuel) fuel []
      else ret None
  end.

(** [Item::read(in)], started on source [i] with [h] live objects:
    the node, the source and the free store after the call. *)
Definition Item_read (fuel : nat) (i : I) (h : Heap)
  : Outcome (Ptr * I * Heap) :=
  match (type <- in_read ;; _read fuel type)
          {| source := i; buffer := []; live := h |} with
  | Done (result, s) => Done (result, source s, live s)
  | Undefined => Undefined
  | OutOfFuel => OutOfFuel
  end.
End Parser.

(** Decoding a byte string held in memory, on an empty free store. *)
Definition decode (fuel : nat) (w : bytes) : Outcome (Ptr * Heap) :=
  match Item_read fuel {| _buffer := w; _position := 0 |} 0%Z with
  | Done (result, _, h) => Done (result, h)
  | Undefined => Undefined
  | OutOfFuel => OutOfFuel
  end.

(* ================================================================= *)
(** ** Trees the public operations build *)

(** The keys of a pair sequence are present and strictly increasing
    under the comparator. *)
Fixpoint keys_sorted (items : list _Element) : bool :=
  match items with
  | [] => true
  | (None, _) :: _ => false
  | (Some k1, _) :: rest =>
      match rest with
      | [] => true
      | (None, _) :: _ => false
      | (Some k2, _) :: _ =>
          match compare k1 k2 with
          | Lt => keys_sorted rest
          | _ => false
          end
      end
  end.

(** A tree as the constructors, [List::push] and [Dictionary::operator[]]
    build it: integers are [intmax_t] values, and every dictionary, at
    any depth, has the order [operator[]] gives it. List slots and
    dictionary values may be [NULL]. *)
Fixpoint valid (x : Item) : bool :=
  match x with
  | String _ => true
  | Integer value => in_intmax value
  | List items =>
      forallb (fun item : Ptr =>
                 match item with Some i => valid i | None => true end) items
  | Dictionary items =>
      forallb (fun item : _Element =>
                 match fst item with Some k => valid k | None => false end
                 && match snd item with Some v => valid v | None => true end)
              items
      && keys_sorted items
  end.


(** The order of the pairs of a dictionary: both keys are present and
    the first is strictly below the second. *)
Definition key_before (e1 e2 : _Element) : Prop :=
  match fst e1, fst e2 with
  | Some k1, Some k2 => compare k1 k2 = Lt
  | _, _ => False
  end.

(** The operations of a [Dictionary] a caller combines: plain indexing,
    the three assignments through the handle indexing returns, lookup
    and removal. *)
Inductive Operation : Type :=
| Index (key : Item)
| AssignItem (key : Item) (value : Ptr)
| AssignInteger (key : Item) (value : Z)
| AssignString (key : Item) (value : bytes)
| HasKey (key : Item)
| Remove (key : Item).

Definition operation_key (op : Operation) : Item :=
  match op with
  | Index key => key
  | AssignItem key _ => key
  | AssignInteger key _ => key
  | AssignString key _ => key
  | HasKey key => key
  | Remove key => key
  end.

(** Runs one operation on the pair sequence of a dictionary. *)
Definition run_operation (op : Operation) (items : list _Element)
  : M Heap (list _Element) :=
  match op with
  | Index key =>
      '(items, _) <- Dictionary_index (Some key) items ;; ret items
  | AssignItem key value => Dictionary_assign (Some key) value items
  | AssignInteger key value =>
      '(items, position) <- Dictionary_index (Some key) items ;;
      match nth_error items position with
      | None => undefined
      | Some (_, slot) =>
          v <- Assignment_assign_int value slot ;;
          ret (set_second position v items)
      end
  | AssignString key value =>
      '(items, position) <- Dictionary_index (Some key) items ;;
      match nth_error items position with
      | None => undefined
      | Some (_, slot) =>
          v <- Assignment_assign_string value slot ;;
          ret (set_second position v items)
      end
  | HasKey key =>
      '(_, items) <- Dictionary_has_key (Some key) items ;; ret items
  | Remove key =>
      '(_, items) <- Dictionary_remove (Some key) items ;; ret items
  end.

Fixpoint run_operations (ops : list Operation) (items : list _Element)
  : M Heap (list _Element) :=
  match ops with
  | [] => ret items
  | op :: rest =>
      items <- run_operation op items ;;
      run_operations rest items
  end.

(* ================================================================= *)
(** ** Notions the properties are stated with *)

(** [P] holds of what [p] points to, if anything. *)
Definition Ptr_all (P : Item -> Prop) (p : Ptr) : Prop :=
  match p with
  | Some x => P x
  | None => True
  end.

Definition Element_all (P : Item -> Prop) (e : _Element) : Prop :=
  Ptr_all P (fst e) /\ Ptr_all P (snd e).

(** Induction on trees, through the slots of lists and dictionaries. *)
Section ItemInduction.
Variable P : Item -> Prop.
Hypothesis P_String : forall value, P (String value).
Hypothesis P_Integer : forall value, P (Integer value).
Hypothesis P_List :
  forall items, Forall (Ptr_all P) items -> P (List items).
Hypothesis P_Dictionary :
  forall items, Forall (Element_all P) items -> P (Dictionary items).

Fixpoint Item_induction (x : Item) : P x :=
  let ptr (p : Ptr) : Ptr_all P p :=
    match p return Ptr_all P p with
    | Some i => Item_induction i
    | None => I
    end in
  match x with
  | String value => P_String value
  | Integer value => P_Integer value
  | List items =>
      P_List items
        ((fix go (l : list Ptr) : Forall (Ptr_all P) l :=
            match l with
            | [] => Forall_nil _
            | item :: rest => Forall_cons item (ptr item) (go rest)
            end) items)
  | Dictionary items =>
      P_Dictionary items
        ((fix go (l : list _Element) : Forall (Element_all P) l :=
            match l with
            | [] => Forall_nil _
            | item :: rest =>
                Forall_cons item (conj (ptr (fst item)) (ptr (snd item)))
                            (go rest)
            end) items)
  end.
End ItemInduction.

(** The last line of [Item::compare]. *)
Definition count_compare (c1 c2 : N) : comparison :=
  if (c1 <? c2)%N then Lt else if (c2 <? c1)%N then Gt else Eq.

(** The key of a pair is not [NULL]. *)
Definition key_present (e : _Element) : Prop := fst e <> None.

(** The invariant of [Dictionary::_items]: every key is present and the
    keys increase strictly. *)
Definition Sorted_keys (items : list _Element) : Prop :=
  StronglySorted key_before items /\ Forall key_present items.

(** [key->compare( *position->first) > 0] holds at [e]. *)
Definition key_above (k : Item) (e : _Element) : Prop :=
  match fst e with
  | Some f => compare k f = Gt
  | None => False
  end.

(** The loop of [_find] stops at the head of [after]. *)
Definition stops_at (k : Item) (after : list _Element) : Prop :=
  match after with
  | [] => True
  | e :: _ =>
      match fst e with
      | Some f => compare k f <> Gt
      | None => False
      end
  end.

(** What [_find] answers once the stopping place is known. *)
Definition found_at (k : Item) (after : list _Element) : bool :=
  match after with
  | (Some f, _) :: _ =>
      match compare f k with Eq => true | _ => false end
  | _ => false
  end.

Definition depth_ptr (p : Ptr) : nat :=
  match p with Some x => depth x | None => O end.

(** [cl] returns a copy equal to what [p] points to. *)
Definition copies (cl : Item -> M Heap Ptr) (p : Ptr) : Prop :=
  match p with
  | Some x => forall h, exists h', cl x h = Done (Some x, h')
  | None => True
  end.

(** Some pair of [items] has a key that compares equal to [k]. *)
Definition has_equal_key (k : Item) (items : list _Element) : Prop :=
  Exists (fun e : _Element =>
            match fst e with
            | Some f => compare f k = Eq
            | None => False
            end) items.

(** [o2] is what [o1] comes to when the model is given more steps. *)
Definition refines {A : Type} (o1 o2 : Outcome A) : Prop :=
  o1 = OutOfFuel \/ o1 = o2.

(** The parser's state when [pre] has been read and [suf] is left. *)
Definition st (pre suf : bytes) (buf : bytes) (h : Heap)
  : ParseState ReferencedStringInput :=
  {| source := {| _buffer := pre ++ suf; _position := length pre |};
     buffer := buf;
     live := h |}.

Definition is_digit (c : ascii) : Prop := isdigit c = true.

(** The digit a character stands for. *)
Definition digit_of (c : ascii) : Z := (Z.of_N (N_of_ascii c) - 48)%Z.

Definition digit_char (d : Z) : ascii := nth (Z.to_nat d) itoa_digits "0"%char.

(** The value [strtoimax] reduces a mathematical integer to. *)
Definition saturate (value : Z) : Z :=
  if (INTMAX_MAX <? value)%Z then INTMAX_MAX
  else if (value <? INTMAX_MIN)%Z then INTMAX_MIN
  else value.




(** The pairs after [dictionary[k] = v]: [v] replaces the value of the
    first key that is not below [k] when that key compares equal to
    [k], and the pair is put in front of it otherwise. *)
Fixpoint assign_pair (k : Item) (v : Ptr) (items : list _Element)
  : list _Element :=
  match items with
  | [] => [(Some k, v)]
  | (first, old) :: rest =>
      match first with
      | Some f =>
          match compare k f with
          | Gt => (first, old) :: assign_pair k v rest
          | Eq => (first, v) :: rest
          | Lt => (Some k, v) :: items
          end
      | None => items
      end
  end.

(** A pair of valid trees with a key. *)
Definition valid_pair (e : _Element) : Prop :=
  match fst e with Some k => valid k = true | None => False end
  /\ match snd e with Some v => valid v = true | None => True end.













(** The value of a digit of [itoa]: its place in "0123456789abcdef". *)
Definition radix_digit (c : ascii) : Z :=
  let n := Z.of_N (N_of_ascii c) in
  if isdigit c then (n - 48)%Z else (n - 87)%Z.

(** The number a digit string stands for in a base. *)
Fixpoint radix_value (base : Z) (s : bytes) (acc : Z) : Z :=
  match s with
  | [] => acc
  | c :: rest => radix_value base rest (acc * base + radix_digit c)%Z
  end.

(** The components a slot of a [List] stands for: those of the node, or
    one empty component for [NULL]. *)
Definition flatten_ptr (p : Ptr) : list bytes :=
  match p with
  | Some x => flatten x
  | None => [[]]
  end.

(** The number of components of the slots of a [List], before any
    reduction to [uint32_t]. *)
Definition List_components (items : list Ptr) : N :=
  fold_right (fun (item : Ptr) n =>
                (match item with Some i => componentCount i | None => 1 end + n)%N)
             0%N items.

(** The value of the first pair whose key compares equal to [k]. *)
Fixpoint assoc (k : Item) (items : list _Element) : option Ptr :=
  match items with
  | [] => None
  | (Some f, v) :: rest =>
      match compare f k with
      | Eq => Some v
      | _ => assoc k rest
      end
  | (None, _) :: rest => assoc k rest
  end.

(** Every key of [items] is above [k]. *)
Definition keys_over (k : Item) (items : list _Element) : Prop :=
  Forall (fun e : _Element =>
            match fst e with
            | Some g => compare k g = Lt
            | None => True
            end) items.

(** The number of objects [clone] allocates for a tree: one for each
    node, and those of every key of a dictionary twice, since
    [Dictionary::clone] hands [first->clone()] to [operator[]], which
    stores a clone of its own. *)
Fixpoint clone_allocations (x : Item) : nat :=
  match x with
  | String _ => 1
  | Integer _ => 1
  | List items =>
      S (fold_right (fun (item : Ptr) n =>
                       match item with
                       | Some i => clone_allocations i
                       | None => O
                       end + n) O items)
  | Dictionary items =>
      S (fold_right (fun (item : _Element) n =>
                       match snd item with
                       | Some v => clone_allocations v
                       | None => O
                       end
                       + (match fst item with
                          | Some k => clone_allocations k
                          | None => O
                          end
                          + match fst item with
                            | Some k => clone_allocations k
                            | None => O
                            end)
                       + n) O items)
  end.

Definition clone_allocations_ptr (p : Ptr) : nat :=
  match p with Some x => clone_allocations x | None => O end.

(** The number of keys the dictionaries of a tree hold, at any depth. *)
Fixpoint keys_in (x : Item) : nat :=
  match x with
  | String _ => O
  | Integer _ => O
  | List items =>
      fold_right (fun (item : Ptr) n =>
                    match item with Some i => keys_in i | None => O end + n)
                 O items
  | Dictionary items =>
      fold_right (fun (item : _Element) n =>
                    match fst item with Some k => S (keys_in k) | None => O end
                    + match snd item with Some v => keys_in v | None => O end
                    + n)
                 O items
  end.

(** [cl] returns a copy equal to what [p] points to and allocates
    [clone_allocations] objects for it. *)
Definition copies_counted (cl : Item -> M Heap Ptr) (p : Ptr) : Prop :=
  match p with
  | Some x =>
      forall h, cl x h = Done (Some x, (h + Z.of_nat (clone_allocations x))%Z)
  | None => True
  end.

(** A tree without any [NULL] slot. *)
Fixpoint complete (x : Item) : bool :=
  match x with
  | String _ => true
  | Integer _ => true
  | List items =>
      forallb (fun item : Ptr =>
                 match item with Some i => complete i | None => false end)
              items
  | Dictionary items =>
      forallb (fun e : _Element =>
                 match fst e with Some k => complete k | None => false end
                 && match snd e with Some v => complete v | None => false end)
              items
  end.

(** What the parser may hand back: nothing, or a valid tree without
    [NULL] slots. *)
Definition parsed (p : Ptr) : Prop :=
  match p with
  | Some y => valid y = true /\ complete y = true
  | None => True
  end.

(** A slot that holds a tree the parser may hand back. *)
Definition parsed_item (p : Ptr) : Prop :=
  match p with
  | Some y => valid y = true /\ complete y = true
  | None => False
  end.

Definition complete_pair (e : _Element) : Prop :=
  match fst e with Some k => complete k = true | None => False end
  /\ match snd e with Some v => complete v = true | None => False end.

(** The code does not run into undefined behaviour, and what it
    returns, if it returns, satisfies [Q]. *)
Definition yields {S A : Type} (Q : A -> Prop) (o : Outcome (A * S)) : Prop :=
  match o with
  | Done (a, _) => Q a
  | Undefined => False
  | OutOfFuel => True
  end.

(** Every ['i'] of [w] has an ['e'] somewhere behind it. *)
Fixpoint terminated (w : bytes) : bool :=
  match w with
  | [] => true
  | c :: rest =>
      (negb (Ascii.eqb c "i"%char) || existsb (Ascii.eqb "e"%char) rest)
      && terminated rest
  end.

(** The source of [s] holds no ['d']. *)
Definition no_dictionary (w : bytes) : bool :=
  forallb (fun c => negb (Ascii.eqb c "d"%char)) w.

(** The source and the free store are as they were. *)
Definition same_store (s s' : ParseState ReferencedStringInput) : Prop :=
  _buffer (source s') = _buffer (source s) /\ live s' = live s.

(** What a call leaves: the source it had, and in the free store the
    objects of the tree it returns on top of those that were there. *)
Definition keeps_books (s : ParseState ReferencedStringInput) (r : Ptr)
           (s' : ParseState ReferencedStringInput) : Prop :=
  _buffer (source s') = _buffer (source s)
  /\ live s' = (live s + Z.of_nat (nodes_ptr r))%Z.

(** What is left to read of a [ReferencedStringInput]. *)
Definition unread (i : ReferencedStringInput) : bytes :=
  skipn (_position i) (_buffer i).

(** The keys a caller sees who starts from an iterator and advances it
    with [++] as long as it converts to [true]. *)
Fixpoint key_iterator_walk (fuel : nat) (it : key_iterator) : list Ptr :=
  match fuel with
  | O => []
  | S fuel =>
      if key_iterator_valid it
      then key_iterator_arrow it :: key_iterator_walk fuel (key_iterator_incr it)
      else []
  end.

(** The text shown for a slot. *)
Definition display_ptr (p : Ptr) : bytes :=
  match p with
  | Some x => display x
  | None => lit "[NULL]"
  end.

(** The text shown for a pair; [separator] is what the loop has in its
    separator when it comes to the pair. *)
Definition display_pair (separator : bytes) (e : _Element) : bytes :=
  display_ptr (fst e) ++ ":"%char
    :: match snd e with
       | Some v => display v
       | None => separator ++ lit "[NULL]"
       end.

(** Texts put one behind the other with a separator between them. *)
Fixpoint join (separator : bytes) (texts : list bytes) : bytes :=
  match texts with
  | [] => []
  | text :: rest =>
      match rest with
      | [] => text
      | _ :: _ => text ++ separator ++ join separator rest
      end
  end.

(** The components [Dictionary::component] runs through: those of each
    key and each value in turn, one empty component for a [NULL]. *)
Definition Dictionary_flat (items : list _Element) : list bytes :=
  concat (map (fun e : _Element => flatten_ptr (fst e) ++ flatten_ptr (snd e))
              items).

(** The number of [NULL] keys and values of a pair sequence. *)
Definition nulls (items : list _Element) : nat :=
  fold_right (fun (e : _Element) n =>
                (match fst e with None => 1 | Some _ => 0 end
                 + match snd e with None => 1 | Some _ => 0 end
                 + n)%nat) O items.

(** What [component] counts for a slot. *)
Definition slot_count (p : Ptr) : N :=
  match p with None => 1%N | Some i => componentCount i end.

(** What [Dictionary::componentCount] counts for a slot. *)
Definition slot_counted (p : Ptr) : N :=
  match p with None => 0%N | Some i => componentCount i end.

(* ================================================================= *)
(** * Properties *)

(** ** Comparisons that are total preorders *)

Section Preorder.
Variable A : Type.
Variable cmp : A -> A -> comparison.
Hypothesis cmp_refl : forall x, cmp x x = Eq.
Hypothesis cmp_opp : forall x y, cmp y x = CompOpp (cmp x y).
Hypothesis cmp_trans :
  forall x y z, cmp x y <> Gt -> cmp y z <> Gt -> cmp x z <> Gt.

Ltac triangle x y z :=
  pose proof (cmp_trans x y z); pose proof (cmp_trans y x z);
  pose proof (cmp_trans x z y); pose proof (cmp_trans z x y);
  pose proof (cmp_trans y z x); pose proof (cmp_trans z y x);
  repeat match goal with
         | H : context [cmp y x] |- _ => rewrite (cmp_opp x y) in H
         | H : context [cmp z y] |- _ => rewrite (cmp_opp y z) in H
         | H : context [cmp z x] |- _ => rewrite (cmp_opp x z) in H
         end.

Lemma cmp_eq_l x y z : cmp x y = Eq -> cmp x z = cmp y z.
Proof.
  intros E. triangle x y z. rewrite E in *.
  destruct (cmp y z), (cmp x z); simpl in *;
    try reflexivity; exfalso; intuition congruence.
Qed.

Lemma cmp_eq_r x y z : cmp y z = Eq -> cmp x y = cmp x z.
Proof.
  intros E. triangle x y z. rewrite E in *.
  destruct (cmp x y), (cmp x z); simpl in *;
    try reflexivity; exfalso; intuition congruence.
Qed.

Lemma cmp_lt_trans x y z : cmp x y = Lt -> cmp y z = Lt -> cmp x z = Lt.
Proof.
  intros E1 E2. triangle x y z. rewrite E1, E2 in *.
  destruct (cmp x z); simpl in *;
    try reflexivity; exfalso; intuition congruence.
Qed.

Lemma lex_refl l : lex cmp l l = Eq.
Proof. induction l as [|x l IH]; simpl; [|rewrite cmp_refl]; auto. Qed.

Lemma lex_opp l1 : forall l2, lex cmp l2 l1 = CompOpp (lex cmp l1 l2).
Proof.
  induction l1 as [|x l1 IH]; intros [|y l2]; simpl; auto.
  rewrite (cmp_opp x y). destruct (cmp x y); simpl; auto.
Qed.

Lemma lex_trans l1 : forall l2 l3,
    lex cmp l1 l2 <> Gt -> lex cmp l2 l3 <> Gt -> lex cmp l1 l3 <> Gt.
Proof.
  induction l1 as [|x l1 IH]; intros [|y l2] [|z l3]; simpl; try congruence.
  destruct (cmp x y) eqn:E1; try congruence.
  - rewrite (cmp_eq_l x y z E1). destruct (cmp y z); try congruence.
    apply IH.
  - intros _. destruct (cmp y z) eqn:E2; try congruence.
    + rewrite <- (cmp_eq_r x y z E2), E1. congruence.
    + rewrite (cmp_lt_trans x y z E1 E2). congruence.
Qed.
End Preorder.

Lemma char_compare_refl c : char_compare c c = Eq.
Proof. apply N.compare_refl. Qed.

Lemma char_compare_opp c1 c2 :
  char_compare c2 c1 = CompOpp (char_compare c1 c2).
Proof. apply N.compare_antisym. Qed.

Lemma char_compare_trans c1 c2 c3 :
  char_compare c1 c2 <> Gt -> char_compare c2 c3 <> Gt ->
  char_compare c1 c3 <> Gt.
Proof.
  unfold char_compare. rewrite !N.compare_le_iff. apply N.le_trans.
Qed.

Lemma string_compare_refl s : string_compare s s = Eq.
Proof. apply lex_refl, char_compare_refl. Qed.

Lemma string_compare_opp s1 s2 :
  string_compare s2 s1 = CompOpp (string_compare s1 s2).
Proof. apply lex_opp, char_compare_opp. Qed.

Lemma string_compare_trans s1 s2 s3 :
  string_compare s1 s2 <> Gt -> string_compare s2 s3 <> Gt ->
  string_compare s1 s3 <> Gt.
Proof.
  apply lex_trans.
  - apply char_compare_opp.
  - apply char_compare_trans.
Qed.

(** ** Components do not depend on the buffer handed in *)

Lemma component_buffer x :
  forall index b1 b2,
    (index < componentCount x)%N ->
    component x index b1 = component x index b2.
Proof.
  induction x as [value|value|items IH|items IH] using Item_induction;
    simpl; intros index b1 b2 Hi.
  - replace index with 0%N by lia. reflexivity.
  - replace index with 0%N by lia. reflexivity.
  - clear Hi. revert index.
    induction IH as [|item rest Hitem _ IHrest]; simpl; intros index; auto.
    destruct (_ <=? index)%N eqn:E; [apply IHrest|].
    destruct item as [i|]; simpl in *; auto.
    apply Hitem. apply N.leb_gt in E. exact E.
  - clear Hi. revert index.
    induction IH as [|[first second] rest [Hk Hv] _ IHrest]; simpl;
      intros index; auto.
    destruct (_ <=? index)%N eqn:E1.
    + destruct (_ <=? index - _)%N eqn:E2; [apply IHrest|].
      destruct second as [v|]; simpl in *; auto.
      apply Hv. apply N.leb_gt in E2. exact E2.
    + destruct first as [k|]; simpl in *; auto.
      apply Hk. apply N.leb_gt in E1. exact E1.
Qed.

Lemma component_at_buffer x i b :
  (i < N.to_nat (componentCount x))%nat ->
  component x (N.of_nat i) b = component_at x (N.of_nat i).
Proof. intros H. apply component_buffer. lia. Qed.

(** ** [Item::compare] is the comparison of the flattened texts *)

Lemma count_compare_spec c1 c2 : count_compare c1 c2 = N.compare c1 c2.
Proof.
  unfold count_compare.
  destruct (N.ltb_spec c1 c2) as [H|H].
  - symmetry. apply N.compare_lt_iff. exact H.
  - destruct (N.ltb_spec c2 c1) as [H'|H'].
    + symmetry. apply N.compare_gt_iff. exact H'.
    + symmetry. apply N.compare_eq_iff. lia.
Qed.

Lemma compare_loop_find a b :
  forall steps i s1 s2,
    (i + steps <= N.to_nat (componentCount a))%nat ->
    (i + steps <= N.to_nat (componentCount b))%nat ->
    compare_loop a b (componentCount a) (componentCount b) steps
                 (N.of_nat i) s1 s2
    = match find (differ_at a b) (seq i steps) with
      | Some j => string_compare (component_at a (N.of_nat j))
                                 (component_at b (N.of_nat j))
      | None => count_compare (componentCount a) (componentCount b)
      end.
Proof.
  induction steps as [|steps IH]; intros i s1 s2 Ha Hb; simpl.
  - reflexivity.
  - rewrite (component_at_buffer a i s1) by lia.
    rewrite (component_at_buffer b i s2) by lia.
    unfold differ_at at 1.
    destruct (string_compare _ _) eqn:E; try (symmetry; exact E).
    rewrite <- Nat2N.inj_succ. apply IH; lia.
Qed.

Lemma compare_min a b :
  N.to_nat (if (componentCount a <? componentCount b)%N
            then componentCount a else componentCount b)
  = N.to_nat (N.min (componentCount a) (componentCount b)).
Proof.
  destruct (N.ltb_spec (componentCount a) (componentCount b)).
  - rewrite N.min_l by lia. reflexivity.
  - rewrite N.min_r by lia. reflexivity.
Qed.

Lemma compare_is_spec a b : compare a b = compare_spec a b.
Proof.
  unfold compare, compare_spec. rewrite compare_min.
  rewrite (compare_loop_find a b _ 0 [] []) by lia.
  rewrite count_compare_spec. reflexivity.
Qed.

Lemma lex_find (f g : nat -> bytes) :
  forall n1 n2 i,
    lex string_compare (map f (seq i n1)) (map g (seq i n2))
    = match find (fun j => match string_compare (f j) (g j) with
                           | Eq => false
                           | _ => true
                           end) (seq i (Nat.min n1 n2)) with
      | Some j => string_compare (f j) (g j)
      | None => Nat.compare n1 n2
      end.
Proof.
  induction n1 as [|n1 IH]; intros [|n2] i; simpl; try reflexivity.
  destruct (string_compare (f i) (g i)) eqn:E; try (rewrite E; reflexivity).
  apply IH.
Qed.

Lemma compare_is_lex a b :
  compare a b = lex string_compare (flatten a) (flatten b).
Proof.
  rewrite compare_is_spec. unfold compare_spec, flatten.
  rewrite lex_find, N2Nat.inj_min, N2Nat.inj_compare. reflexivity.
Qed.

Lemma compare_refl a : compare a a = Eq.
Proof.
  rewrite compare_is_lex. apply lex_refl, string_compare_refl.
Qed.

Lemma compare_opp a b : compare b a = CompOpp (compare a b).
Proof.
  rewrite !compare_is_lex. apply lex_opp, string_compare_opp.
Qed.

Lemma compare_trans a b c :
  compare a b <> Gt -> compare b c <> Gt -> compare a c <> Gt.
Proof.
  rewrite !compare_is_lex. apply lex_trans.
  - apply string_compare_opp.
  - apply string_compare_trans.
Qed.

Lemma compare_lt_trans a b c :
  compare a b = Lt -> compare b c = Lt -> compare a c = Lt.
Proof. apply cmp_lt_trans; [apply compare_opp|apply compare_trans]. Qed.

Lemma compare_eq_l a b c : compare a b = Eq -> compare a c = compare b c.
Proof. apply cmp_eq_l; [apply compare_opp|apply compare_trans]. Qed.

Lemma compare_eq_r a b c : compare b c = Eq -> compare a b = compare a c.
Proof. apply cmp_eq_r; [apply compare_opp|apply compare_trans]. Qed.

Lemma compare_lt_gt a b : compare a b = Lt <-> compare b a = Gt.
Proof.
  rewrite (compare_opp a b).
  destruct (compare a b); simpl; split; congruence.
Qed.

(** C3. [Item::compare] is a total order on all nodes, whatever their
    variants: a node equals itself, [compare a b] is less exactly when
    [compare b a] is greater, and non-greater is transitive. *)
Theorem C3_compare_total_order :
  (forall a, compare a a = Eq) /\
  (forall a b, compare a b = Lt <-> compare b a = Gt) /\
  (forall a b c,
      compare a b <> Gt -> compare b c <> Gt -> compare a c <> Gt).
Proof.
  split; [exact compare_refl|].
  split; [exact compare_lt_gt|exact compare_trans].
Qed.

Lemma C3_compare_total_order_witness :
  compare (Integer 3) (List [Some (String (lit "4")); None]) <> Gt.
Proof.
  apply (proj2 (proj2 C3_compare_total_order)
               (Integer 3) (String (lit "4"))
               (List [Some (String (lit "4")); None]));
    vm_compute; discriminate.
Defined.


(** ** Positions in a vector *)

Lemma insert_at_app {A : Type} (before after : list A) (item : A) :
  insert_at (length before) item (before ++ after) = before ++ item :: after.
Proof.
  induction before as [|x before IH]; simpl.
  - destruct after; reflexivity.
  - rewrite IH. reflexivity.
Qed.

Lemma insert_at_end {A : Type} (items : list A) (item : A) :
  insert_at (length items) item items = items ++ [item].
Proof.
  rewrite <- (app_nil_r items) at 2. rewrite insert_at_app. reflexivity.
Qed.

Lemma nth_error_middle {A : Type} (before after : list A) (item : A) :
  nth_error (before ++ item :: after) (length before) = Some item.
Proof. induction before; simpl; auto. Qed.

Lemma set_second_middle before after first old value :
  set_second (length before) value (before ++ (first, old) :: after)
  = before ++ (first, value) :: after.
Proof.
  induction before as [|x before IH]; simpl; [reflexivity|].
  rewrite IH. reflexivity.
Qed.

Lemma erase_middle {A : Type} (before after : list A) (item : A) :
  erase (length before) (before ++ item :: after) = before ++ after.
Proof.
  induction before as [|x before IH]; simpl; [reflexivity|].
  rewrite IH. reflexivity.
Qed.

Lemma List_push_spec item items :
  List_push item items = Done (items ++ [item]).
Proof.
  unfold List_push, List_insert. rewrite Nat.leb_refl, insert_at_end.
  reflexivity.
Qed.

(** ** The order of a pair sequence *)

Lemma StronglySorted_app_iff {A : Type} (R : A -> A -> Prop) (l1 l2 : list A) :
  StronglySorted R (l1 ++ l2)
  <-> StronglySorted R l1 /\ StronglySorted R l2
      /\ Forall (fun x => Forall (R x) l2) l1.
Proof.
  induction l1 as [|x l1 IH]; simpl.
  - split; [intros H|intros (_ & H & _)]; auto.
    repeat split; auto. constructor.
  - split.
    + intros H. apply StronglySorted_inv in H. destruct H as [H Hx].
      apply IH in H. destruct H as (H1 & H2 & H3).
      apply Forall_app in Hx. destruct Hx as [Hx1 Hx2].
      repeat split; auto. constructor; auto.
    + intros (H1 & H2 & H3).
      apply StronglySorted_inv in H1. destruct H1 as [H1 Hx1].
      apply Forall_cons_iff in H3. destruct H3 as [Hx2 H3].
      constructor; [apply IH; auto|apply Forall_app; auto].
Qed.

Lemma key_before_trans e1 e2 e3 :
  key_before e1 e2 -> key_before e2 e3 -> key_before e1 e3.
Proof.
  unfold key_before.
  destruct (fst e1), (fst e2), (fst e3); try tauto.
  apply compare_lt_trans.
Qed.

Lemma key_before_fst e1 e2 e1' e2' :
  fst e1 = fst e1' -> fst e2 = fst e2' ->
  key_before e1 e2 -> key_before e1' e2'.
Proof. unfold key_before. intros -> ->. auto. Qed.

Lemma keys_split k items :
  Forall key_present items ->
  exists before after,
    items = before ++ after
    /\ Forall (key_above k) before /\ stops_at k after.
Proof.
  induction 1 as [|[first second] rest Hp _ IH].
  - exists [], []. repeat split; auto.
  - destruct first as [f|]; [|exfalso; apply Hp; reflexivity].
    destruct (compare k f) eqn:E.
    + exists [], ((Some f, second) :: rest). repeat split; auto.
      simpl. congruence.
    + exists [], ((Some f, second) :: rest). repeat split; auto.
      simpl. congruence.
    + destruct IH as (before & after & -> & Hb & Ha).
      exists ((Some f, second) :: before), after. repeat split; auto.
Qed.

Lemma _find_loop_stops k before after :
  Forall (key_above k) before -> stops_at k after ->
  forall p,
    _find_loop (Some k) (before ++ after) p = Done (p + length before).
Proof.
  induction 1 as [|[first second] before Hk _ IH]; intros Ha p; simpl.
  - rewrite Nat.add_0_r. destruct after as [|[first second] after]; auto.
    simpl in Ha. destruct first as [f|]; [|contradiction].
    simpl. destruct (compare k f); congruence.
  - unfold key_above in Hk. simpl in Hk.
    destruct first as [f|]; [|contradiction].
    rewrite Hk, IH by assumption. f_equal. lia.
Qed.

Lemma _find_stops k before after :
  Forall (key_above k) before -> stops_at k after ->
  _find (Some k) (before ++ after) = Done (found_at k after, length before).
Proof.
  intros Hb Ha. unfold _find.
  rewrite (_find_loop_stops k before after Hb Ha). simpl.
  destruct after as [|[first second] after].
  - rewrite app_nil_r.
    replace (nth_error before (length before)) with (@None _Element);
      [reflexivity|].
    symmetry. apply nth_error_None. lia.
  - rewrite nth_error_middle. simpl in Ha.
    destruct first as [f|]; [reflexivity|contradiction].
Qed.

Lemma Sorted_keys_insert k before after :
  Sorted_keys (before ++ after) ->
  Forall (key_above k) before -> stops_at k after ->
  found_at k after = false ->
  Sorted_keys (before ++ (Some k, None) :: after).
Proof.
  intros [Hs Hp] Hb Ha Hf.
  apply StronglySorted_app_iff in Hs. destruct Hs as (Hs1 & Hs2 & Hs3).
  apply Forall_app in Hp. destruct Hp as [Hp1 Hp2].
  assert (Hka : Forall (key_before (Some k, None)) after).
  { destruct after as [|[first second] after]; [constructor|].
    simpl in Ha, Hf. destruct first as [f|]; [|contradiction].
    assert (Hlt : compare k f = Lt).
    { rewrite (compare_opp k f) in Hf.
      destruct (compare k f); simpl in *; congruence. }
    apply StronglySorted_inv in Hs2. destruct Hs2 as [_ Hs2].
    constructor; [exact Hlt|].
    eapply Forall_impl; [|exact Hs2].
    intros e He. eapply key_before_trans; [|exact He]. exact Hlt. }
  split.
  - apply StronglySorted_app_iff. repeat split; auto.
    + constructor; auto.
    + rewrite Forall_forall in *. intros e He.
      constructor; [|apply Hs3; exact He].
      specialize (Hb e He). unfold key_above in Hb. unfold key_before.
      simpl. destruct (fst e) as [f|]; [|contradiction].
      rewrite (compare_opp k f), Hb. reflexivity.
  - apply Forall_app. split; auto. constructor; auto.
    unfold key_present. simpl. discriminate.
Qed.

Lemma Sorted_keys_set_second before after first old value :
  Sorted_keys (before ++ (first, old) :: after) ->
  Sorted_keys (before ++ (first, value) :: after).
Proof.
  intros [Hs Hp].
  apply StronglySorted_app_iff in Hs. destruct Hs as (Hs1 & Hs2 & Hs3).
  apply StronglySorted_inv in Hs2. destruct Hs2 as [Hs2 Hs4].
  apply Forall_app in Hp. destruct Hp as [Hp1 Hp2].
  apply Forall_cons_iff in Hp2. destruct Hp2 as [Hp2 Hp3].
  split.
  - apply StronglySorted_app_iff. repeat split; auto.
    + constructor; auto.
    + eapply Forall_impl; [|exact Hs3]. intros e He.
      apply Forall_cons_iff in He. destruct He as [He1 He2].
      constructor; auto.
  - apply Forall_app. split; auto.
Qed.

Lemma Sorted_keys_erase before after e :
  Sorted_keys (before ++ e :: after) -> Sorted_keys (before ++ after).
Proof.
  intros [Hs Hp].
  apply StronglySorted_app_iff in Hs. destruct Hs as (Hs1 & Hs2 & Hs3).
  apply StronglySorted_inv in Hs2. destruct Hs2 as [Hs2 _].
  apply Forall_app in Hp. destruct Hp as [Hp1 Hp2].
  apply Forall_cons_iff in Hp2. destruct Hp2 as [_ Hp3].
  split.
  - apply StronglySorted_app_iff. repeat split; auto.
    eapply Forall_impl; [|exact Hs3]. intros x Hx.
    apply Forall_cons_iff in Hx. tauto.
  - apply Forall_app. split; auto.
Qed.

(** ** [Dictionary::operator[]] on a sorted pair sequence *)

Lemma bind_Done {S A B : Type} (c : M S A) (k : A -> M S B) s a s' :
  c s = Done (a, s') -> bind c k s = k a s'.
Proof. unfold bind. intros ->. reflexivity. Qed.

Section EngineProperties.
Variable clone : Item -> M Heap Ptr.

Lemma Dictionary_index_with_found k before after h :
  Forall (key_above k) before -> stops_at k after ->
  found_at k after = true ->
  Dictionary_index_with clone (Some k) (before ++ after) h
  = Done ((before ++ after, length before), h).
Proof.
  intros Hb Ha Hf. unfold Dictionary_index_with, bind, lift.
  rewrite (_find_stops k before after Hb Ha), Hf. reflexivity.
Qed.

Lemma Dictionary_index_with_absent k before after h h' :
  Forall (key_above k) before -> stops_at k after ->
  found_at k after = false ->
  clone k h = Done (Some k, h') ->
  Dictionary_index_with clone (Some k) (before ++ after) h
  = Done ((before ++ (Some k, None) :: after, length before), h').
Proof.
  intros Hb Ha Hf Hc. unfold Dictionary_index_with, bind, lift.
  rewrite (_find_stops k before after Hb Ha), Hf. simpl.
  rewrite Hc, insert_at_app.
  match goal with
  | |- context [_find (Some k) ?l] =>
      replace (_find (Some k) l)
        with (Done (found_at k ((Some k, None) :: after), length before))
        by (symmetry;
            apply (_find_stops k before ((Some k, None) :: after) Hb);
            simpl; rewrite compare_refl; discriminate)
  end.
  match goal with
  | |- context [(?a <? ?b)%nat] =>
      replace (a <? b)%nat with true; [reflexivity|]
  end.
  symmetry. apply Nat.ltb_lt. rewrite length_app. simpl.
  apply Nat.lt_add_pos_r. apply Nat.lt_0_succ.
Qed.

(** Indexing a sorted sequence by [k], which [clone] copies
    faithfully: the handle refers to a pair of the sequence after the
    call, which is sorted. *)
Lemma Dictionary_index_with_sorted k items h :
  Sorted_keys items ->
  (forall h, exists h', clone k h = Done (Some k, h')) ->
  exists before first old after h',
    Dictionary_index_with clone (Some k) items h
    = Done ((before ++ (first, old) :: after, length before), h')
    /\ Sorted_keys (before ++ (first, old) :: after).
Proof.
  intros Hs Hc.
  destruct (keys_split k items (proj2 Hs)) as (before & after & -> & Hb & Ha).
  destruct (found_at k after) eqn:Hf.
  - destruct after as [|[first old] after]; [discriminate|].
    exists before, first, old, after, h. split; auto.
    apply Dictionary_index_with_found; auto.
  - destruct (Hc h) as [h' Hh].
    exists before, (Some k), None, after, h'. split.
    + apply Dictionary_index_with_absent; auto.
    + apply Sorted_keys_insert; auto.
Qed.

(** Assigning under a key above all the keys of the sequence appends
    the pair. *)
Lemma Dictionary_assign_with_end k v items h :
  Forall (key_above k) items ->
  (forall h, exists h', clone k h = Done (Some k, h')) ->
  exists h',
    Dictionary_assign_with clone (Some k) v items h
    = Done (items ++ [(Some k, v)], h').
Proof.
  intros Hb Hc. destruct (Hc h) as [h' Hh].
  pose proof (Dictionary_index_with_absent k items [] h h' Hb I eq_refl Hh)
    as E.
  rewrite app_nil_r in E.
  unfold Dictionary_assign_with.
  erewrite bind_Done; [|exact E].
  simpl. rewrite nth_error_middle.
  destruct v as [v|]; unfold bind, Assignment_assign, delete_, ret; simpl;
    rewrite set_second_middle; eexists; reflexivity.
Qed.
End EngineProperties.

Lemma keys_sorted_Sorted_keys items :
  keys_sorted items = true -> Sorted_keys items.
Proof.
  induction items as [|[first second] rest IH]; intros H.
  - split; constructor.
  - simpl in H. destruct first as [k1|]; [|discriminate].
    destruct rest as [|[first2 second2] rest].
    + split; repeat constructor. unfold key_present. simpl. discriminate.
    + destruct first2 as [k2|]; [|discriminate].
      destruct (compare k1 k2) eqn:E; try discriminate.
      destruct (IH H) as [Hs Hp]. split.
      * constructor; [exact Hs|].
        apply StronglySorted_inv in Hs. destruct Hs as [_ Hs].
        constructor; [exact E|].
        eapply Forall_impl; [|exact Hs].
        intros e He. eapply key_before_trans; [|exact He]. exact E.
      * constructor; [|exact Hp]. unfold key_present. simpl. discriminate.
Qed.

Lemma Sorted_keys_keys_sorted items :
  Sorted_keys items -> keys_sorted items = true.
Proof.
  induction items as [|[first second] rest IH]; intros [Hs Hp]; [reflexivity|].
  apply StronglySorted_inv in Hs. destruct Hs as [Hs Hh].
  apply Forall_cons_iff in Hp. destruct Hp as [Hp1 Hp].
  specialize (IH (conj Hs Hp)).
  unfold key_present in Hp1. simpl in *.
  destruct first as [k1|]; [|congruence].
  destruct rest as [|[first2 second2] rest]; [reflexivity|].
  apply Forall_cons_iff in Hh. destruct Hh as [Hh _].
  unfold key_before in Hh. simpl in Hh.
  destruct first2 as [k2|]; [|contradiction].
  rewrite Hh. exact IH.
Qed.

(** ** [clone] copies a valid tree faithfully *)

Lemma depth_List items n :
  (depth (List items) <= S n)%nat ->
  Forall (fun item => (depth_ptr item <= n)%nat) items.
Proof.
  simpl. intros H. apply le_S_n in H.
  induction items as [|item items IH]; constructor; simpl in H.
  - destruct item; simpl; lia.
  - apply IH. lia.
Qed.

Lemma depth_Dictionary items n :
  (depth (Dictionary items) <= S n)%nat ->
  Forall (fun e : _Element =>
            (depth_ptr (fst e) <= n)%nat /\ (depth_ptr (snd e) <= n)%nat)
         items.
Proof.
  simpl. intros H. apply le_S_n in H.
  induction items as [|[first second] items IH]; constructor; simpl in H.
  - destruct first, second; simpl; lia.
  - apply IH. lia.
Qed.

Lemma clone_ptr_copies cl p h :
  copies cl p -> exists h', clone_ptr cl p h = Done (p, h').
Proof.
  destruct p as [x|]; simpl; intros H.
  - apply H.
  - exists h. reflexivity.
Qed.

Lemma List_clone_loop_copies cl items :
  Forall (copies cl) items ->
  forall result h,
  exists h', List_clone_loop cl items result h = Done (result ++ items, h').
Proof.
  induction 1 as [|item items Hitem _ IH]; intros result h; simpl.
  - exists h. rewrite app_nil_r. reflexivity.
  - destruct (clone_ptr_copies cl item h Hitem) as [h1 E1].
    destruct (IH (result ++ [item]) h1) as [h2 E2].
    exists h2. rewrite (bind_Done _ _ _ _ _ E1).
    unfold bind at 1, lift. rewrite List_push_spec.
    rewrite E2, <- app_assoc. reflexivity.
Qed.

Lemma Sorted_keys_above result k v rest :
  Sorted_keys (result ++ (Some k, v) :: rest) ->
  Forall (key_above k) result.
Proof.
  intros [Hs _].
  apply StronglySorted_app_iff in Hs. destruct Hs as (_ & _ & Hs).
  eapply Forall_impl; [|exact Hs]. intros e He.
  apply Forall_cons_iff in He. destruct He as [He _].
  unfold key_before in He. unfold key_above. simpl in He.
  destruct (fst e) as [f|]; [|contradiction].
  rewrite (compare_opp f k), He. reflexivity.
Qed.

Lemma Dictionary_clone_loop_copies cl items :
  Forall (fun e : _Element => copies cl (fst e) /\ copies cl (snd e)) items ->
  forall result h,
    Sorted_keys (result ++ items) ->
    exists h',
      Dictionary_clone_loop cl items result h = Done (result ++ items, h').
Proof.
  induction 1 as [|[first second] items [Hk Hv] _ IH]; intros result h Hs;
    simpl.
  - exists h. rewrite app_nil_r. reflexivity.
  - destruct (clone_ptr_copies cl second h Hv) as [h1 E1].
    destruct (clone_ptr_copies cl first h1 Hk) as [h2 E2].
    assert (Hp : key_present (first, second)).
    { destruct Hs as [_ Hp]. apply Forall_app in Hp.
      destruct Hp as [_ Hp]. apply Forall_cons_iff in Hp. tauto. }
    destruct first as [k|]; [|exfalso; apply Hp; reflexivity].
    destruct (Dictionary_assign_with_end cl k second result h2
                (Sorted_keys_above result k second items Hs) Hk)
      as [h3 E3].
    destruct (IH (result ++ [(Some k, second)]) h3) as [h4 E4].
    { rewrite <- app_assoc. exact Hs. }
    exists h4.
    rewrite (bind_Done _ _ _ _ _ E1), (bind_Done _ _ _ _ _ E2), (bind_Done _ _ _ _ _ E3).
    rewrite E4, <- app_assoc. reflexivity.
Qed.

Lemma valid_List items :
  valid (List items) = true ->
  Forall (fun item : Ptr =>
            match item with Some i => valid i = true | None => True end)
         items.
Proof.
  simpl. intros H. apply Forall_forall. intros item Hin.
  rewrite forallb_forall in H. specialize (H item Hin).
  destruct item; auto.
Qed.

Lemma valid_Dictionary items :
  valid (Dictionary items) = true ->
  Forall (fun e : _Element =>
            match fst e with Some k => valid k = true | None => False end
            /\ match snd e with Some v => valid v = true | None => True end)
         items
  /\ keys_sorted items = true.
Proof.
  simpl. intros H. apply andb_true_iff in H. destruct H as [H Hs].
  split; [|exact Hs]. apply Forall_forall. intros e Hin.
  rewrite forallb_forall in H. specialize (H e Hin).
  apply andb_true_iff in H. destruct H as [H1 H2].
  destruct (fst e), (snd e); try discriminate; auto.
Qed.

Lemma clone_fuel_valid x :
  valid x = true ->
  forall n h,
    (depth x <= n)%nat ->
    exists h', clone_fuel n x h = Done (Some x, h').
Proof.
  induction x as [value|value|items IH|items IH] using Item_induction;
    intros Hv n h Hd;
    (destruct n as [|n]; [simpl in Hd; lia|]).
  - eexists. reflexivity.
  - eexists. reflexivity.
  - apply valid_List in Hv. apply depth_List in Hd.
    assert (Hc : Forall (copies (clone_fuel n)) items).
    { rewrite Forall_forall in *. intros item Hin.
      specialize (IH item Hin). specialize (Hv item Hin).
      specialize (Hd item Hin).
      destruct item as [i|]; simpl in *; auto. }
    destruct (List_clone_loop_copies (clone_fuel n) items Hc [] (h + 1)%Z)
      as [h' E].
    exists h'. simpl. unfold bind at 1, new_.
    rewrite (bind_Done _ _ _ _ _ E). reflexivity.
  - apply valid_Dictionary in Hv. destruct Hv as [Hv Hs].
    apply depth_Dictionary in Hd.
    assert (Hc : Forall (fun e : _Element =>
                           copies (clone_fuel n) (fst e)
                           /\ copies (clone_fuel n) (snd e)) items).
    { rewrite Forall_forall in *. intros e Hin.
      destruct (IH e Hin) as [IHk IHv]. destruct (Hv e Hin) as [Hvk Hvv].
      destruct (Hd e Hin) as [Hdk Hdv].
      destruct (fst e), (snd e); simpl in *; split; auto; contradiction. }
    destruct (Dictionary_clone_loop_copies (clone_fuel n) items Hc []
                (h + 1)%Z (keys_sorted_Sorted_keys items Hs)) as [h' E].
    exists h'. simpl. unfold bind at 1, new_.
    rewrite (bind_Done _ _ _ _ _ E). reflexivity.
Qed.

Lemma clone_valid x :
  valid x = true -> forall h, exists h', clone x h = Done (Some x, h').
Proof. intros Hv h. apply clone_fuel_valid; auto. Qed.

(** ** Lookup in a sorted pair sequence *)

Lemma found_at_equal k before after :
  Sorted_keys (before ++ after) ->
  Forall (key_above k) before -> stops_at k after ->
  (found_at k after = true <-> has_equal_key k (before ++ after)).
Proof.
  intros [Hs _] Hb Ha. unfold has_equal_key. split.
  - intros Hf. apply Exists_app. right.
    destruct after as [|[[f|] v] after]; simpl in Hf; try discriminate.
    constructor. simpl. destruct (compare f k); congruence.
  - intros He. apply Exists_app in He. destruct He as [He|He].
    + exfalso. apply Exists_exists in He. destruct He as (e & Hin & He).
      rewrite Forall_forall in Hb. specialize (Hb e Hin).
      unfold key_above in Hb. destruct (fst e) as [f|]; [|contradiction].
      rewrite (compare_opp f k), He in Hb. discriminate.
    + apply StronglySorted_app_iff in Hs. destruct Hs as (_ & Hs & _).
      destruct after as [|[first v] after]; [inversion He|].
      simpl in Ha. destruct first as [f|]; [|contradiction].
      apply Exists_cons in He. destruct He as [He|He].
      * simpl in *. rewrite He. reflexivity.
      * exfalso. apply StronglySorted_inv in Hs. destruct Hs as [_ Hs].
        apply Exists_exists in He. destruct He as (e & Hin & He).
        rewrite Forall_forall in Hs. specialize (Hs e Hin).
        unfold key_before in Hs. simpl in Hs.
        destruct (fst e) as [g|]; [|contradiction].
        apply Ha. rewrite (compare_opp f k).
        rewrite <- (compare_eq_r f g k He), Hs. reflexivity.
Qed.

Lemma Assignment_assign_done value slot h :
  exists h', Assignment_assign value slot h = Done (value, h').
Proof.
  destruct value, slot; unfold Assignment_assign, bind, delete_, ret;
    eexists; reflexivity.
Qed.

(** Indexing by a [NULL] key is undefined, whatever the dictionary
    holds: the second [_find] (or the first, when there is a pair)
    calls [compare] through the null pointer. *)
Lemma Dictionary_index_NULL items h :
  Dictionary_index None items h = Undefined.
Proof.
  destruct items as [|[first second] items]; reflexivity.
Qed.

(** Every operation keeps the pair sequence sorted. *)
Lemma run_operation_sorted op items h :
  Sorted_keys items -> valid (operation_key op) = true ->
  exists items' h',
    run_operation op items h = Done (items', h') /\ Sorted_keys items'.
Proof.
  intros Hs Hv.
  pose proof (clone_valid (operation_key op) Hv) as Hc.
  destruct op as [key|key value|key value|key value|key|key]; simpl in *.
  - destruct (Dictionary_index_with_sorted clone key items h Hs Hc)
      as (before & first & old & after & h' & E & Hs').
    exists (before ++ (first, old) :: after), h'. split; [|exact Hs'].
    unfold Dictionary_index. rewrite (bind_Done _ _ _ _ _ E). reflexivity.
  - destruct (Dictionary_index_with_sorted clone key items h Hs Hc)
      as (before & first & old & after & h' & E & Hs').
    destruct (Assignment_assign_done value old h') as [h'' Ea].
    exists (before ++ (first, value) :: after), h''. split.
    + unfold Dictionary_assign, Dictionary_assign_with.
      rewrite (bind_Done _ _ _ _ _ E). simpl.
      rewrite nth_error_middle, (bind_Done _ _ _ _ _ Ea).
      unfold ret. rewrite set_second_middle. reflexivity.
    + eapply Sorted_keys_set_second. exact Hs'.
  - destruct (Dictionary_index_with_sorted clone key items h Hs Hc)
      as (before & first & old & after & h' & E & Hs').
    eexists (before ++ (first, Some (Integer value)) :: after), _. split.
    + unfold Dictionary_index. rewrite (bind_Done _ _ _ _ _ E). simpl.
      rewrite nth_error_middle.
      unfold Assignment_assign_int, bind, delete_, new_, ret.
      rewrite set_second_middle. reflexivity.
    + eapply Sorted_keys_set_second. exact Hs'.
  - destruct (Dictionary_index_with_sorted clone key items h Hs Hc)
      as (before & first & old & after & h' & E & Hs').
    eexists (before ++ (first, Some (String value)) :: after), _. split.
    + unfold Dictionary_index. rewrite (bind_Done _ _ _ _ _ E). simpl.
      rewrite nth_error_middle.
      unfold Assignment_assign_string, bind, delete_, new_, ret.
      rewrite set_second_middle. reflexivity.
    + eapply Sorted_keys_set_second. exact Hs'.
  - destruct (keys_split key items (proj2 Hs))
      as (before & after & -> & Hb & Ha).
    exists (before ++ after), h. split; [|exact Hs].
    unfold Dictionary_has_key, bind, lift.
    rewrite (_find_stops key before after Hb Ha). reflexivity.
  - destruct (keys_split key items (proj2 Hs))
      as (before & after & -> & Hb & Ha).
    unfold Dictionary_remove, bind, lift.
    rewrite (_find_stops key before after Hb Ha).
    destruct (found_at key after) eqn:Hf.
    + destruct after as [|[first value] after]; [discriminate|].
      eexists (before ++ after), _. split.
      * rewrite nth_error_middle. unfold delete_, ret.
        rewrite erase_middle. reflexivity.
      * eapply Sorted_keys_erase. exact Hs.
    + exists (before ++ after), h. split; [reflexivity|exact Hs].
Qed.

Lemma run_operations_sorted ops :
  Forall (fun op => valid (operation_key op) = true) ops ->
  forall items h,
    Sorted_keys items ->
    exists items' h',
      run_operations ops items h = Done (items', h') /\ Sorted_keys items'.
Proof.
  induction 1 as [|op ops Hop _ IH]; intros items h Hs; simpl.
  - exists items, h. split; [reflexivity|exact Hs].
  - destruct (run_operation_sorted op items h Hs Hop) as (items1 & h1 & E & Hs1).
    destruct (IH items1 h1 Hs1) as (items2 & h2 & E2 & Hs2).
    exists items2, h2. split; [|exact Hs2].
    rewrite (bind_Done _ _ _ _ _ E). exact E2.
Qed.

(** C5. Whatever operations (indexing, assignments through the handle,
    lookups, removals) are run on an empty [Dictionary] with keys that
    are trees of the program, they all return, and the pairs they leave
    are strictly increasing by key under [Item::compare]: sorted, and
    without two keys that compare equal. *)
Theorem C5_dictionary_stays_sorted (ops : list Operation) (h : Heap) :
  Forall (fun op => valid (operation_key op) = true) ops ->
  exists items h',
    run_operations ops [] h = Done (items, h')
    /\ StronglySorted key_before items.
Proof.
  intros Hops.
  destruct (run_operations_sorted ops Hops [] h) as (items & h' & E & Hs & _).
  - split; constructor.
  - exists items, h'. split; assumption.
Qed.

Lemma C5_dictionary_stays_sorted_witness :
  exists items h',
    run_operations
      [AssignString (String (lit "eggs")) (lit "spam");
       AssignString (String (lit "cow")) (lit "moo");
       Index (Integer 7);
       AssignInteger (String (lit "eggs")) 2;
       HasKey (List [None]);
       Remove (String (lit "cow"));
       AssignItem (Dictionary [(Some (Integer 1), None)]) None] [] 0%Z
    = Done (items, h')
    /\ StronglySorted key_before items.
Proof.
  apply C5_dictionary_stays_sorted. repeat constructor.
Defined.

(** C6. On a sorted [Dictionary], [has_key] answers whether some key
    compares equal to [key] and leaves the pairs as they were. Indexing
    by a key that is there yields a handle to the pair that has it and
    changes nothing; indexing by a key that is absent inserts the pair
    (clone of [key], [NULL]) at its place in the order and yields a
    handle to the value slot of that pair. *)
Theorem C6_index_inserts_has_key_does_not
        (items : list _Element) (key : Item) (h : Heap) :
  keys_sorted items = true -> valid key = true ->
  exists found before after,
    items = before ++ after
    /\ Dictionary_has_key (Some key) items h = Done ((found, items), h)
    /\ (found = true <-> has_equal_key key items)
    /\ (found = true ->
        Dictionary_index (Some key) items h
        = Done ((items, length before), h)
        /\ exists first value,
            nth_error items (length before) = Some (Some first, value)
            /\ compare first key = Eq)
    /\ (found = false ->
        exists h',
          clone key h = Done (Some key, h')
          /\ Dictionary_index (Some key) items h
             = Done ((before ++ (Some key, None) :: after, length before), h')
          /\ nth_error (before ++ (Some key, None) :: after) (length before)
             = Some (Some key, None)
          /\ keys_sorted (before ++ (Some key, None) :: after) = true).
Proof.
  intros Hks Hv. apply keys_sorted_Sorted_keys in Hks.
  destruct (keys_split key items (proj2 Hks))
    as (before & after & -> & Hb & Ha).
  exists (found_at key after), before, after.
  split; [reflexivity|]. split.
  { unfold Dictionary_has_key, bind, lift.
    rewrite (_find_stops key before after Hb Ha). reflexivity. }
  split; [apply found_at_equal; assumption|]. split.
  - intros Hf. split.
    + apply Dictionary_index_with_found; assumption.
    + destruct after as [|[[f|] v] after]; simpl in Hf; try discriminate.
      exists f, v. rewrite nth_error_middle. split; [reflexivity|].
      destruct (compare f key); congruence.
  - intros Hf. destruct (clone_valid key Hv h) as [h' Hc].
    exists h'. split; [exact Hc|]. split.
    + apply Dictionary_index_with_absent; assumption.
    + split; [apply nth_error_middle|].
      apply Sorted_keys_keys_sorted, Sorted_keys_insert; assumption.
Qed.

Lemma C6_index_inserts_has_key_does_not_witness :
  exists found before after,
    [(Some (String (lit "cow")), Some (String (lit "moo")));
     (Some (String (lit "spam")), Some (String (lit "eggs")))]
    = before ++ after
    /\ Dictionary_has_key (Some (String (lit "eggs")))
         [(Some (String (lit "cow")), Some (String (lit "moo")));
          (Some (String (lit "spam")), Some (String (lit "eggs")))] 0%Z
       = Done ((found,
                [(Some (String (lit "cow")), Some (String (lit "moo")));
                 (Some (String (lit "spam")), Some (String (lit "eggs")))]),
               0%Z)
    /\ (found = false ->
        exists h',
          Dictionary_index (Some (String (lit "eggs")))
            [(Some (String (lit "cow")), Some (String (lit "moo")));
             (Some (String (lit "spam")), Some (String (lit "eggs")))] 0%Z
          = Done ((before ++ (Some (String (lit "eggs")), None) :: after,
                   length before), h')).
Proof.
  destruct (C6_index_inserts_has_key_does_not
              [(Some (String (lit "cow")), Some (String (lit "moo")));
               (Some (String (lit "spam")), Some (String (lit "eggs")))]
              (String (lit "eggs")) 0%Z eq_refl eq_refl)
    as (found & before & after & H1 & H2 & _ & _ & H3).
  exists found, before, after. split; [exact H1|]. split; [exact H2|].
  intros Hf. destruct (H3 Hf) as (h' & _ & H4 & _).
  exists h'. exact H4.
Defined.

(** ** Reading from a [ReferencedStringInput] *)

Lemma st_step pre c suf buf h :
  {| source := {| _buffer := pre ++ c :: suf; _position := S (length pre) |};
     buffer := buf; live := h |}
  = st (pre ++ [c]) suf buf h.
Proof.
  unfold st. rewrite <- app_assoc, length_app. simpl.
  rewrite Nat.add_1_r. reflexivity.
Qed.

Lemma in_read_cons pre c suf buf h :
  in_read (st pre (c :: suf) buf h) = Done (c, st (pre ++ [c]) suf buf h).
Proof.
  unfold in_read, st. simpl. unfold ReferencedStringInput_read. simpl.
  rewrite nth_error_middle. simpl. rewrite st_step. reflexivity.
Qed.

Lemma in_read_end pre buf h :
  in_read (st pre [] buf h) = Done (zero, st pre [] buf h).
Proof.
  unfold in_read, st. simpl. unfold ReferencedStringInput_read. simpl.
  replace (nth_error (pre ++ []) (length pre)) with (@None ascii);
    [reflexivity|].
  symmetry. apply nth_error_None. rewrite app_nil_r. lia.
Qed.


(** ** Characters *)

Lemma isdigit_eqb c d :
  isdigit c = true -> isdigit d = false -> Ascii.eqb c d = false.
Proof.
  intros Hc Hd. apply Ascii.eqb_neq. intros ->. congruence.
Qed.

Lemma isdigit_not_space c : isdigit c = true -> isspace c = false.
Proof.
  unfold isdigit, isspace. intros H.
  apply andb_true_iff in H. destruct H as [H1 H2].
  apply N.leb_le in H1. apply N.leb_le in H2.
  apply orb_false_iff. split.
  - apply N.eqb_neq. lia.
  - apply andb_false_iff. right. apply N.leb_gt. lia.
Qed.

Lemma c_str_digits ds : forallb isdigit ds = true -> c_str ds = ds.
Proof.
  induction ds as [|c ds IH]; simpl; intros H; [reflexivity|].
  apply andb_true_iff in H. destruct H as [Hc H].
  rewrite (isdigit_eqb c zero Hc eq_refl), (IH H). reflexivity.
Qed.

(** ** The integer case of [_read] *)

(** The loop of the integer case never leaves an exhausted source. *)
Lemma integer_loop_end fuel :
  forall pre buf h, integer_loop fuel (st pre [] buf h) = OutOfFuel.
Proof.
  induction fuel as [|fuel IH]; intros pre buf h; simpl; [reflexivity|].
  rewrite (bind_Done _ _ _ _ _ (in_read_end pre buf h)). simpl.
  unfold bind, buffer_append. simpl. apply (IH pre (buf ++ [zero]) h).
Qed.

(** It stops after the first [e]. *)
Lemma integer_loop_text text :
  Forall (fun c => Ascii.eqb c "e"%char = false) text ->
  forall fuel pre rest buf h,
    (length text < fuel)%nat ->
    integer_loop fuel (st pre (text ++ "e"%char :: rest) buf h)
    = Done (tt, st (pre ++ text ++ ["e"%char]) rest (buf ++ text) h).
Proof.
  induction 1 as [|c text Hc _ IH]; intros fuel pre rest buf h Hf;
    (destruct fuel as [|fuel]; [simpl in Hf; lia|]); simpl.
  - rewrite (bind_Done _ _ _ _ _ (in_read_cons pre _ rest buf h)). simpl.
    rewrite app_nil_r. reflexivity.
  - rewrite (bind_Done _ _ _ _ _ (in_read_cons pre c _ buf h)), Hc.
    unfold bind, buffer_append. simpl.
    change {| source := {| _buffer := (pre ++ [c]) ++ text ++ "e"%char :: rest;
                           _position := length (pre ++ [c]) |};
              buffer := buf ++ [c]; live := h |}
      with (st (pre ++ [c]) (text ++ "e"%char :: rest) (buf ++ [c]) h).
    rewrite IH by (simpl in Hf; lia).
    rewrite <- !app_assoc. reflexivity.
Qed.

Lemma _read_integer text fuel pre rest buf h :
  Forall (fun c => Ascii.eqb c "e"%char = false) text ->
  (length text < fuel)%nat ->
  _read (S fuel) "i"%char (st pre (text ++ "e"%char :: rest) buf h)
  = Done (Some (Integer (strtoimax text)),
          st (pre ++ text ++ ["e"%char]) rest text (h + 1)%Z).
Proof.
  intros Ht Hf. simpl. unfold bind at 1, buffer_clear. simpl.
  change {| source := {| _buffer := pre ++ text ++ "e"%char :: rest;
                         _position := length pre |};
            buffer := []; live := h |}
    with (st pre (text ++ "e"%char :: rest) [] h).
  rewrite (bind_Done _ _ _ _ _ (integer_loop_text text Ht fuel pre rest [] h Hf)).
  reflexivity.
Qed.

(** Without an [e] left in the source the integer case runs on. *)
Lemma integer_loop_no_terminator text :
  Forall (fun c => Ascii.eqb c "e"%char = false) text ->
  forall fuel pre buf h,
    integer_loop fuel (st pre text buf h) = OutOfFuel.
Proof.
  induction 1 as [|c text Hc _ IH]; intros fuel pre buf h.
  - apply integer_loop_end.
  - destruct fuel as [|fuel]; [reflexivity|]. simpl.
    rewrite (bind_Done _ _ _ _ _ (in_read_cons pre c text buf h)), Hc.
    unfold bind, buffer_append. simpl.
    apply (IH fuel (pre ++ [c]) (buf ++ [c]) h).
Qed.

Lemma _read_integer_no_terminator text fuel pre buf h :
  Forall (fun c => Ascii.eqb c "e"%char = false) text ->
  _read fuel "i"%char (st pre text buf h) = OutOfFuel.
Proof.
  intros Ht. destruct fuel as [|fuel]; [reflexivity|]. simpl.
  unfold bind at 1, buffer_clear. simpl.
  change {| source := {| _buffer := pre ++ text; _position := length pre |};
            buffer := []; live := h |}
    with (st pre text [] h).
  unfold bind at 1.
  rewrite (integer_loop_no_terminator text Ht fuel pre [] h). reflexivity.
Qed.

(** C8. Decoding the two bytes "i3" does not come to a failure: past
    the end of the source [read()] keeps handing out NUL, which is not
    the terminator, so the loop of the integer case runs on whatever
    number of steps it is given, appending to the buffer (in the
    program, until the buffer can grow no more), and [Item::read] does
    not return. *)
Theorem C8_missing_terminator_never_returns (fuel : nat) :
  decode fuel (lit "i3") = OutOfFuel.
Proof.
  unfold decode, Item_read.
  change {| source := {| _buffer := lit "i3"; _position := 0 |};
            buffer := []; live := 0%Z |}
    with (st [] (lit "i3") [] 0%Z).
  unfold lit. simpl list_ascii_of_string.
  rewrite (bind_Done _ _ _ _ _ (in_read_cons [] _ _ [] 0%Z)).
  rewrite _read_integer_no_terminator; [reflexivity|].
  repeat constructor.
Qed.

(** ** Decimal text: [itoa] and [strtoimax] *)

Lemma digit_char_spec d :
  (0 <= d < 10)%Z -> is_digit (digit_char d) /\ digit_of (digit_char d) = d.
Proof.
  intros H.
  assert (Hd : (d = 0 \/ d = 1 \/ d = 2 \/ d = 3 \/ d = 4
                \/ d = 5 \/ d = 6 \/ d = 7 \/ d = 8 \/ d = 9)%Z) by lia.
  repeat (destruct Hd as [Hd|Hd]; [subst d; split; reflexivity|]).
  subst d. split; reflexivity.
Qed.

Lemma forallb_is_digit ds :
  forallb isdigit ds = true <-> Forall is_digit ds.
Proof. rewrite forallb_forall, Forall_forall. reflexivity. Qed.

Lemma digits_value_snoc ds c :
  Forall is_digit ds -> is_digit c ->
  forall acc,
    digits_value (ds ++ [c]) acc
    = (digits_value ds acc * 10 + digit_of c)%Z.
Proof.
  intros Hds Hc. induction Hds as [|d ds Hd _ IH]; intros acc; simpl.
  - rewrite Hc. reflexivity.
  - rewrite Hd. apply IH.
Qed.

Lemma itoa_loop_eq fuel base q buf :
  itoa_loop fuel base q buf
  = if (Z.quot q base =? 0)%Z
    then buf ++ [digit_char (Z.abs (Z.rem q base))]
    else match fuel with
         | O => buf ++ [digit_char (Z.abs (Z.rem q base))]
         | S fuel =>
             itoa_loop fuel base (Z.quot q base)
                       (buf ++ [digit_char (Z.abs (Z.rem q base))])
         end.
Proof. destruct fuel; reflexivity. Qed.

Lemma itoa_loop_abs fuel :
  forall q buf, itoa_loop fuel 10 q buf = itoa_loop fuel 10 (Z.abs q) buf.
Proof.
  assert (Hrem : forall q, Z.abs (Z.rem (Z.abs q) 10) = Z.abs (Z.rem q 10)).
  { intros q. rewrite Z.rem_abs_l by lia. apply Z.abs_idemp. }
  assert (Hquot : forall q, Z.quot (Z.abs q) 10 = Z.abs (Z.quot q 10)).
  { intros q. apply (Z.quot_abs q 10). lia. }
  assert (Hzero : forall q, (Z.abs q =? 0)%Z = (q =? 0)%Z).
  { intros q. destruct (Z.eqb_spec q 0) as [->|Hn]; [reflexivity|].
    apply Z.eqb_neq. lia. }
  induction fuel as [|fuel IH]; intros q buf;
    rewrite (itoa_loop_eq _ 10 q), (itoa_loop_eq _ 10 (Z.abs q));
    rewrite Hrem, Hquot, Hzero.
  - reflexivity.
  - destruct (Z.quot q 10 =? 0)%Z; [reflexivity|]. apply IH.
Qed.

Lemma itoa_loop_app fuel :
  forall q buf, itoa_loop fuel 10 q buf = buf ++ itoa_loop fuel 10 q [].
Proof.
  induction fuel as [|fuel IH]; intros q buf;
    rewrite (itoa_loop_eq _ 10 q buf), (itoa_loop_eq _ 10 q []).
  - destruct (Z.quot q 10 =? 0)%Z; reflexivity.
  - destruct (Z.quot q 10 =? 0)%Z; [reflexivity|].
    rewrite IH, (IH _ ([] ++ _)), app_assoc. reflexivity.
Qed.

(** The loop writes the decimal digits of a non-negative value, the
    last digit first, when its fuel covers the binary length. *)
Lemma itoa_loop_digits fuel :
  forall q,
    (0 <= q < 2 ^ (Z.of_nat fuel + 1))%Z ->
    Forall is_digit (itoa_loop fuel 10 q [])
    /\ digits_value (rev (itoa_loop fuel 10 q [])) 0 = q
    /\ itoa_loop fuel 10 q [] <> [].
Proof.
  assert (Hsmall : forall q, (0 <= q)%Z -> (Z.quot q 10 =? 0)%Z = true ->
                             Z.abs (Z.rem q 10) = q /\ (0 <= q < 10)%Z).
  { intros q Hq E. apply Z.eqb_eq in E.
    apply Z.quot_small_iff in E; [|lia].
    rewrite Z.rem_small by lia. lia. }
  assert (Hone : forall q, (0 <= q < 10)%Z ->
                           Forall is_digit ([] ++ [digit_char q])
                           /\ digits_value (rev ([] ++ [digit_char q])) 0 = q
                           /\ [] ++ [digit_char q] <> []).
  { intros q Hq. destruct (digit_char_spec q Hq) as [Hd Hv].
    split; [repeat constructor; exact Hd|]. split; [|discriminate].
    simpl. rewrite Hd. exact Hv. }
  induction fuel as [|fuel IH]; intros q Hq; rewrite (itoa_loop_eq _ 10 q []).
  - assert (E : (Z.quot q 10 =? 0)%Z = true).
    { apply Z.eqb_eq, Z.quot_small. simpl in Hq. lia. }
    destruct (Hsmall q (proj1 Hq) E) as [-> Hr].
    rewrite E. apply Hone. exact Hr.
  - destruct (Z.quot q 10 =? 0)%Z eqn:E.
    + destruct (Hsmall q (proj1 Hq) E) as [-> Hr].
      apply Hone. exact Hr.
    + rewrite itoa_loop_app.
      assert (Hrem : (0 <= Z.rem q 10 < 10)%Z)
        by (apply Z.rem_bound_pos; lia).
      rewrite (Z.abs_eq (Z.rem q 10)) by lia.
      destruct (digit_char_spec (Z.rem q 10) Hrem) as [Hd Hv].
      assert (Hq' : (0 <= Z.quot q 10 < 2 ^ (Z.of_nat fuel + 1))%Z).
      { split; [apply Z.quot_pos; lia|].
        rewrite Z.quot_div_nonneg by lia.
        apply Z.div_lt_upper_bound; [lia|].
        replace (Z.of_nat (S fuel) + 1)%Z with (Z.succ (Z.of_nat fuel + 1))
          in Hq by lia.
        rewrite Z.pow_succ_r in Hq by lia. lia. }
      destruct (IH (Z.quot q 10) Hq') as (H1 & H2 & H3).
      simpl app.
      split; [constructor; assumption|]. split; [|discriminate].
      simpl rev. rewrite digits_value_snoc, H2, Hv;
        [|apply Forall_rev; exact H1|exact Hd].
      pose proof (Z.quot_rem' q 10). lia.
Qed.

(** The fuel [itoa] gives its loop is never used up: from the binary
    length of the value on, more fuel changes nothing. *)
Lemma itoa_loop_fuel base fuel :
  (2 <= base)%Z ->
  forall fuel' q buf,
    (Z.abs q < 2 ^ (Z.of_nat fuel + 1))%Z -> (fuel <= fuel')%nat ->
    itoa_loop fuel base q buf = itoa_loop fuel' base q buf.
Proof.
  intros Hb. induction fuel as [|fuel IH]; intros fuel' q buf Hq Hf;
    rewrite (itoa_loop_eq _ base q buf), (itoa_loop_eq fuel' base q buf);
    destruct (Z.quot q base =? 0)%Z eqn:E; try reflexivity.
  - exfalso. apply Z.eqb_neq in E. apply E.
    apply Z.quot_small_iff; [lia|]. simpl in Hq. lia.
  - destruct fuel' as [|fuel']; [lia|].
    apply IH; [|lia].
    rewrite <- (Z.quot_abs q base) by lia.
    rewrite Z.quot_div_nonneg by lia.
    apply Z.div_lt_upper_bound; [lia|].
    replace (Z.of_nat (S fuel) + 1)%Z with (Z.succ (Z.of_nat fuel + 1))
      in Hq by lia.
    rewrite Z.pow_succ_r in Hq by lia.
    assert (0 < 2 ^ (Z.of_nat fuel + 1))%Z by (apply Z.pow_pos_nonneg; lia).
    rewrite (Z.abs_eq base) by lia. nia.
Qed.

Lemma log2_fuel v :
  (0 <= v)%Z -> (0 <= v < 2 ^ (Z.of_nat (Z.to_nat (Z.log2 v)) + 1))%Z.
Proof.
  intros Hv. rewrite Z2Nat.id by apply Z.log2_nonneg.
  split; [exact Hv|].
  destruct (Z.eq_dec v 0) as [->|Hn]; [reflexivity|].
  apply Z.log2_spec. lia.
Qed.

(** [itoa] of a value that is not negative, in either integer type. *)
Lemma itoa10_nonneg T v :
  (0 <= v)%Z -> (wrap T (v + 1) <? 1)%Z = false ->
  Forall is_digit (itoa10 T v [])
  /\ digits_value (itoa10 T v []) 0 = v
  /\ itoa10 T v [] <> [].
Proof.
  intros Hv Hw. unfold itoa10, itoa. simpl. rewrite Hw.
  rewrite (Z.abs_eq v) by exact Hv.
  destruct (itoa_loop_digits (Z.to_nat (Z.log2 v)) v (log2_fuel v Hv))
    as (H1 & H2 & H3).
  split; [apply Forall_rev; exact H1|]. split; [exact H2|].
  intros E. apply H3. apply (f_equal (@rev ascii)) in E.
  rewrite rev_involutive in E. exact E.
Qed.

(** [itoa] of a negative [intmax_t]: a minus sign and the digits of the
    magnitude. *)
Lemma itoa10_negative v :
  (v < 0)%Z -> (wrap intmax_t (v + 1) <? 1)%Z = true ->
  exists ds,
    itoa10 intmax_t v [] = "-"%char :: ds
    /\ Forall is_digit ds /\ digits_value ds 0 = (- v)%Z.
Proof.
  intros Hv Hw. unfold itoa10, itoa. simpl orb. cbv iota. rewrite Hw.
  rewrite itoa_loop_abs.
  destruct (itoa_loop_digits (Z.to_nat (Z.log2 (Z.abs v))) (Z.abs v)
              (log2_fuel (Z.abs v) (Z.abs_nonneg v))) as (H1 & H2 & _).
  exists (rev (itoa_loop (Z.to_nat (Z.log2 (Z.abs v))) 10 (Z.abs v) [])).
  rewrite rev_app_distr. simpl. split; [reflexivity|].
  split; [apply Forall_rev; exact H1|]. rewrite H2. lia.
Qed.

Lemma wrap_intmax_t v :
  (INTMAX_MIN <= v <= INTMAX_MAX)%Z -> wrap intmax_t v = v.
Proof.
  unfold INTMAX_MIN, INTMAX_MAX. intros H. simpl.
  rewrite Z.mod_small by lia. lia.
Qed.

Lemma wrap_size_t v : (0 <= v < 2 ^ 64)%Z -> wrap size_t v = v.
Proof. intros H. simpl. apply Z.mod_small. exact H. Qed.

Lemma strtoimax_digits ds :
  Forall is_digit ds -> strtoimax ds = saturate (digits_value ds 0).
Proof.
  intros H. unfold strtoimax, saturate.
  rewrite (c_str_digits ds) by (apply forallb_is_digit; exact H).
  destruct H as [|c ds Hc H]; [reflexivity|].
  simpl skip_spaces. rewrite (isdigit_not_space c Hc).
  rewrite (isdigit_eqb c "-"%char Hc eq_refl).
  rewrite (isdigit_eqb c "+"%char Hc eq_refl). reflexivity.
Qed.

Lemma strtoimax_minus ds :
  Forall is_digit ds ->
  strtoimax ("-"%char :: ds) = saturate (- digits_value ds 0).
Proof.
  intros H. unfold strtoimax, saturate.
  change (c_str ("-"%char :: ds)) with ("-"%char :: c_str ds).
  rewrite (c_str_digits ds) by (apply forallb_is_digit; exact H).
  reflexivity.
Qed.

Lemma saturate_in_range v :
  (INTMAX_MIN <= v <= INTMAX_MAX)%Z -> saturate v = v.
Proof.
  intros H. unfold saturate.
  destruct (Z.ltb_spec INTMAX_MAX v); [lia|].
  destruct (Z.ltb_spec v INTMAX_MIN); [lia|reflexivity].
Qed.

(** The text [Integer::write] prints is read back by [strtoimax], and
    holds no [e]. *)
Lemma strtoimax_itoa v :
  (INTMAX_MIN <= v < INTMAX_MAX)%Z ->
  strtoimax (itoa10 intmax_t v []) = v
  /\ Forall (fun c => Ascii.eqb c "e"%char = false) (itoa10 intmax_t v [])
  /\ itoa10 intmax_t v [] <> [].
Proof.
  intros Hv.
  assert (Hw : wrap intmax_t (v + 1) = (v + 1)%Z)
    by (apply wrap_intmax_t; lia).
  assert (He : forall ds, Forall is_digit ds ->
                          Forall (fun c => Ascii.eqb c "e"%char = false) ds).
  { intros ds Hds. eapply Forall_impl; [|exact Hds].
    intros c Hc. apply (isdigit_eqb c "e"%char Hc eq_refl). }
  destruct (Z.ltb_spec (v + 1) 1) as [Hneg|Hpos].
  - destruct (itoa10_negative v) as (ds & E & Hds & Hval);
      [lia|rewrite Hw; apply Z.ltb_lt; exact Hneg|].
    rewrite E, (strtoimax_minus ds Hds), Hval, saturate_in_range by lia.
    split; [lia|]. split; [|discriminate].
    constructor; [reflexivity|apply He; exact Hds].
  - destruct (itoa10_nonneg intmax_t v) as (Hds & Hval & Hne);
      [lia|rewrite Hw; apply Z.ltb_ge; exact Hpos|].
    rewrite (strtoimax_digits _ Hds), Hval, saturate_in_range by lia.
    split; [reflexivity|]. split; [apply He; exact Hds|exact Hne].
Qed.

(** ** Decoding a buffer *)

Lemma decode_cons fuel c w :
  decode fuel (c :: w)
  = match _read fuel c (st [c] w [] 0%Z) with
    | Done (result, s) => Done (result, live s)
    | Undefined => Undefined
    | OutOfFuel => OutOfFuel
    end.
Proof.
  unfold decode, Item_read.
  change {| source := {| _buffer := c :: w; _position := 0 |};
            buffer := []; live := 0%Z |}
    with (st [] (c :: w) [] 0%Z).
  rewrite (bind_Done _ _ _ _ _ (in_read_cons [] c w [] 0%Z)).
  change ([] ++ [c]) with [c].
  destruct (_read fuel c (st [c] w [] 0%Z)) as [[result s]| |];
    reflexivity.
Qed.

Lemma decode_integer text fuel :
  Forall (fun c => Ascii.eqb c "e"%char = false) text ->
  (length text + 1 < fuel)%nat ->
  decode fuel ("i"%char :: text ++ ["e"%char])
  = Done (Some (Integer (strtoimax text)), 1%Z).
Proof.
  intros Ht Hf. destruct fuel as [|fuel]; [lia|].
  rewrite decode_cons, (_read_integer text fuel ["i"%char] [] [] 0%Z Ht);
    [reflexivity|lia].
Qed.

Lemma digits_no_e ds :
  Forall is_digit ds -> Forall (fun c => Ascii.eqb c "e"%char = false) ds.
Proof.
  intros H. eapply Forall_impl; [|exact H].
  intros c Hc. apply (isdigit_eqb c "e"%char Hc eq_refl).
Qed.

(** C10. An integer literal whose decimal text is beyond the range of
    [intmax_t] decodes to an [Integer] holding the bound on its side:
    [INTMAX_MAX] for digits worth more than that, [INTMAX_MIN] for a
    minus sign and digits worth more than its magnitude. The result is
    a function of the input. *)
Theorem C10_out_of_range_integer_saturates (digits : bytes) (fuel : nat) :
  forallb isdigit digits = true ->
  (length digits + 2 < fuel)%nat ->
  ((INTMAX_MAX < digits_value digits 0)%Z ->
   decode fuel ("i"%char :: digits ++ ["e"%char])
   = Done (Some (Integer INTMAX_MAX), 1%Z))
  /\ ((- digits_value digits 0 < INTMAX_MIN)%Z ->
      decode fuel ("i"%char :: ("-"%char :: digits) ++ ["e"%char])
      = Done (Some (Integer INTMAX_MIN), 1%Z)).
Proof.
  intros Hd Hf. apply forallb_is_digit in Hd. split; intros Hv.
  - rewrite decode_integer by (try apply digits_no_e; auto; lia).
    rewrite (strtoimax_digits digits Hd). unfold saturate.
    destruct (Z.ltb_spec INTMAX_MAX (digits_value digits 0));
      [reflexivity|lia].
  - rewrite decode_integer;
      [|constructor; [reflexivity|apply digits_no_e; exact Hd]|simpl; lia].
    rewrite (strtoimax_minus digits Hd). unfold saturate.
    destruct (Z.ltb_spec INTMAX_MAX (- digits_value digits 0));
      [unfold INTMAX_MAX, INTMAX_MIN in *; lia|].
    destruct (Z.ltb_spec (- digits_value digits 0) INTMAX_MIN);
      [reflexivity|lia].
Qed.

Lemma C10_out_of_range_integer_saturates_witness :
  decode 30 (lit "i9223372036854775809e")
  = Done (Some (Integer INTMAX_MAX), 1%Z)
  /\ decode 30 (lit "i-9223372036854775809e")
     = Done (Some (Integer INTMAX_MIN), 1%Z).
Proof.
  destruct (C10_out_of_range_integer_saturates
              (lit "9223372036854775809") 30 eq_refl) as [H1 H2].
  - simpl. lia.
  - split; [apply H1|apply H2]; vm_compute; reflexivity.
Defined.

(** ** The wire form of a tree *)









(** ** The string case of [_read] *)

Lemma is_digit_eqb c d : is_digit c -> isdigit d = false -> Ascii.eqb c d = false.
Proof. apply isdigit_eqb. Qed.

Lemma length_loop_digits ds :
  Forall is_digit ds ->
  forall fuel c pre rest buf h,
    is_digit c -> (length ds < fuel)%nat ->
    length_loop fuel c (st pre (ds ++ ":"%char :: rest) buf h)
    = Done (true, st (pre ++ ds ++ [":"%char]) rest (buf ++ c :: ds) h).
Proof.
  induction 1 as [|d ds Hd _ IH]; intros fuel c pre rest buf h Hc Hf;
    (destruct fuel as [|fuel]; [simpl in Hf; lia|]); simpl; rewrite Hc; simpl;
    unfold bind at 1, buffer_append; simpl.
  - change {| source := {| _buffer := pre ++ ":"%char :: rest;
                           _position := length pre |};
              buffer := buf ++ [c]; live := h |}
      with (st pre (":"%char :: rest) (buf ++ [c]) h).
    rewrite (bind_Done _ _ _ _ _ (in_read_cons pre _ rest _ h)). reflexivity.
  - change {| source := {| _buffer := pre ++ d :: ds ++ ":"%char :: rest;
                           _position := length pre |};
              buffer := buf ++ [c]; live := h |}
      with (st pre (d :: ds ++ ":"%char :: rest) (buf ++ [c]) h).
    rewrite (bind_Done _ _ _ _ _ (in_read_cons pre d _ _ h)).
    rewrite (is_digit_eqb d ":"%char Hd eq_refl).
    rewrite IH by (auto; simpl in Hf; lia).
    rewrite <- !app_assoc. reflexivity.
Qed.


(** ** What [dictionary[key] = value] leaves *)

Lemma assign_pair_split k v before after :
  Forall (key_above k) before ->
  assign_pair k v (before ++ after) = before ++ assign_pair k v after.
Proof.
  induction 1 as [|[first old] before Hk _ IH]; simpl; [reflexivity|].
  unfold key_above in Hk. simpl in Hk.
  destruct first as [f|]; [|contradiction].
  rewrite Hk, IH. reflexivity.
Qed.

Lemma found_at_compare k f old rest :
  found_at k ((Some f, old) :: rest) = true <-> compare k f = Eq.
Proof.
  simpl. rewrite (compare_opp k f).
  destruct (compare k f); simpl; split; congruence.
Qed.

Lemma Dictionary_assign_with_pair cl k v items h :
  Forall key_present items ->
  (forall h, exists h', cl k h = Done (Some k, h')) ->
  exists h',
    Dictionary_assign_with cl (Some k) v items h
    = Done (assign_pair k v items, h').
Proof.
  intros Hp Hc.
  destruct (keys_split k items Hp) as (before & after & -> & Hb & Ha).
  rewrite (assign_pair_split k v before after Hb).
  unfold Dictionary_assign_with.
  destruct (found_at k after) eqn:Hf.
  - destruct after as [|[[f|] old] after]; try discriminate.
    apply found_at_compare in Hf.
    destruct (Assignment_assign_done v old h) as [h' Ea].
    exists h'.
    rewrite (bind_Done _ _ _ _ _
               (Dictionary_index_with_found cl k before _ h Hb Ha
                  (proj2 (found_at_compare k f old after) Hf))).
    simpl. rewrite nth_error_middle, (bind_Done _ _ _ _ _ Ea), Hf.
    unfold ret. rewrite set_second_middle. reflexivity.
  - destruct (Hc h) as [h1 Hh].
    destruct (Assignment_assign_done v None h1) as [h' Ea].
    exists h'.
    rewrite (bind_Done _ _ _ _ _
               (Dictionary_index_with_absent cl k before after h h1
                  Hb Ha Hf Hh)).
    simpl. rewrite nth_error_middle, (bind_Done _ _ _ _ _ Ea).
    unfold ret. rewrite set_second_middle.
    destruct after as [|[[f|] old] after]; simpl in *;
      [reflexivity| |contradiction].
    rewrite (compare_opp k f) in Hf.
    destruct (compare k f); simpl in *; congruence.
Qed.

Lemma assign_pair_sorted k v items :
  Sorted_keys items -> Sorted_keys (assign_pair k v items).
Proof.
  intros Hs.
  destruct (keys_split k items (proj2 Hs)) as (before & after & -> & Hb & Ha).
  rewrite (assign_pair_split k v before after Hb).
  destruct (found_at k after) eqn:Hf.
  - destruct after as [|[[f|] old] after]; try discriminate.
    apply found_at_compare in Hf. simpl. rewrite Hf.
    eapply Sorted_keys_set_second. exact Hs.
  - pose proof (Sorted_keys_insert k before after Hs Hb Ha Hf) as Hi.
    destruct after as [|[[f|] old] after]; simpl in *;
      [eapply Sorted_keys_set_second; exact Hi| |contradiction].
    rewrite (compare_opp k f) in Hf.
    destruct (compare k f) eqn:E; simpl in *; try congruence.
    eapply Sorted_keys_set_second. exact Hi.
Qed.


Lemma assign_pair_present k v items :
  Forall key_present items -> Forall key_present (assign_pair k v items).
Proof.
  assert (Hk : forall w, key_present (Some k, w)) by (intros w; discriminate).
  induction 1 as [|[first old] items He Hitems IH]; simpl.
  - constructor; [apply Hk|constructor].
  - destruct first as [f|]; [|constructor; assumption].
    destruct (compare k f).
    + constructor; [discriminate|exact Hitems].
    + constructor; [apply Hk|]. constructor; assumption.
    + constructor; assumption.
Qed.

Lemma assign_pair_valid k v items :
  valid_pair (Some k, v) ->
  Forall valid_pair items -> Forall valid_pair (assign_pair k v items).
Proof.
  intros Hkv. induction 1 as [|[first old] items He Hitems IH]; simpl.
  - repeat constructor; apply Hkv.
  - destruct first as [f|]; [|constructor; assumption].
    destruct (compare k f).
    + constructor; [|exact Hitems]. split; [apply He|apply Hkv].
    + constructor; [exact Hkv|]. constructor; assumption.
    + constructor; assumption.
Qed.

Lemma valid_Dictionary_intro items :
  Forall valid_pair items -> keys_sorted items = true ->
  valid (Dictionary items) = true.
Proof.
  intros Hv Hs. simpl. rewrite Hs, andb_true_r.
  apply forallb_forall. intros e Hin.
  rewrite Forall_forall in Hv. destruct (Hv e Hin) as [Hk Hw].
  destruct (fst e), (snd e); try contradiction;
    rewrite ?Hk, ?Hw; reflexivity.
Qed.

(** ** The tree a serialization decodes to *)














(** ** Trees that are their own normal form *)





(** ** A dictionary with distinct keys keeps its pairs *)





(** ** More steps do not change what a decode returns *)

Lemma refines_refl {A : Type} (o : Outcome A) : refines o o.
Proof. right. reflexivity. Qed.

Lemma bind_refines {S A B : Type} (c c' : M S A) (k k' : A -> M S B) s :
  refines (c s) (c' s) ->
  (forall a s', refines (k a s') (k' a s')) ->
  refines (bind c k s) (bind c' k' s).
Proof.
  unfold bind. intros [H|H] Hk; rewrite H.
  - left. reflexivity.
  - destruct (c' s) as [[a s']| |]; [apply Hk|right; reflexivity..].
Qed.

Section FuelMonotone.
Context {I : Type} {input : Input I}.

Lemma integer_loop_mono n :
  forall n' (s : ParseState I),
    (n <= n')%nat -> refines (integer_loop n s) (integer_loop n' s).
Proof.
  induction n as [|n IH]; intros n' s Hn; [left; reflexivity|].
  destruct n' as [|n']; [lia|]. simpl.
  apply bind_refines; [apply refines_refl|]. intros byte s1.
  destruct (Ascii.eqb byte "e"%char); [apply refines_refl|].
  apply bind_refines; [apply refines_refl|]. intros _ s2.
  apply IH. lia.
Qed.

Lemma length_loop_mono n :
  forall n' byte (s : ParseState I),
    (n <= n')%nat -> refines (length_loop n byte s) (length_loop n' byte s).
Proof.
  induction n as [|n IH]; intros n' byte s Hn; [left; reflexivity|].
  destruct n' as [|n']; [lia|]. simpl.
  destruct (negb (isdigit byte)); [apply refines_refl|].
  apply bind_refines; [apply refines_refl|]. intros _ s1.
  apply bind_refines; [apply refines_refl|]. intros byte1 s2.
  destruct (Ascii.eqb byte1 ":"%char); [apply refines_refl|].
  apply IH. lia.
Qed.

Section LoopsMonotone.
Variables rec rec' : ascii -> M (ParseState I) Ptr.
Hypothesis rec_refines : forall byte s, refines (rec byte s) (rec' byte s).

Lemma list_loop_mono n :
  forall n' result s,
    (n <= n')%nat ->
    refines (list_loop rec n result s) (list_loop rec' n' result s).
Proof.
  induction n as [|n IH]; intros n' result s Hn; [left; reflexivity|].
  destruct n' as [|n']; [lia|]. simpl.
  apply bind_refines; [apply refines_refl|]. intros byte s1.
  destruct (Ascii.eqb byte "e"%char); [apply refines_refl|].
  apply bind_refines; [apply rec_refines|]. intros item s2.
  destruct item as [i|]; [|apply refines_refl].
  apply bind_refines; [apply refines_refl|]. intros result1 s3.
  apply IH. lia.
Qed.

Lemma dictionary_loop_mono n :
  forall n' result s,
    (n <= n')%nat ->
    refines (dictionary_loop rec n result s)
            (dictionary_loop rec' n' result s).
Proof.
  induction n as [|n IH]; intros n' result s Hn; [left; reflexivity|].
  destruct n' as [|n']; [lia|]. simpl.
  apply bind_refines; [apply refines_refl|]. intros byte s1.
  destruct (Ascii.eqb byte "e"%char); [apply refines_refl|].
  apply bind_refines; [apply rec_refines|]. intros key s2.
  apply bind_refines; [apply refines_refl|]. intros byte1 s3.
  apply bind_refines; [apply rec_refines|]. intros value s4.
  destruct key as [k|], value as [v|]; try apply refines_refl.
  apply bind_refines; [apply refines_refl|]. intros result1 s5.
  apply IH. lia.
Qed.
End LoopsMonotone.

Lemma _read_mono fuel :
  forall fuel' type (s : ParseState I),
    (fuel <= fuel')%nat -> refines (_read fuel type s) (_read fuel' type s).
Proof.
  induction fuel as [|fuel IH]; intros fuel' type s Hf; [left; reflexivity|].
  destruct fuel' as [|fuel']; [lia|]. simpl.
  assert (Hrec : forall byte s0,
             refines (_read fuel byte s0) (_read fuel' byte s0))
    by (intros; apply IH; lia).
  destruct (Ascii.eqb type "i"%char).
  { apply bind_refines; [apply refines_refl|]. intros _ s1.
    apply bind_refines; [apply integer_loop_mono; lia|]. intros _ s2.
    apply refines_refl. }
  destruct (isdigit type).
  { apply bind_refines; [apply refines_refl|]. intros _ s1.
    apply bind_refines; [apply length_loop_mono; lia|]. intros ok s2.
    apply refines_refl. }
  destruct (Ascii.eqb type "l"%char).
  { apply bind_refines; [apply refines_refl|]. intros _ s1.
    apply list_loop_mono; [exact Hrec|lia]. }
  destruct (Ascii.eqb type "d"%char).
  { apply bind_refines; [apply refines_refl|]. intros _ s1.
    apply dictionary_loop_mono; [exact Hrec|lia]. }
  apply refines_refl.
Qed.
End FuelMonotone.

(** A decode that returns with some fuel returns the same with more. *)
Lemma decode_mono fuel fuel' w result :
  decode fuel w = Done result -> (fuel <= fuel')%nat ->
  decode fuel' w = Done result.
Proof.
  unfold decode, Item_read. intros H Hf.
  set (s := {| source := {| _buffer := w; _position := 0 |};
               buffer := []; live := 0%Z |}) in *.
  assert (Hr : refines ((type <- in_read ;; _read fuel type) s)
                       ((type <- in_read ;; _read fuel' type) s)).
  { apply bind_refines; [apply refines_refl|].
    intros type s'. apply _read_mono. exact Hf. }
  destruct Hr as [Hr|Hr]; rewrite Hr in H; [discriminate|exact H].
Qed.

(** ** The scenarios of the specification *)

Example decode_spam :
  decode 10 (lit "4:spam") = Done (Some (String (lit "spam")), 1%Z).
Proof. vm_compute. reflexivity. Qed.

Example decode_three :
  decode 10 (lit "i3e") = Done (Some (Integer 3), 1%Z)
  /\ decode 10 (lit "i-3e") = Done (Some (Integer (-3)), 1%Z).
Proof. split; vm_compute; reflexivity. Qed.

Example decode_list :
  decode 20 (lit "l4:spam4:eggse")
  = Done (Some (List [Some (String (lit "spam"));
                      Some (String (lit "eggs"))]), 3%Z).
Proof. vm_compute. reflexivity. Qed.

(** The two keys parsed stay allocated next to the five nodes of the
    dictionary. *)
Example decode_sorted_dictionary :
  decode 30 (lit "d3:cow3:moo4:spam4:eggse")
  = Done (Some (Dictionary
                  [(Some (String (lit "cow")), Some (String (lit "moo")));
                   (Some (String (lit "spam")), Some (String (lit "eggs")))]),
          7%Z).
Proof. vm_compute. reflexivity. Qed.

(** The other cases do fail on a source that ends too early: a length
    without its colon, a list and a list element without terminator. *)
Example decode_exhausted_source :
  decode 10 (lit "3") = Done (None, 0%Z)
  /\ decode 10 (lit "l") = Done (None, 0%Z)
  /\ decode 10 (lit "l4:spam") = Done (None, 0%Z).
Proof. repeat split; vm_compute; reflexivity. Qed.

(** ** Round trips and failed decodes *)

(** Where the sign test of [itoa] overflows: [INTMAX_MAX] is printed
    with a minus sign (two's complement wrap-around of [value + 1]). *)
Lemma encode_INTMAX_MAX :
  encode (Integer INTMAX_MAX) = lit "i-9223372036854775807e".
Proof. vm_compute. reflexivity. Qed.







(** After a key that failed to parse the value is parsed all the same:
    on "dxi" that is an integer without terminator, and the call never
    returns. *)
Lemma decode_failed_key_then_integer (fuel : nat) :
  decode fuel (lit "dxi") = OutOfFuel.
Proof.
  unfold lit. simpl list_ascii_of_string. rewrite decode_cons.
  destruct fuel as [|fuel]; [reflexivity|]. simpl.
  unfold bind at 1, heap, new_. simpl.
  destruct fuel as [|fuel]; [reflexivity|].
  assert (Hx : forall s : ParseState ReferencedStringInput,
             _read (S fuel) "x"%char s = Done (None, s)) by reflexivity.
  remember (_read (S fuel)) as rec eqn:Hrec. simpl.
  change {| source := {| _buffer := ["d"; "x"; "i"]%char; _position := 1 |};
            buffer := []; live := 1%Z |}
    with (st ["d"%char] ["x"; "i"]%char [] 1%Z).
  rewrite (bind_Done _ _ _ _ _ (in_read_cons _ _ _ [] 1%Z)). simpl.
  rewrite (bind_Done _ _ _ _ _ (Hx _)).
  rewrite (bind_Done _ _ _ _ _ (in_read_cons _ _ _ [] 1%Z)).
  unfold bind at 1. subst rec.
  rewrite (_read_integer_no_terminator [] (S fuel) _ [] 1%Z); [reflexivity|].
  constructor.
Qed.

(** Failures that do release what they had built: a list whose second
    element has a bad tag, and a dictionary whose first key has one. *)
Lemma decode_failed_list_releases (fuel : nat) :
  decode (10 + fuel) (lit "l4:spamxe") = Done (None, 0%Z).
Proof. apply (decode_mono 10); [vm_compute; reflexivity|lia]. Qed.

Lemma decode_failed_first_key_releases (fuel : nat) :
  decode (10 + fuel) (lit "dx") = Done (None, 0%Z).
Proof. apply (decode_mono 10); [vm_compute; reflexivity|lia]. Qed.

(** C7. A decode that fails inside a dictionary which already holds a
    pair returns no node but leaves an object behind: on "d1:a1:bx",
    whatever the number of steps from ten on, the free store, empty
    before the call, holds one live [Item] after it (the [String]
    parsed for the key, of which [operator[]] stored a clone). *)
Theorem C7_failed_decode_leaves_key_allocated (fuel : nat) :
  decode (10 + fuel) (lit "d1:a1:bx") = Done (None, 1%Z).
Proof.
  apply (decode_mono 10); [vm_compute; reflexivity|lia].
Qed.




(* ================================================================= *)
(** * Further properties *)

(** ** The six relational operators *)

Lemma Item_lt_irrefl a : Item_lt a a = false.
Proof. unfold Item_lt. rewrite compare_refl. reflexivity. Qed.

Lemma Item_lt_trans a b c :
  Item_lt a b = true -> Item_lt b c = true -> Item_lt a c = true.
Proof.
  unfold Item_lt. intros Hab Hbc.
  rewrite (compare_lt_trans a b c); [reflexivity| |].
  - destruct (compare a b); congruence.
  - destruct (compare b c); congruence.
Qed.

Lemma Item_eq_trans a b c :
  Item_eq a b = true -> Item_eq b c = true -> Item_eq a c = true.
Proof.
  unfold Item_eq. intros Hab Hbc.
  rewrite (compare_eq_l a b c); [exact Hbc|].
  destruct (compare a b); congruence.
Qed.

(** X1. [operator<] of [Item] is a strict weak ordering and the five
    other relational operators are the ones it defines: [a > b] is
    [b < a], [a <= b] is [!(b < a)], [a >= b] is [!(a < b)], [a == b]
    holds when neither is below the other and is transitive, and
    [a != b] is its negation. *)
Theorem relational_operators_strict_weak_order (a b c : Item) :
  Item_lt a a = false
  /\ (Item_lt a b = true -> Item_lt b c = true -> Item_lt a c = true)
  /\ Item_gt a b = Item_lt b a
  /\ Item_le a b = negb (Item_lt b a)
  /\ Item_ge a b = negb (Item_lt a b)
  /\ Item_eq a b = negb (Item_lt a b) && negb (Item_lt b a)
  /\ Item_ne a b = negb (Item_eq a b)
  /\ (Item_eq a b = true -> Item_eq b c = true -> Item_eq a c = true).
Proof.
  split; [apply Item_lt_irrefl|].
  split; [apply Item_lt_trans|].
  unfold Item_gt, Item_lt, Item_le, Item_ge, Item_eq, Item_ne.
  rewrite (compare_opp a b).
  repeat split; try (destruct (compare a b); reflexivity).
  apply Item_eq_trans.
Qed.

(** ** The flattened text of a [List] *)

Lemma componentCount_uint32 x : (componentCount x < 2 ^ 32)%N.
Proof.
  assert (Hw : forall n, (wrap32 n < 2 ^ 32)%N).
  { intros n. apply N.mod_lt. discriminate. }
  destruct x as [value|value|items|items]; simpl; try reflexivity.
  - assert (H : forall c, (c < 2 ^ 32)%N ->
                          (List_componentCount_loop componentCount items c
                           < 2 ^ 32)%N).
    { induction items as [|item rest IH]; simpl; intros c Hc; [exact Hc|].
      apply IH. destruct item; apply Hw. }
    apply H. reflexivity.
  - assert (H : forall c, (c < 2 ^ 32)%N ->
                          (Dictionary_componentCount_loop componentCount items c
                           < 2 ^ 32)%N).
    { induction items as [|[first second] rest IH]; simpl; intros c Hc;
        [exact Hc|].
      apply IH. destruct second; [apply Hw|].
      destruct first; [apply Hw|exact Hc]. }
    apply H. reflexivity.
Qed.

Lemma wrap32_small n : (n < 2 ^ 32)%N -> wrap32 n = n.
Proof. apply N.mod_small. Qed.

Lemma List_componentCount_loop_sum items :
  forall c,
    (c + List_components items < 2 ^ 32)%N ->
    List_componentCount_loop componentCount items c
    = (c + List_components items)%N.
Proof.
  induction items as [|item rest IH]; simpl; intros c Hc; [lia|].
  rewrite IH.
  - destruct item; rewrite wrap32_small; lia.
  - destruct item; rewrite wrap32_small; lia.
Qed.

Lemma componentCount_List items :
  (List_components items < 2 ^ 32)%N ->
  componentCount (List items) = List_components items.
Proof.
  intros H. simpl. rewrite List_componentCount_loop_sum; [reflexivity|].
  exact H.
Qed.

Lemma flatten_length x : length (flatten x) = N.to_nat (componentCount x).
Proof. unfold flatten. rewrite length_map, length_seq. reflexivity. Qed.

Lemma seq_add n len :
  forall start, seq (start + n) len = map (fun j => (n + j)%nat) (seq start len).
Proof.
  induction len as [|len IH]; intros start; simpl; [reflexivity|].
  f_equal; [lia|]. apply (IH (S start)).
Qed.

Lemma flatten_List_cons item rest :
  (List_components (item :: rest) < 2 ^ 32)%N ->
  flatten (List (item :: rest)) = flatten_ptr item ++ flatten (List rest).
Proof.
  intros H.
  assert (Hrest : (List_components rest < 2 ^ 32)%N) by (simpl in H; lia).
  set (n := match item with Some i => componentCount i | None => 1%N end).
  assert (Hn : List_components (item :: rest) = (n + List_components rest)%N)
    by reflexivity.
  assert (Hitem : flatten_ptr item
                  = map (fun j => component_at (List (item :: rest)) (N.of_nat j))
                        (seq 0 (N.to_nat n))).
  { destruct item as [i|]; [|reflexivity].
    simpl. unfold flatten. apply map_ext_in. intros j Hj. apply in_seq in Hj.
    unfold component_at. simpl.
    replace (componentCount i <=? N.of_nat j)%N with false; [reflexivity|].
    symmetry. apply N.leb_gt. subst n. lia. }
  rewrite Hitem. unfold flatten.
  rewrite (componentCount_List _ H), (componentCount_List _ Hrest).
  rewrite Hn, N2Nat.inj_add, seq_app, map_app. f_equal.
  rewrite seq_add, map_map. apply map_ext_in. intros j Hj.
  unfold component_at. simpl. fold n.
  replace (n <=? N.of_nat (N.to_nat n + j))%N with true
    by (symmetry; apply N.leb_le; lia).
  replace (N.of_nat (N.to_nat n + j) - n)%N with (N.of_nat j) by lia.
  reflexivity.
Qed.

Lemma flatten_List items :
  (List_components items < 2 ^ 32)%N ->
  flatten (List items) = concat (map flatten_ptr items).
Proof.
  induction items as [|item rest IH]; intros H; [reflexivity|].
  rewrite flatten_List_cons by exact H. simpl. f_equal.
  apply IH. simpl in H. lia.
Qed.

(** X2. [Item::compare] sees a [List] as its items' components laid end
    to end, a [NULL] slot being one empty component: as long as the
    number of components fits [uint32_t], the flattened text of a list
    is the concatenation of the flattened texts of its slots, and the
    list compares with any node as that sequence does. *)
Theorem List_compares_as_its_items (items : list Ptr) (other : Item) :
  (List_components items < 2 ^ 32)%N ->
  flatten (List items) = concat (map flatten_ptr items)
  /\ compare (List items) other
     = lex string_compare (concat (map flatten_ptr items)) (flatten other)
  /\ compare other (List items)
     = lex string_compare (flatten other) (concat (map flatten_ptr items)).
Proof.
  intros H. rewrite !compare_is_lex, (flatten_List items H). auto.
Qed.

Lemma List_compares_as_its_items_witness :
  flatten (List [Some (Integer 7); None; Some (List [Some (String (lit "a"))])])
  = concat (map flatten_ptr
                [Some (Integer 7); None; Some (List [Some (String (lit "a"))])])
  /\ compare (List [Some (Integer 7); None;
                    Some (List [Some (String (lit "a"))])])
             (String (lit "7"))
     = lex string_compare
           (concat (map flatten_ptr
                        [Some (Integer 7); None;
                         Some (List [Some (String (lit "a"))])]))
           (flatten (String (lit "7")))
  /\ compare (String (lit "7"))
             (List [Some (Integer 7); None;
                    Some (List [Some (String (lit "a"))])])
     = lex string_compare
           (flatten (String (lit "7")))
           (concat (map flatten_ptr
                        [Some (Integer 7); None;
                         Some (List [Some (String (lit "a"))])])).
Proof.
  apply (List_compares_as_its_items
           [Some (Integer 7); None; Some (List [Some (String (lit "a"))])]
           (String (lit "7"))).
  vm_compute. reflexivity.
Defined.

Lemma flatten_singleton x : flatten (List [Some x]) = flatten x.
Proof.
  rewrite flatten_List.
  - simpl. apply app_nil_r.
  - simpl. pose proof (componentCount_uint32 x). lia.
Qed.

(** X3. The comparator cannot tell a node from a [List] that holds only
    that node, nor an [Integer] from the [String] of its decimal text:
    wrapping either operand of [compare] in a one-item list leaves the
    result as it was, so [operator==] answers true for the node and its
    wrapping, and for [Integer(v)] and [String(itoa(v))]. *)
Theorem compare_ignores_wrapping (x y : Item) (v : Z) :
  compare (List [Some x]) y = compare x y
  /\ compare y (List [Some x]) = compare y x
  /\ Item_eq (List [Some x]) x = true
  /\ Item_eq (Integer v) (String (itoa10 intmax_t v [])) = true.
Proof.
  rewrite !compare_is_lex, flatten_singleton.
  repeat split.
  - unfold Item_eq. rewrite compare_is_lex, flatten_singleton.
    rewrite lex_refl; [reflexivity|apply string_compare_refl].
  - unfold Item_eq. rewrite compare_is_lex.
    change (flatten (Integer v)) with [itoa10 intmax_t v []].
    change (flatten (String (itoa10 intmax_t v []))) with [itoa10 intmax_t v []].
    rewrite lex_refl; [reflexivity|apply string_compare_refl].
Qed.

(** ** [itoa] in every base *)

Lemma radix_digit_char d :
  (0 <= d < 16)%Z -> radix_digit (digit_char d) = d.
Proof.
  intros H.
  assert (Hd : (d = 0 \/ d = 1 \/ d = 2 \/ d = 3 \/ d = 4 \/ d = 5
                \/ d = 6 \/ d = 7 \/ d = 8 \/ d = 9 \/ d = 10 \/ d = 11
                \/ d = 12 \/ d = 13 \/ d = 14 \/ d = 15)%Z) by lia.
  repeat (destruct Hd as [Hd|Hd]; [subst d; reflexivity|]).
  subst d. reflexivity.
Qed.

Lemma radix_value_snoc base ds c :
  forall acc,
    radix_value base (ds ++ [c]) acc
    = (radix_value base ds acc * base + radix_digit c)%Z.
Proof.
  induction ds as [|d ds IH]; intros acc; simpl; [reflexivity|apply IH].
Qed.

Lemma itoa_loop_append base fuel :
  forall q buf, itoa_loop fuel base q buf = buf ++ itoa_loop fuel base q [].
Proof.
  induction fuel as [|fuel IH]; intros q buf;
    rewrite (itoa_loop_eq _ base q buf), (itoa_loop_eq _ base q []).
  - destruct (Z.quot q base =? 0)%Z; reflexivity.
  - destruct (Z.quot q base =? 0)%Z; [reflexivity|].
    rewrite IH, (IH _ ([] ++ _)), app_assoc. reflexivity.
Qed.

Lemma itoa_loop_magnitude base fuel :
  (0 < base)%Z ->
  forall q buf, itoa_loop fuel base q buf = itoa_loop fuel base (Z.abs q) buf.
Proof.
  intros Hb.
  assert (Hrem : forall q,
             Z.abs (Z.rem (Z.abs q) base) = Z.abs (Z.rem q base)).
  { intros q. rewrite Z.rem_abs_l by lia. apply Z.abs_idemp. }
  assert (Hquot : forall q, Z.quot (Z.abs q) base = Z.abs (Z.quot q base)).
  { intros q. rewrite <- (Z.abs_eq base) at 1 by lia.
    apply (Z.quot_abs q base). lia. }
  assert (Hzero : forall q, (Z.abs q =? 0)%Z = (q =? 0)%Z).
  { intros q. destruct (Z.eqb_spec q 0) as [->|Hn]; [reflexivity|].
    apply Z.eqb_neq. lia. }
  induction fuel as [|fuel IH]; intros q buf;
    rewrite (itoa_loop_eq _ base q), (itoa_loop_eq _ base (Z.abs q));
    rewrite Hrem, Hquot, Hzero.
  - reflexivity.
  - destruct (Z.quot q base =? 0)%Z; [reflexivity|]. apply IH.
Qed.

(** The loop writes the digits of a non-negative value in the base,
    the last digit first. *)
Lemma itoa_loop_radix base fuel :
  (2 <= base <= 16)%Z ->
  forall q,
    (0 <= q < 2 ^ (Z.of_nat fuel + 1))%Z ->
    Forall (fun c => 0 <= radix_digit c < base)%Z (itoa_loop fuel base q [])
    /\ radix_value base (rev (itoa_loop fuel base q [])) 0 = q
    /\ itoa_loop fuel base q [] <> [].
Proof.
  intros Hb.
  assert (Hsmall : forall q, (0 <= q)%Z -> (Z.quot q base =? 0)%Z = true ->
                             Z.abs (Z.rem q base) = q /\ (0 <= q < base)%Z).
  { intros q Hq E. apply Z.eqb_eq in E.
    apply Z.quot_small_iff in E; [|lia].
    rewrite Z.rem_small by lia. lia. }
  assert (Hone : forall q,
             (0 <= q < base)%Z ->
             Forall (fun c => 0 <= radix_digit c < base)%Z
                    ([] ++ [digit_char q])
             /\ radix_value base (rev ([] ++ [digit_char q])) 0 = q
             /\ [] ++ [digit_char q] <> []).
  { intros q Hq. simpl.
    split; [constructor; [rewrite radix_digit_char; lia|constructor]|].
    rewrite radix_digit_char by lia.
    split; [reflexivity|discriminate]. }
  induction fuel as [|fuel IH]; intros q Hq;
    rewrite (itoa_loop_eq _ base q []).
  - assert (E : (Z.quot q base =? 0)%Z = true).
    { apply Z.eqb_eq, Z.quot_small. simpl in Hq. lia. }
    destruct (Hsmall q (proj1 Hq) E) as [-> Hr].
    rewrite E. apply Hone. exact Hr.
  - destruct (Z.quot q base =? 0)%Z eqn:E.
    + destruct (Hsmall q (proj1 Hq) E) as [-> Hr].
      apply Hone. exact Hr.
    + rewrite itoa_loop_append.
      assert (Hrem : (0 <= Z.rem q base < base)%Z)
        by (apply Z.rem_bound_pos; lia).
      rewrite (Z.abs_eq (Z.rem q base)) by lia.
      assert (Hq' : (0 <= Z.quot q base < 2 ^ (Z.of_nat fuel + 1))%Z).
      { split; [apply Z.quot_pos; lia|].
        rewrite Z.quot_div_nonneg by lia.
        apply Z.div_lt_upper_bound; [lia|].
        replace (Z.of_nat (S fuel) + 1)%Z with (Z.succ (Z.of_nat fuel + 1))
          in Hq by lia.
        rewrite Z.pow_succ_r in Hq by lia. nia. }
      destruct (IH (Z.quot q base) Hq') as (H1 & H2 & H3).
      simpl app.
      split; [constructor; [rewrite radix_digit_char; lia|exact H1]|].
      split; [|discriminate].
      simpl rev. rewrite radix_value_snoc, H2, radix_digit_char by lia.
      pose proof (Z.quot_rem' q base). lia.
Qed.

Lemma itoa_sign_test v :
  (INTMAX_MIN <= v < INTMAX_MAX)%Z ->
  (wrap intmax_t (v + 1) <? 1)%Z = (v <? 0)%Z.
Proof.
  intros Hv. rewrite wrap_intmax_t by (unfold INTMAX_MIN, INTMAX_MAX in *; lia).
  destruct (Z.ltb_spec (v + 1) 1), (Z.ltb_spec v 0); auto; lia.
Qed.

Lemma itoa_in_base v buffer base :
  ((base <? 2) || (16 <? base))%Z = false ->
  itoa intmax_t v buffer base
  = rev (let digits :=
           itoa_loop (Z.to_nat (Z.log2 (Z.abs v))) base v buffer in
         if (wrap intmax_t (v + 1) <? 1)%Z then digits ++ ["-"%char]
         else digits).
Proof. intros E. unfold itoa. rewrite E. reflexivity. Qed.

(** X4. [itoa] writes a value in positional notation in any base from
    2 to 16: for an [intmax_t] value below [INTMAX_MAX] the text is a
    minus sign when the value is negative, followed by at least one
    digit, every digit is below the base, and the digits read in that
    base give the magnitude of the value. *)
Theorem itoa_positional_notation (base v : Z) :
  (2 <= base <= 16)%Z -> (INTMAX_MIN <= v < INTMAX_MAX)%Z ->
  exists digits,
    itoa intmax_t v [] base
    = (if (v <? 0)%Z then ["-"%char] else []) ++ digits
    /\ digits <> []
    /\ Forall (fun c => 0 <= radix_digit c < base)%Z digits
    /\ radix_value base digits 0 = Z.abs v.
Proof.
  intros Hb Hv.
  rewrite itoa_in_base
    by (apply orb_false_iff; split; apply Z.ltb_ge; lia).
  cbv zeta. rewrite itoa_sign_test by exact Hv.
  rewrite itoa_loop_magnitude by lia.
  destruct (itoa_loop_radix base (Z.to_nat (Z.log2 (Z.abs v))) Hb (Z.abs v)
              (log2_fuel (Z.abs v) (Z.abs_nonneg v))) as (H1 & H2 & H3).
  exists (rev (itoa_loop (Z.to_nat (Z.log2 (Z.abs v))) base (Z.abs v) [])).
  split; [|split; [|split]].
  - destruct (v <? 0)%Z; [rewrite rev_app_distr|]; reflexivity.
  - intros E. apply H3. apply (f_equal (@rev ascii)) in E.
    rewrite rev_involutive in E. exact E.
  - apply Forall_rev. exact H1.
  - exact H2.
Qed.

Lemma itoa_positional_notation_witness :
  exists digits,
    itoa intmax_t (-255) [] 16
    = (if (-255 <? 0)%Z then ["-"%char] else []) ++ digits
    /\ digits <> []
    /\ Forall (fun c => 0 <= radix_digit c < 16)%Z digits
    /\ radix_value 16 digits 0 = Z.abs (-255).
Proof.
  apply (itoa_positional_notation 16 (-255)); vm_compute; split; congruence.
Defined.

(** X5. [itoa(value, buffer, base)] appends to [buffer] and then
    reverses the whole of it: with a base from 2 to 16 the result is the
    text of the value followed by the former content of the buffer
    reversed; with any other base the buffer is returned untouched. *)
Theorem itoa_reverses_the_buffer (T : IntegerType) (v base : Z)
        (buffer : bytes) :
  ((2 <= base <= 16)%Z ->
   itoa T v buffer base = itoa T v [] base ++ rev buffer)
  /\ ((base < 2 \/ 16 < base)%Z -> itoa T v buffer base = buffer).
Proof.
  split; intros Hb; unfold itoa.
  - replace ((base <? 2) || (16 <? base))%Z with false
      by (symmetry; apply orb_false_iff; split; apply Z.ltb_ge; lia).
    rewrite itoa_loop_append.
    destruct (wrap T (v + 1) <? 1)%Z;
      rewrite !rev_app_distr; simpl; rewrite ?app_nil_r; reflexivity.
  - replace ((base <? 2) || (16 <? base))%Z with true; [reflexivity|].
    symmetry. apply orb_true_iff.
    destruct Hb; [left|right]; apply Z.ltb_lt; assumption.
Qed.

(** X6. Decimal text round trip: [strtoimax], with which
    [Integer(const std::string &)] reads its argument, gives back every
    [intmax_t] value below [INTMAX_MAX] from the text [itoa] writes for
    it; the text is not empty and holds no ['e'], the byte that ends an
    integer on the wire. *)
Theorem strtoimax_reads_back_itoa (v : Z) :
  (INTMAX_MIN <= v < INTMAX_MAX)%Z ->
  strtoimax (itoa10 intmax_t v []) = v
  /\ itoa10 intmax_t v [] <> []
  /\ ~ In "e"%char (itoa10 intmax_t v []).
Proof.
  intros Hv. destruct (strtoimax_itoa v Hv) as (H1 & H2 & H3).
  split; [exact H1|]. split; [exact H3|].
  intros Hin. rewrite Forall_forall in H2. specialize (H2 _ Hin).
  discriminate.
Qed.

Lemma strtoimax_reads_back_itoa_witness :
  strtoimax (itoa10 intmax_t INTMAX_MIN []) = INTMAX_MIN
  /\ itoa10 intmax_t INTMAX_MIN [] <> []
  /\ ~ In "e"%char (itoa10 intmax_t INTMAX_MIN []).
Proof.
  apply (strtoimax_reads_back_itoa INTMAX_MIN). vm_compute.
  split; congruence.
Defined.

(** ** The slots of a [List] *)

Lemma List_fill_loop_spec fuel :
  forall items index,
    (S (N.to_nat index) - length items <= fuel)%nat ->
    List_fill_loop fuel (N.of_nat (length items)) index items
    = Done (items ++ repeat None (S (N.to_nat index) - length items)).
Proof.
  induction fuel as [|fuel IH]; intros items index Hf; cbn [List_fill_loop].
  - destruct (N.leb_spec (N.of_nat (length items)) index) as [H|H]; [lia|].
    replace (S (N.to_nat index) - length items)%nat with O by lia.
    rewrite app_nil_r. reflexivity.
  - destruct (N.leb_spec (N.of_nat (length items)) index) as [H|H].
    + rewrite List_push_spec.
      replace (N.succ (N.of_nat (length items)))
        with (N.of_nat (length (items ++ [None])))
        by (rewrite length_app; cbn [length]; lia).
      rewrite IH by (rewrite length_app; cbn [length]; lia).
      rewrite length_app. cbn [length].
      replace (S (N.to_nat index) - length items)%nat
        with (S (S (N.to_nat index) - (length items + 1)))%nat by lia.
      simpl. rewrite <- app_assoc. reflexivity.
    + replace (S (N.to_nat index) - length items)%nat with O by lia.
      rewrite app_nil_r. reflexivity.
Qed.

Lemma List_index_spec index items :
  List_index index items
  = Done (items ++ repeat None (S (N.to_nat index) - length items),
          N.to_nat index).
Proof.
  unfold List_index. rewrite List_fill_loop_spec by lia.
  replace (N.to_nat index <? _)%nat with true; [reflexivity|].
  symmetry. apply Nat.ltb_lt. rewrite length_app, repeat_length. lia.
Qed.

(** X7. [List::operator[]] never fails on an index past the end: it
    first pushes [NULL] slots until the index exists. The list after
    [list[index]] is the list before followed by as many [NULL]s as
    were missing, none when the index was in range, and the result
    refers to slot [index]; so reading an absent index gives [NULL] and
    leaves the list [index + 1] slots long. *)
Theorem List_index_grows_with_null (index : N) (items : list Ptr) :
  List_index index items
  = Done (items ++ repeat None (S (N.to_nat index) - length items),
          N.to_nat index)
  /\ ((N.to_nat index < length items)%nat ->
      List_value index items
      = Done (nth (N.to_nat index) items None, items))
  /\ ((length items <= N.to_nat index)%nat ->
      exists items',
        List_value index items = Done (None, items')
        /\ length items' = S (N.to_nat index)
        /\ firstn (length items) items' = items).
Proof.
  split; [apply List_index_spec|]. unfold List_value.
  rewrite List_index_spec. split; intros H.
  - replace (S (N.to_nat index) - length items)%nat with O by lia.
    simpl. rewrite app_nil_r.
    rewrite (nth_error_nth' items None H). reflexivity.
  - exists (items ++ repeat None (S (N.to_nat index) - length items)).
    rewrite nth_error_app2 by exact H.
    rewrite nth_error_repeat by lia.
    split; [reflexivity|]. split.
    + rewrite length_app, repeat_length. lia.
    + rewrite firstn_app, Nat.sub_diag, firstn_all. simpl.
      apply app_nil_r.
Qed.

Lemma set_item_length position value items :
  length (set_item position value items) = length items.
Proof.
  revert position. induction items as [|item rest IH]; intros [|n]; simpl;
    auto.
Qed.

Lemma set_item_same position value items :
  (position < length items)%nat ->
  nth_error (set_item position value items) position = Some value.
Proof.
  revert position. induction items as [|item rest IH]; intros [|n]; simpl;
    intros H; try lia; auto.
  apply IH. lia.
Qed.

Lemma set_item_other position value items j :
  j <> position ->
  nth_error (set_item position value items) j = nth_error items j.
Proof.
  revert position j.
  induction items as [|item rest IH]; intros [|n] [|j] H; simpl; auto;
    try congruence.
Qed.

(** X8. Assigning through [list[index]] and reading back: after
    [list[index] = value] the list has the slots it had, or [index + 1]
    if that is more, [list[index]] reads [value] without changing the
    list again, and every other slot the list had holds what it
    held. *)
Theorem List_assign_then_value (index : N) (value : Ptr)
        (items : list Ptr) (h : Heap) :
  exists items' h',
    List_assign index value items h = Done (items', h')
    /\ List_value index items' = Done (value, items')
    /\ length items' = Nat.max (length items) (S (N.to_nat index))
    /\ forall j,
        j <> N.to_nat index -> (j < length items)%nat ->
        nth_error items' j = nth_error items j.
Proof.
  set (grown := items ++ repeat None (S (N.to_nat index) - length items)).
  assert (Hlen : length grown = Nat.max (length items) (S (N.to_nat index))).
  { unfold grown. rewrite length_app, repeat_length. lia. }
  assert (Hin : (N.to_nat index < length grown)%nat) by lia.
  destruct (nth_error grown (N.to_nat index)) as [slot|] eqn:Eslot;
    [|apply nth_error_None in Eslot; lia].
  destruct (Assignment_assign_done value slot h) as [h' Ha].
  exists (set_item (N.to_nat index) value grown), h'.
  split; [|split; [|split]].
  - unfold List_assign. rewrite List_index_spec. unfold bind, lift. fold grown.
    rewrite Eslot, Ha. reflexivity.
  - unfold List_value. rewrite List_index_spec.
    rewrite set_item_length.
    replace (S (N.to_nat index) - length grown)%nat with O by lia.
    simpl. rewrite app_nil_r.
    rewrite set_item_same by exact Hin. reflexivity.
  - rewrite set_item_length. exact Hlen.
  - intros j Hj Hlt. rewrite set_item_other by exact Hj.
    unfold grown. apply nth_error_app1. exact Hlt.
Qed.

Lemma List_remove_middle before after item :
  (N.of_nat (length before) < 2 ^ 32)%N ->
  List_remove (N.of_nat (length before)) (before ++ item :: after)
  = Done (item, before ++ after).
Proof.
  intros _. unfold List_remove.
  replace (N.of_nat (length before) <? _)%N with true
    by (symmetry; apply N.ltb_lt; rewrite length_app; simpl; lia).
  rewrite Nat2N.id, erase_middle.
  rewrite app_nth2, Nat.sub_diag by lia. reflexivity.
Qed.

Lemma List_pop_index (items : list Ptr) (item : Ptr) :
  (N.of_nat (length items) < 2 ^ 32)%N ->
  wrap32 (Z.to_N (wrap size_t (Z.of_nat (length (items ++ [item])) - 1)))
  = N.of_nat (length items).
Proof.
  intros H. rewrite length_app. cbn [length].
  replace (Z.of_nat (length items + 1) - 1)%Z with (Z.of_nat (length items))
    by lia.
  assert (H64 : (Z.of_nat (length items) < 2 ^ 64)%Z).
  { apply N2Z.inj_lt in H. rewrite nat_N_Z in H.
    change (Z.of_N (2 ^ 32)) with (2 ^ 32)%Z in H.
    assert (2 ^ 32 < 2 ^ 64)%Z by reflexivity. lia. }
  rewrite wrap_size_t by lia.
  rewrite Z_of_nat_N_of_nat, N2Z.id || rewrite <- nat_N_Z, N2Z.id.
  apply wrap32_small. exact H.
Qed.

(** X9. What is put into a [List] comes out again: [pop()] after
    [push(item)] returns [item] and leaves the list as it was, and
    [remove(before)] after [insert(item, before)] does the same for any
    position up to the end, as long as the positions fit the
    [uint32_t] the two functions take. Removing from an empty list or
    at an index past the last item is undefined: [remove] tests the
    index only to pick its result and erases regardless. *)
Theorem List_insert_then_remove (item : Ptr) (before : nat)
        (items : list Ptr) :
  (before <= length items)%nat -> (N.of_nat (length items) < 2 ^ 32)%N ->
  (exists items',
      List_insert item before items = Done items'
      /\ nth_error items' before = Some item
      /\ List_remove (N.of_nat before) items' = Done (item, items))
  /\ (exists items',
         List_push item items = Done items'
         /\ List_pop items' = Done (item, items))
  /\ List_pop [] = Undefined
  /\ (forall index,
         (N.of_nat (length items) <= index)%N ->
         List_remove index items = Undefined).
Proof.
  intros Hb Hlen. split; [|split; [|split]].
  - set (pre := firstn before items). set (post := skipn before items).
    assert (Hsplit : items = pre ++ post) by (symmetry; apply firstn_skipn).
    assert (Hf : before = length pre)
      by (unfold pre; rewrite length_firstn; lia).
    clearbody pre post. subst items before.
    exists (pre ++ item :: post). unfold List_insert.
    replace (length pre <=? length (pre ++ post))%nat with true
      by (symmetry; apply Nat.leb_le; rewrite length_app; lia).
    rewrite insert_at_app, nth_error_middle, List_remove_middle; [auto|].
    rewrite length_app in Hlen. lia.
  - exists (items ++ [item]). rewrite List_push_spec. split; [reflexivity|].
    unfold List_pop. rewrite List_pop_index by exact Hlen.
    rewrite (List_remove_middle items [] item Hlen), app_nil_r. reflexivity.
  - reflexivity.
  - intros index Hi. unfold List_remove.
    replace (index <? N.of_nat (length items))%N with false; [reflexivity|].
    symmetry. apply N.ltb_ge. exact Hi.
Qed.

Lemma List_insert_then_remove_witness :
  (exists items',
      List_insert (Some (Integer 2)) 1
                  [Some (Integer 1); None; Some (String (lit "x"))]
      = Done items'
      /\ nth_error items' 1 = Some (Some (Integer 2))
      /\ List_remove (N.of_nat 1) items'
         = Done (Some (Integer 2),
                 [Some (Integer 1); None; Some (String (lit "x"))]))
  /\ (exists items',
         List_push (Some (Integer 2))
                   [Some (Integer 1); None; Some (String (lit "x"))]
         = Done items'
         /\ List_pop items'
            = Done (Some (Integer 2),
                    [Some (Integer 1); None; Some (String (lit "x"))]))
  /\ List_pop [] = Undefined
  /\ (forall index,
         (N.of_nat
            (length [Some (Integer 1); None; Some (String (lit "x"))])
          <= index)%N ->
         List_remove index [Some (Integer 1); None; Some (String (lit "x"))]
         = Undefined).
Proof.
  apply (List_insert_then_remove
           (Some (Integer 2)) 1
           [Some (Integer 1); None; Some (String (lit "x"))]).
  - simpl. lia.
  - vm_compute. reflexivity.
Defined.

Lemma nodes_List_app items item :
  nodes (List (items ++ [item])) = (nodes (List items) + nodes_ptr item)%nat.
Proof.
  simpl. f_equal. induction items as [|i rest IH]; simpl.
  - destruct item; simpl; lia.
  - rewrite IH. destruct i; lia.
Qed.

Lemma List_destroy_loop_spec fuel :
  forall items h,
    (length items <= fuel)%nat ->
    (N.of_nat (length items) < 2 ^ 32)%N ->
    List_destroy_loop fuel items h
    = Done (tt, (h - Z.of_nat (nodes (List items) - 1))%Z).
Proof.
  induction fuel as [|fuel IH]; intros items h Hf Hlen.
  - destruct items; [|simpl in Hf; lia]. simpl. unfold ret.
    rewrite Z.sub_0_r. reflexivity.
  - destruct (rev items) as [|item rest] eqn:E.
    + apply (f_equal (@rev Ptr)) in E. rewrite rev_involutive in E.
      subst items. simpl. unfold ret. rewrite Z.sub_0_r. reflexivity.
    + apply (f_equal (@rev Ptr)) in E. rewrite rev_involutive in E.
      simpl in E. subst items.
      assert (Hl : length (rev rest ++ [item]) = S (length (rev rest)))
        by (rewrite length_app; simpl; lia).
      unfold List_destroy_loop; fold List_destroy_loop.
      rewrite Hl. simpl Nat.ltb. cbv iota.
      unfold List_pop. rewrite List_pop_index by lia.
      rewrite List_remove_middle by lia.
      unfold bind, lift, delete_. rewrite app_nil_r.
      change (0 <? S (length (rev rest)))%nat with true. cbv iota beta.
      rewrite IH by lia.
      rewrite nodes_List_app. f_equal. f_equal.
      assert (1 <= nodes (List (rev rest)))%nat by (simpl; lia). lia.
Qed.

(** X10. [List::~List()] releases every item once: its loop
    [delete pop()] returns for every list whose length fits [uint32_t],
    leaves no slot behind and takes from the free store exactly the
    objects of the items, so that deleting the list releases the
    [nodes] objects of its tree. *)
Theorem List_destructor_releases_items (items : list Ptr) (h : Heap) :
  (N.of_nat (length items) < 2 ^ 32)%N ->
  List_destroy_loop (length items) items h
  = Done (tt, (h - Z.of_nat (nodes (List items) - 1))%Z)
  /\ (_ <- List_destroy_loop (length items) items ;;
      delete_ (Some (List []))) h
     = delete_ (Some (List items)) h.
Proof.
  intros Hlen.
  rewrite (bind_Done _ _ _ _ _ (List_destroy_loop_spec _ items h
                                  (Nat.le_refl _) Hlen)).
  split; [apply List_destroy_loop_spec; [lia|exact Hlen]|].
  unfold delete_. f_equal. f_equal.
  assert (1 <= nodes (List items))%nat by (simpl; lia).
  change (nodes_ptr (Some (List []))) with 1%nat.
  change (nodes_ptr (Some (List items))) with (nodes (List items)). lia.
Qed.

Lemma List_destructor_releases_items_witness :
  List_destroy_loop 2 [Some (List [Some (Integer 1)]); None] 5%Z
  = Done (tt, (5 - Z.of_nat (nodes (List [Some (List [Some (Integer 1)]);
                                           None]) - 1))%Z)
  /\ (_ <- List_destroy_loop 2 [Some (List [Some (Integer 1)]); None] ;;
      delete_ (Some (List []))) 5%Z
     = delete_ (Some (List [Some (List [Some (Integer 1)]); None])) 5%Z.
Proof.
  apply (List_destructor_releases_items
           [Some (List [Some (Integer 1)]); None] 5%Z).
  vm_compute. reflexivity.
Defined.

(** ** Values stored in a [Dictionary] *)

Lemma assoc_above k before after :
  Forall (key_above k) before -> assoc k (before ++ after) = assoc k after.
Proof.
  induction 1 as [|[first old] before Hk _ IH]; simpl; [reflexivity|].
  unfold key_above in Hk. simpl in Hk.
  destruct first as [f|]; [|contradiction].
  rewrite (compare_opp k f), Hk. simpl. exact IH.
Qed.

Lemma assoc_over k rest : keys_over k rest -> assoc k rest = None.
Proof.
  induction 1 as [|[first old] rest Hk _ IH]; simpl; [reflexivity|].
  simpl in Hk. destruct first as [g|]; [|exact IH].
  rewrite (compare_opp k g), Hk. simpl. exact IH.
Qed.

Lemma assoc_app k l1 l2 :
  assoc k (l1 ++ l2)
  = match assoc k l1 with
    | Some v => Some v
    | None => assoc k l2
    end.
Proof.
  induction l1 as [|[[f|] old] l1 IH]; simpl; auto.
  destruct (compare f k); auto.
Qed.

Lemma Sorted_keys_over k f v before rest :
  Sorted_keys (before ++ (Some f, v) :: rest) ->
  compare k f <> Gt ->
  keys_over k rest.
Proof.
  intros [Hs _] Hk.
  apply StronglySorted_app_iff in Hs. destruct Hs as (_ & Hs & _).
  apply StronglySorted_inv in Hs. destruct Hs as [_ Hs].
  unfold keys_over. eapply Forall_impl; [|exact Hs].
  intros [[g|] w] Hfg; unfold key_before in Hfg; simpl in *; [|contradiction].
  destruct (compare k g) eqn:E; [| reflexivity |].
  - exfalso. apply Hk.
    rewrite (compare_eq_l k g f E).
    apply compare_lt_gt. exact Hfg.
  - exfalso.
    apply (compare_trans k f g Hk); [rewrite Hfg; discriminate|exact E].
Qed.

Lemma above_equal k k' before :
  compare k k' = Eq -> Forall (key_above k) before ->
  Forall (key_above k') before.
Proof.
  intros E. apply Forall_impl. intros [[g|] w]; unfold key_above; simpl; auto.
  rewrite (compare_eq_l k k' g E). auto.
Qed.

(** Where [_find] stops in a sorted sequence, and what it answers. *)
Lemma _find_assoc k items :
  Sorted_keys items ->
  exists before after,
    items = before ++ after
    /\ Forall (key_above k) before /\ stops_at k after
    /\ match assoc k items with
       | Some v =>
           exists f rest, after = (Some f, v) :: rest /\ compare k f = Eq
       | None => found_at k after = false
       end.
Proof.
  intros Hs.
  destruct (keys_split k items (proj2 Hs)) as (before & after & -> & Hb & Ha).
  exists before, after. repeat split; auto.
  rewrite (assoc_above k before after Hb).
  destruct after as [|[[f|] v] rest]; simpl in *; try contradiction; auto.
  rewrite (compare_opp k f).
  destruct (compare k f) eqn:E; simpl; try congruence.
  - exists f, rest. auto.
  - rewrite (assoc_over k rest).
    + reflexivity.
    + apply (Sorted_keys_over k f v before rest Hs). congruence.
Qed.

Lemma Dictionary_has_key_assoc k items h :
  Sorted_keys items ->
  Dictionary_has_key (Some k) items h
  = Done ((match assoc k items with Some _ => true | None => false end,
           items), h).
Proof.
  intros Hs.
  destruct (_find_assoc k items Hs) as (before & after & -> & Hb & Ha & Hv).
  unfold Dictionary_has_key, bind, lift.
  rewrite (_find_stops k before after Hb Ha). unfold ret.
  destruct (assoc k (before ++ after)) as [v|].
  - destruct Hv as (f & rest & -> & E).
    rewrite (proj2 (found_at_compare k f v rest) E). reflexivity.
  - rewrite Hv. reflexivity.
Qed.

Lemma Dictionary_value_assoc k items v h :
  Sorted_keys items -> assoc k items = Some v ->
  Dictionary_value (Some k) items h = Done ((v, items), h).
Proof.
  intros Hs Hv.
  destruct (_find_assoc k items Hs) as (before & after & -> & Hb & Ha & Hf).
  rewrite Hv in Hf. destruct Hf as (f & rest & -> & E).
  unfold Dictionary_value, Dictionary_index.
  rewrite (bind_Done _ _ _ _ _
             (Dictionary_index_with_found clone k before _ h Hb Ha
                (proj2 (found_at_compare k f v rest) E))).
  simpl. rewrite nth_error_middle. reflexivity.
Qed.

Lemma assoc_assign_pair k v k' items :
  Forall key_present items ->
  assoc k' (assign_pair k v items)
  = match compare k k' with
    | Eq => Some v
    | _ => assoc k' items
    end.
Proof.
  induction 1 as [|[first old] rest Hp _ IH]; simpl.
  - destruct (compare k k'); reflexivity.
  - destruct first as [f|]; [|exfalso; apply Hp; reflexivity].
    destruct (compare k f) eqn:E; simpl.
    + rewrite <- (compare_eq_l k f k' E).
      destruct (compare k k'); reflexivity.
    + reflexivity.
    + rewrite IH. destruct (compare k k') eqn:E'; try reflexivity.
      rewrite <- (compare_eq_r f k k' E'), (compare_opp k f), E.
      reflexivity.
Qed.

Lemma assoc_erase k k' f v before rest :
  Sorted_keys (before ++ (Some f, v) :: rest) ->
  Forall (key_above k) before -> compare k f = Eq ->
  assoc k' (before ++ rest)
  = match compare k k' with
    | Eq => None
    | _ => assoc k' (before ++ (Some f, v) :: rest)
    end.
Proof.
  intros Hs Hb E.
  destruct (compare k k') eqn:E'.
  - rewrite (assoc_above k' before rest (above_equal k k' before E' Hb)).
    apply assoc_over.
    apply (Sorted_keys_over k' f v before rest Hs).
    rewrite <- (compare_eq_l k k' f E'), E. discriminate.
  - rewrite !assoc_app. simpl.
    rewrite <- (compare_eq_l k f k' E), E'. reflexivity.
  - rewrite !assoc_app. simpl.
    rewrite <- (compare_eq_l k f k' E), E'. reflexivity.
Qed.

Lemma Dictionary_assign_spec key value items h :
  Sorted_keys items -> valid key = true ->
  exists h',
    Dictionary_assign (Some key) value items h
    = Done (assign_pair key value items, h')
    /\ Sorted_keys (assign_pair key value items).
Proof.
  intros Hs Hv.
  destruct (Dictionary_assign_with_pair clone key value items h (proj2 Hs)
              (clone_valid key Hv)) as [h' E].
  exists h'. split; [exact E|]. apply assign_pair_sorted. exact Hs.
Qed.

(** What [Dictionary::remove] does on a sorted sequence. *)
Lemma Dictionary_remove_spec key items h :
  Sorted_keys items ->
  match assoc key items with
  | Some value =>
      exists before first rest,
        items = before ++ (Some first, value) :: rest
        /\ Forall (key_above key) before
        /\ compare key first = Eq
        /\ Dictionary_remove (Some key) items h
           = Done ((value, before ++ rest),
                   (h - Z.of_nat (nodes first))%Z)
  | None => Dictionary_remove (Some key) items h = Done ((None, items), h)
  end.
Proof.
  intros Hs.
  destruct (_find_assoc key items Hs) as (before & after & -> & Hb & Ha & Hv).
  unfold Dictionary_remove, bind, lift.
  rewrite (_find_stops key before after Hb Ha).
  destruct (assoc key (before ++ after)) as [v|].
  - destruct Hv as (f & rest & -> & E).
    exists before, f, rest. repeat split; auto.
    rewrite (proj2 (found_at_compare key f v rest) E).
    rewrite nth_error_middle, erase_middle. reflexivity.
  - rewrite Hv. reflexivity.
Qed.

(** X11. Lookup after assignment: once [dictionary[key] = value] has
    run on a sorted dictionary, with a key [clone] can copy, [has_key]
    answers true for the key and [dictionary[key]] reads [value], both
    without changing the dictionary, which is still sorted. *)
Theorem Dictionary_assign_then_value
        (items : list _Element) (key : Item) (value : Ptr) (h : Heap) :
  keys_sorted items = true -> valid key = true ->
  exists items' h',
    Dictionary_assign (Some key) value items h = Done (items', h')
    /\ keys_sorted items' = true
    /\ (forall h1,
           Dictionary_has_key (Some key) items' h1
           = Done ((true, items'), h1))
    /\ (forall h1,
           Dictionary_value (Some key) items' h1
           = Done ((value, items'), h1)).
Proof.
  intros Hs Hv. apply keys_sorted_Sorted_keys in Hs.
  destruct (Dictionary_assign_spec key value items h Hs Hv) as (h' & E & Hs').
  exists (assign_pair key value items), h'.
  assert (Ha : assoc key (assign_pair key value items) = Some value).
  { rewrite assoc_assign_pair by apply Hs. rewrite compare_refl. reflexivity. }
  split; [exact E|]. split; [apply Sorted_keys_keys_sorted; exact Hs'|].
  split; intros h1.
  - rewrite Dictionary_has_key_assoc by exact Hs'. rewrite Ha. reflexivity.
  - apply Dictionary_value_assoc; assumption.
Qed.

Lemma Dictionary_assign_then_value_witness :
  exists items' h',
    Dictionary_assign (Some (String (lit "eggs"))) (Some (Integer 2))
      [(Some (String (lit "cow")), Some (String (lit "moo")));
       (Some (String (lit "spam")), None)] 0%Z
    = Done (items', h')
    /\ keys_sorted items' = true
    /\ (forall h1,
           Dictionary_has_key (Some (String (lit "eggs"))) items' h1
           = Done ((true, items'), h1))
    /\ (forall h1,
           Dictionary_value (Some (String (lit "eggs"))) items' h1
           = Done ((Some (Integer 2), items'), h1)).
Proof.
  apply (Dictionary_assign_then_value
           [(Some (String (lit "cow")), Some (String (lit "moo")));
            (Some (String (lit "spam")), None)]
           (String (lit "eggs")) (Some (Integer 2)) 0%Z);
    vm_compute; reflexivity.
Defined.

Lemma other_key_unchanged other items items' h h' :
  Sorted_keys items -> Sorted_keys items' ->
  assoc other items' = assoc other items ->
  exists found,
    Dictionary_has_key (Some other) items h = Done ((found, items), h)
    /\ Dictionary_has_key (Some other) items' h'
       = Done ((found, items'), h')
    /\ (found = true ->
        exists v,
          Dictionary_value (Some other) items h = Done ((v, items), h)
          /\ Dictionary_value (Some other) items' h'
             = Done ((v, items'), h')).
Proof.
  intros Hs Hs' Ha.
  rewrite !Dictionary_has_key_assoc by assumption. rewrite Ha.
  destruct (assoc other items) as [v|] eqn:Ev.
  - exists true. repeat split. intros _. exists v.
    split; apply Dictionary_value_assoc; assumption.
  - exists false. repeat split. discriminate.
Qed.

(** X12. Assigning to or removing a key leaves the other keys alone:
    for a key [other] that does not compare equal to [key], [has_key]
    gives the same answer before and after [dictionary[key] = value],
    and before and after [remove(key)], and when [other] is present
    [dictionary[other]] reads the same value before and after. *)
Theorem Dictionary_other_keys_unchanged
        (items : list _Element) (key other : Item) (value : Ptr) (h : Heap) :
  keys_sorted items = true -> valid key = true ->
  compare key other <> Eq ->
  (exists items' h' found,
      Dictionary_assign (Some key) value items h = Done (items', h')
      /\ Dictionary_has_key (Some other) items h = Done ((found, items), h)
      /\ Dictionary_has_key (Some other) items' h'
         = Done ((found, items'), h')
      /\ (found = true ->
          exists v,
            Dictionary_value (Some other) items h = Done ((v, items), h)
            /\ Dictionary_value (Some other) items' h'
               = Done ((v, items'), h')))
  /\ (exists removed items' h' found,
         Dictionary_remove (Some key) items h = Done ((removed, items'), h')
         /\ Dictionary_has_key (Some other) items h = Done ((found, items), h)
         /\ Dictionary_has_key (Some other) items' h'
            = Done ((found, items'), h')
         /\ (found = true ->
             exists v,
               Dictionary_value (Some other) items h = Done ((v, items), h)
               /\ Dictionary_value (Some other) items' h'
                  = Done ((v, items'), h'))).
Proof.
  intros Hs Hv Hne. apply keys_sorted_Sorted_keys in Hs. split.
  - destruct (Dictionary_assign_spec key value items h Hs Hv)
      as (h' & E & Hs').
    assert (Ha : assoc other (assign_pair key value items)
                 = assoc other items).
    { rewrite assoc_assign_pair by apply Hs.
      destruct (compare key other); congruence. }
    destruct (other_key_unchanged other items _ h h' Hs Hs' Ha)
      as (found & H1 & H2 & H3).
    exists (assign_pair key value items), h', found. auto.
  - pose proof (Dictionary_remove_spec key items h Hs) as Hr.
    destruct (assoc key items) as [v|].
    + destruct Hr as (before & first & rest & -> & Hb & E & Hr).
      assert (Hs' : Sorted_keys (before ++ rest))
        by (eapply Sorted_keys_erase; exact Hs).
      assert (Ha : assoc other (before ++ rest)
                   = assoc other (before ++ (Some first, v) :: rest)).
      { rewrite (assoc_erase key other first v before rest Hs Hb E).
        destruct (compare key other); congruence. }
      destruct (other_key_unchanged other _ _ h
                  (h - Z.of_nat (nodes first))%Z Hs Hs' Ha)
        as (found & H1 & H2 & H3).
      exists v, (before ++ rest), (h - Z.of_nat (nodes first))%Z, found.
      auto.
    + destruct (other_key_unchanged other items items h h Hs Hs eq_refl)
        as (found & H1 & H2 & H3).
      exists None, items, h, found. auto.
Qed.

Lemma Dictionary_other_keys_unchanged_witness :
  (exists items' h' found,
      Dictionary_assign (Some (String (lit "eggs"))) (Some (Integer 2))
        [(Some (String (lit "cow")), Some (String (lit "moo")))] 0%Z
      = Done (items', h')
      /\ Dictionary_has_key (Some (String (lit "cow")))
           [(Some (String (lit "cow")), Some (String (lit "moo")))] 0%Z
         = Done ((found,
                  [(Some (String (lit "cow")), Some (String (lit "moo")))]),
                 0%Z)
      /\ Dictionary_has_key (Some (String (lit "cow"))) items' h'
         = Done ((found, items'), h')
      /\ (found = true ->
          exists v,
            Dictionary_value (Some (String (lit "cow")))
              [(Some (String (lit "cow")), Some (String (lit "moo")))] 0%Z
            = Done ((v, [(Some (String (lit "cow")),
                          Some (String (lit "moo")))]), 0%Z)
            /\ Dictionary_value (Some (String (lit "cow"))) items' h'
               = Done ((v, items'), h')))
  /\ (exists removed items' h' found,
         Dictionary_remove (Some (String (lit "eggs")))
           [(Some (String (lit "cow")), Some (String (lit "moo")))] 0%Z
         = Done ((removed, items'), h')
         /\ Dictionary_has_key (Some (String (lit "cow")))
              [(Some (String (lit "cow")), Some (String (lit "moo")))] 0%Z
            = Done ((found,
                     [(Some (String (lit "cow")),
                       Some (String (lit "moo")))]), 0%Z)
         /\ Dictionary_has_key (Some (String (lit "cow"))) items' h'
            = Done ((found, items'), h')
         /\ (found = true ->
             exists v,
               Dictionary_value (Some (String (lit "cow")))
                 [(Some (String (lit "cow")), Some (String (lit "moo")))] 0%Z
               = Done ((v, [(Some (String (lit "cow")),
                             Some (String (lit "moo")))]), 0%Z)
               /\ Dictionary_value (Some (String (lit "cow"))) items' h'
                  = Done ((v, items'), h'))).
Proof.
  apply (Dictionary_other_keys_unchanged
           [(Some (String (lit "cow")), Some (String (lit "moo")))]
           (String (lit "eggs")) (String (lit "cow")) (Some (Integer 2)) 0%Z);
    vm_compute; congruence.
Defined.

(** X13. [Dictionary::remove] on a sorted dictionary: it hands back the
    value stored under the key and releases the stored key, after which
    [has_key] answers false for the key and the dictionary is one pair
    shorter and still sorted; for a key that is not present it returns
    [NULL] and changes neither the dictionary nor the free store. *)
Theorem Dictionary_remove_then_has_key
        (items : list _Element) (key : Item) (h : Heap) :
  keys_sorted items = true ->
  exists found value items' h',
    Dictionary_has_key (Some key) items h = Done ((found, items), h)
    /\ Dictionary_remove (Some key) items h = Done ((value, items'), h')
    /\ keys_sorted items' = true
    /\ Dictionary_has_key (Some key) items' h' = Done ((false, items'), h')
    /\ (found = true ->
        Dictionary_value (Some key) items h = Done ((value, items), h)
        /\ S (length items') = length items
        /\ exists first,
            In (Some first, value) items
            /\ compare first key = Eq
            /\ h' = (h - Z.of_nat (nodes first))%Z)
    /\ (found = false -> value = None /\ items' = items /\ h' = h).
Proof.
  intros Hs. apply keys_sorted_Sorted_keys in Hs.
  pose proof (Dictionary_remove_spec key items h Hs) as Hr.
  rewrite (Dictionary_has_key_assoc key items h Hs).
  destruct (assoc key items) as [v|] eqn:Ev.
  - destruct Hr as (before & first & rest & -> & Hb & E & Hr).
    assert (Hs' : Sorted_keys (before ++ rest))
      by (eapply Sorted_keys_erase; exact Hs).
    exists true, v, (before ++ rest), (h - Z.of_nat (nodes first))%Z.
    split; [reflexivity|]. split; [exact Hr|].
    split; [apply Sorted_keys_keys_sorted; exact Hs'|].
    split; [|split; [|discriminate]].
    + rewrite Dictionary_has_key_assoc by exact Hs'.
      rewrite (assoc_erase key key first v before rest Hs Hb E).
      rewrite compare_refl. reflexivity.
    + intros _. split; [apply Dictionary_value_assoc; assumption|].
      split; [rewrite !length_app; simpl; lia|].
      exists first. split; [apply in_elt|]. split; [|reflexivity].
      rewrite (compare_opp key first), E. reflexivity.
  - exists false, None, items, h.
    split; [reflexivity|]. split; [exact Hr|].
    split; [apply Sorted_keys_keys_sorted; exact Hs|].
    split; [|split; [discriminate|auto]].
    rewrite Dictionary_has_key_assoc by exact Hs. rewrite Ev. reflexivity.
Qed.

Lemma Dictionary_remove_then_has_key_witness :
  exists found value items' h',
    Dictionary_has_key (Some (String (lit "cow")))
      [(Some (String (lit "cow")), Some (String (lit "moo")));
       (Some (String (lit "spam")), None)] 5%Z
    = Done ((found,
             [(Some (String (lit "cow")), Some (String (lit "moo")));
              (Some (String (lit "spam")), None)]), 5%Z)
    /\ Dictionary_remove (Some (String (lit "cow")))
         [(Some (String (lit "cow")), Some (String (lit "moo")));
          (Some (String (lit "spam")), None)] 5%Z
       = Done ((value, items'), h')
    /\ keys_sorted items' = true
    /\ Dictionary_has_key (Some (String (lit "cow"))) items' h'
       = Done ((false, items'), h')
    /\ (found = true ->
        Dictionary_value (Some (String (lit "cow")))
          [(Some (String (lit "cow")), Some (String (lit "moo")));
           (Some (String (lit "spam")), None)] 5%Z
        = Done ((value,
                 [(Some (String (lit "cow")), Some (String (lit "moo")));
                  (Some (String (lit "spam")), None)]), 5%Z)
        /\ S (length items')
           = length [(Some (String (lit "cow")), Some (String (lit "moo")));
                     (Some (String (lit "spam")), @None Item)]
        /\ exists first,
            In (Some first, value)
               [(Some (String (lit "cow")), Some (String (lit "moo")));
                (Some (String (lit "spam")), None)]
            /\ compare first (String (lit "cow")) = Eq
            /\ h' = (5 - Z.of_nat (nodes first))%Z)
    /\ (found = false ->
        value = None
        /\ items' = [(Some (String (lit "cow")), Some (String (lit "moo")));
                     (Some (String (lit "spam")), None)]
        /\ h' = 5%Z).
Proof.
  apply (Dictionary_remove_then_has_key
           [(Some (String (lit "cow")), Some (String (lit "moo")));
            (Some (String (lit "spam")), None)]
           (String (lit "cow")) 5%Z).
  vm_compute. reflexivity.
Defined.

(** X14. Removing what was just assigned undoes the assignment: when a
    sorted dictionary has no key comparing equal to [key],
    [remove(key)] after [dictionary[key] = value] returns [value],
    leaves the pairs the dictionary had before, in their order, and
    releases the copy of the key that the assignment stored. *)
Theorem Dictionary_assign_then_remove
        (items : list _Element) (key : Item) (value : Ptr) (h : Heap) :
  keys_sorted items = true -> valid key = true ->
  Dictionary_has_key (Some key) items h = Done ((false, items), h) ->
  exists items' h',
    Dictionary_assign (Some key) value items h = Done (items', h')
    /\ Dictionary_remove (Some key) items' h'
       = Done ((value, items), (h' - Z.of_nat (nodes key))%Z).
Proof.
  intros Hs Hv Habsent. apply keys_sorted_Sorted_keys in Hs.
  destruct (Dictionary_assign_spec key value items h Hs Hv) as (h' & E & Hs').
  exists (assign_pair key value items), h'. split; [exact E|].
  rewrite (Dictionary_has_key_assoc key items h Hs) in Habsent.
  destruct (_find_assoc key items Hs) as (before & after & -> & Hb & Ha & Hf).
  destruct (assoc key (before ++ after)); [discriminate|].
  assert (Hassign : assign_pair key value (before ++ after)
                    = before ++ (Some key, value) :: after).
  { rewrite (assign_pair_split key value before after Hb). f_equal.
    destruct after as [|[[f|] old] after]; simpl in *;
      [reflexivity| |contradiction].
    rewrite (compare_opp key f) in Hf.
    destruct (compare key f); simpl in *; congruence. }
  rewrite Hassign in *.
  unfold Dictionary_remove, bind, lift.
  rewrite (_find_stops key before ((Some key, value) :: after) Hb)
    by (simpl; rewrite compare_refl; discriminate).
  rewrite (proj2 (found_at_compare key key value after) (compare_refl key)).
  rewrite nth_error_middle, erase_middle. reflexivity.
Qed.

Lemma Dictionary_assign_then_remove_witness :
  exists items' h',
    Dictionary_assign (Some (String (lit "eggs"))) (Some (Integer 2))
      [(Some (String (lit "cow")), Some (String (lit "moo")));
       (Some (String (lit "spam")), None)] 0%Z
    = Done (items', h')
    /\ Dictionary_remove (Some (String (lit "eggs"))) items' h'
       = Done ((Some (Integer 2),
                [(Some (String (lit "cow")), Some (String (lit "moo")));
                 (Some (String (lit "spam")), None)]),
               (h' - Z.of_nat (nodes (String (lit "eggs"))))%Z).
Proof.
  apply (Dictionary_assign_then_remove
           [(Some (String (lit "cow")), Some (String (lit "moo")));
            (Some (String (lit "spam")), None)]
           (String (lit "eggs")) (Some (Integer 2)) 0%Z);
    vm_compute; reflexivity.
Defined.

(** ** What [clone] allocates *)

Lemma clone_ptr_counted cl p h :
  copies_counted cl p ->
  clone_ptr cl p h = Done (p, (h + Z.of_nat (clone_allocations_ptr p))%Z).
Proof.
  destruct p as [x|]; simpl; intros H.
  - apply H.
  - unfold ret. rewrite Z.add_0_r. reflexivity.
Qed.

Lemma List_clone_loop_counted cl items :
  Forall (copies_counted cl) items ->
  forall result h,
    List_clone_loop cl items result h
    = Done (result ++ items,
            (h + Z.of_nat (fold_right
                             (fun (item : Ptr) n =>
                                (clone_allocations_ptr item + n)%nat)
                             O items))%Z).
Proof.
  induction 1 as [|item items Hitem _ IH]; intros result h; simpl.
  - unfold ret. rewrite app_nil_r, Z.add_0_r. reflexivity.
  - rewrite (bind_Done _ _ _ _ _ (clone_ptr_counted cl item h Hitem)).
    unfold bind at 1, lift. rewrite List_push_spec.
    rewrite IH, <- app_assoc. simpl. f_equal. f_equal. lia.
Qed.

Lemma Dictionary_assign_with_end_counted cl k v items h c :
  Forall (key_above k) items ->
  (forall h, cl k h = Done (Some k, (h + c)%Z)) ->
  Dictionary_assign_with cl (Some k) v items h
  = Done (items ++ [(Some k, v)], (h + c)%Z).
Proof.
  intros Hb Hc.
  pose proof (Dictionary_index_with_absent cl k items [] h (h + c)%Z
                Hb I eq_refl (Hc h)) as E.
  rewrite app_nil_r in E.
  unfold Dictionary_assign_with.
  rewrite (bind_Done _ _ _ _ _ E).
  simpl. rewrite nth_error_middle.
  destruct v as [v|]; unfold bind, Assignment_assign, delete_, ret; simpl;
    rewrite set_second_middle, ?Z.sub_0_r; reflexivity.
Qed.

Lemma Dictionary_clone_loop_counted cl items :
  Forall (fun e : _Element =>
            copies_counted cl (fst e) /\ copies_counted cl (snd e)) items ->
  forall result h,
    Sorted_keys (result ++ items) ->
    Dictionary_clone_loop cl items result h
    = Done (result ++ items,
            (h + Z.of_nat (fold_right
                             (fun (e : _Element) n =>
                                (clone_allocations_ptr (snd e)
                                 + (clone_allocations_ptr (fst e)
                                    + clone_allocations_ptr (fst e))
                                 + n)%nat)
                             O items))%Z).
Proof.
  induction 1 as [|[first second] items [Hk Hv] _ IH]; intros result h Hs;
    cbn [fold_right Dictionary_clone_loop].
  - unfold ret. rewrite app_nil_r, Z.add_0_r. reflexivity.
  - rewrite (bind_Done _ _ _ _ _ (clone_ptr_counted cl second h Hv)).
    rewrite (bind_Done _ _ _ _ _ (clone_ptr_counted cl first _ Hk)).
    assert (Hp : key_present (first, second)).
    { destruct Hs as [_ Hp]. apply Forall_app in Hp.
      destruct Hp as [_ Hp]. apply Forall_cons_iff in Hp. tauto. }
    destruct first as [k|]; [|exfalso; apply Hp; reflexivity].
    rewrite (bind_Done _ _ _ _ _
               (Dictionary_assign_with_end_counted
                  cl k second result _ (Z.of_nat (clone_allocations k))
                  (Sorted_keys_above result k second items Hs) Hk)).
    rewrite IH by (rewrite <- app_assoc; exact Hs).
    rewrite <- app_assoc. simpl app. f_equal. f_equal.
    cbn [fst snd clone_allocations_ptr]. lia.
Qed.

Lemma clone_allocations_List items :
  clone_allocations (List items)
  = S (fold_right (fun (item : Ptr) n => (clone_allocations_ptr item + n)%nat)
                  O items).
Proof. reflexivity. Qed.

Lemma clone_allocations_Dictionary items :
  clone_allocations (Dictionary items)
  = S (fold_right (fun (e : _Element) n =>
                     (clone_allocations_ptr (snd e)
                      + (clone_allocations_ptr (fst e)
                         + clone_allocations_ptr (fst e)) + n)%nat)
                  O items).
Proof. reflexivity. Qed.

Lemma clone_fuel_counted x :
  valid x = true ->
  forall n h,
    (depth x <= n)%nat ->
    clone_fuel n x h = Done (Some x, (h + Z.of_nat (clone_allocations x))%Z).
Proof.
  induction x as [value|value|items IH|items IH] using Item_induction;
    intros Hv n h Hd;
    (destruct n as [|n]; [simpl in Hd; lia|]).
  - reflexivity.
  - reflexivity.
  - apply valid_List in Hv. apply depth_List in Hd.
    assert (Hc : Forall (copies_counted (clone_fuel n)) items).
    { rewrite Forall_forall in *. intros item Hin.
      specialize (IH item Hin). specialize (Hv item Hin).
      specialize (Hd item Hin).
      destruct item as [i|]; simpl in *; auto. }
    rewrite clone_allocations_List.
    cbn [clone_fuel]. unfold bind at 1, new_.
    rewrite (bind_Done _ _ _ _ _
               (List_clone_loop_counted (clone_fuel n) items Hc [] _)).
    unfold ret. simpl app. f_equal. f_equal. lia.
  - apply valid_Dictionary in Hv. destruct Hv as [Hv Hs].
    apply depth_Dictionary in Hd.
    assert (Hc : Forall (fun e : _Element =>
                           copies_counted (clone_fuel n) (fst e)
                           /\ copies_counted (clone_fuel n) (snd e)) items).
    { rewrite Forall_forall in *. intros e Hin.
      destruct (IH e Hin) as [IHk IHv]. destruct (Hv e Hin) as [Hvk Hvv].
      destruct (Hd e Hin) as [Hdk Hdv].
      destruct (fst e), (snd e); simpl in *; split; auto; contradiction. }
    rewrite clone_allocations_Dictionary.
    cbn [clone_fuel]. unfold bind at 1, new_.
    rewrite (bind_Done _ _ _ _ _
               (Dictionary_clone_loop_counted
                  (clone_fuel n) items Hc [] _
                  (keys_sorted_Sorted_keys items Hs))).
    unfold ret. simpl app. f_equal. f_equal. lia.
Qed.

Lemma clone_counted x h :
  valid x = true ->
  clone x h = Done (Some x, (h + Z.of_nat (clone_allocations x))%Z).
Proof. intros Hv. apply clone_fuel_counted; auto. Qed.

(** Every node is allocated, and each key of a dictionary costs at
    least one object more. *)
Lemma clone_allocations_pairs x :
  (nodes x + keys_in x <= clone_allocations x)%nat
  /\ (1 <= nodes x)%nat
  /\ (keys_in x = O -> clone_allocations x = nodes x).
Proof.
  induction x as [value|value|items IH|items IH] using Item_induction;
    try (simpl; split; [lia|split; [lia|reflexivity]]).
  - simpl. induction IH as [|item rest Hitem _ IHrest]; simpl.
    + split; [lia|split; [lia|reflexivity]].
    + destruct IHrest as (H1 & H2 & H3).
      destruct item as [i|]; simpl in Hitem.
      * destruct Hitem as (I1 & I2 & I3).
        split; [lia|]. split; [lia|]. intros E.
        rewrite I3 by lia.
        assert (E' := H3 ltac:(lia)). lia.
      * split; [lia|]. split; [lia|]. intros E.
        assert (E' := H3 ltac:(lia)). lia.
  - simpl. induction IH as [|[first second] rest [Hk Hv] _ IHrest]; simpl.
    + split; [lia|split; [lia|reflexivity]].
    + destruct IHrest as (H1 & H2 & H3).
      destruct first as [k|], second as [v|]; simpl in Hk, Hv; simpl;
        repeat match goal with
               | H : _ /\ _ |- _ => destruct H
               end;
        (split; [lia|split; [lia|]]); intros E; try lia;
        repeat match goal with
               | H : ?a = 0%nat -> _ |- _ =>
                   let E' := fresh in
                   assert (E' := H ltac:(lia)); clear H
               end; lia.
Qed.



(** X16. [Dictionary::clone] leaves objects behind: it clones each key
    and passes the clone to [operator[]], which stores a clone of that
    clone and never takes ownership of the one it was given. Cloning a
    valid tree still returns an equal tree, but the free store grows by
    [clone_allocations] objects, which is at least one object more than
    the copy holds for every dictionary key in the tree. *)
Theorem clone_leaves_key_copies (x : Item) (h : Heap) :
  valid x = true ->
  clone x h = Done (Some x, (h + Z.of_nat (clone_allocations x))%Z)
  /\ (nodes x + keys_in x <= clone_allocations x)%nat.
Proof.
  intros Hv. split; [apply clone_counted; exact Hv|].
  apply clone_allocations_pairs.
Qed.

Lemma clone_leaves_key_copies_witness :
  clone (Dictionary [(Some (String (lit "cow")), Some (Integer 1))]) 0%Z
  = Done (Some (Dictionary [(Some (String (lit "cow")), Some (Integer 1))]),
          (0 + Z.of_nat
                 (clone_allocations
                    (Dictionary [(Some (String (lit "cow")),
                                  Some (Integer 1))])))%Z)
  /\ (nodes (Dictionary [(Some (String (lit "cow")), Some (Integer 1))])
      + keys_in (Dictionary [(Some (String (lit "cow")), Some (Integer 1))])
      <= clone_allocations
           (Dictionary [(Some (String (lit "cow")), Some (Integer 1))]))%nat.
Proof.
  apply (clone_leaves_key_copies
           (Dictionary [(Some (String (lit "cow")), Some (Integer 1))]) 0%Z).
  reflexivity.
Defined.

(** ** What the parser hands back *)

Lemma yields_bind {S A B : Type} (Qa : A -> Prop) (Qb : B -> Prop)
      (c : M S A) (k : A -> M S B) s :
  yields Qa (c s) ->
  (forall a s', Qa a -> yields Qb (k a s')) ->
  yields Qb (bind c k s).
Proof.
  unfold bind. destruct (c s) as [[a s']| |]; simpl; auto.
Qed.

Lemma yields_weaken {S A : Type} (Q Q' : A -> Prop) (o : Outcome (A * S)) :
  (forall a, Q a -> Q' a) -> yields Q o -> yields Q' o.
Proof. destruct o as [[a s]| |]; simpl; auto. Qed.

Lemma strtoimax_in_intmax s : in_intmax (strtoimax s) = true.
Proof.
  unfold strtoimax, in_intmax.
  match goal with
  | |- context [(INTMAX_MAX <? ?v)%Z] =>
      destruct (Z.ltb_spec INTMAX_MAX v); [reflexivity|];
      destruct (Z.ltb_spec v INTMAX_MIN); [reflexivity|];
      apply andb_true_iff; split; apply Z.leb_le; lia
  end.
Qed.

Lemma parsed_List result :
  Forall parsed_item result -> parsed (Some (List result)).
Proof.
  intros H. simpl. split; apply forallb_forall; intros item Hin;
    rewrite Forall_forall in H; specialize (H item Hin);
    destruct item as [i|]; simpl in H; tauto.
Qed.

Lemma parsed_Dictionary result :
  Sorted_keys result -> Forall valid_pair result ->
  Forall complete_pair result ->
  parsed (Some (Dictionary result)).
Proof.
  intros Hs Hv Hc. split.
  - apply valid_Dictionary_intro; [exact Hv|].
    apply Sorted_keys_keys_sorted. exact Hs.
  - simpl. apply forallb_forall. intros e Hin.
    rewrite Forall_forall in Hc. destruct (Hc e Hin) as [Hk Hw].
    destruct (fst e), (snd e); try contradiction.
    rewrite Hk, Hw. reflexivity.
Qed.

Lemma assign_pair_complete k v items :
  complete_pair (Some k, v) ->
  Forall complete_pair items -> Forall complete_pair (assign_pair k v items).
Proof.
  intros Hkv. induction 1 as [|[first old] items He Hitems IH]; simpl.
  - repeat constructor; apply Hkv.
  - destruct first as [f|]; [|constructor; assumption].
    destruct (compare k f).
    + constructor; [|exact Hitems]. split; [apply He|apply Hkv].
    + constructor; [exact Hkv|]. constructor; assumption.
    + constructor; assumption.
Qed.

Section ParserInvariant.
Context {I : Type} {input : Input I}.

Lemma integer_loop_yields fuel :
  forall s : ParseState I, yields (fun _ => True) (integer_loop fuel s).
Proof.
  induction fuel as [|fuel IH]; intros s; simpl; [constructor|].
  unfold bind at 1, in_read. destruct (Input_read (source s)) as [byte i].
  destruct (Ascii.eqb byte "e"%char); simpl; [constructor|].
  apply IH.
Qed.

Lemma length_loop_yields fuel :
  forall byte (s : ParseState I),
    yields (fun _ => True) (length_loop fuel byte s).
Proof.
  induction fuel as [|fuel IH]; intros byte s; simpl; [constructor|].
  destruct (isdigit byte); simpl; [|constructor].
  unfold bind at 1, buffer_append. unfold bind at 1, in_read. simpl.
  destruct (Input_read (source s)) as [byte' i].
  destruct (Ascii.eqb byte' ":"%char); simpl; [constructor|].
  apply IH.
Qed.

Section LoopsInvariant.
Variable rec : ascii -> M (ParseState I) Ptr.
Hypothesis rec_parsed : forall type s, yields parsed (rec type s).

Lemma list_loop_yields fuel :
  forall result (s : ParseState I),
    Forall parsed_item result ->
    yields parsed (list_loop rec fuel result s).
Proof.
  induction fuel as [|fuel IH]; intros result s Hr; simpl; [constructor|].
  unfold bind at 1, in_read. destruct (Input_read (source s)) as [byte i].
  destruct (Ascii.eqb byte "e"%char).
  - apply parsed_List. exact Hr.
  - apply (yields_bind parsed); [apply rec_parsed|].
    intros [y|] s' Hy.
    + rewrite List_push_spec. unfold bind at 1, lift.
      apply IH. apply Forall_app. split; [exact Hr|].
      constructor; [exact Hy|constructor].
    + constructor.
Qed.

Lemma dictionary_loop_yields fuel :
  forall result (s : ParseState I),
    Sorted_keys result -> Forall valid_pair result ->
    Forall complete_pair result ->
    yields parsed (dictionary_loop rec fuel result s).
Proof.
  induction fuel as [|fuel IH]; intros result s Hs Hv Hc; simpl;
    [constructor|].
  unfold bind at 1, in_read. destruct (Input_read (source s)) as [byte i].
  destruct (Ascii.eqb byte "e"%char).
  - apply parsed_Dictionary; assumption.
  - apply (yields_bind parsed); [apply rec_parsed|].
    intros key s1 Hkey.
    unfold bind at 1, in_read.
    destruct (Input_read (source s1)) as [byte' i'].
    apply (yields_bind parsed); [apply rec_parsed|].
    intros value s2 Hvalue.
    destruct key as [k|]; [destruct value as [v|]|]; try constructor.
    destruct Hkey as [Hkv Hkc]. destruct Hvalue as [Hvv Hvc].
    destruct (Dictionary_assign_with_pair clone k (Some v) result (live s2)
                (proj2 Hs) (clone_valid k Hkv)) as [h' E].
    unfold bind at 1, heap. unfold Dictionary_assign. rewrite E.
    apply IH.
    + apply assign_pair_sorted. exact Hs.
    + apply assign_pair_valid; [split; assumption|exact Hv].
    + apply assign_pair_complete; [split; assumption|exact Hc].
Qed.
End LoopsInvariant.

Lemma _read_yields fuel :
  forall type (s : ParseState I), yields parsed (_read fuel type s).
Proof.
  induction fuel as [|fuel IH]; intros type s; simpl; [constructor|].
  destruct (Ascii.eqb type "i"%char).
  - unfold bind at 1, buffer_clear.
    apply (yields_bind (fun _ => True)); [apply integer_loop_yields|].
    intros _ s' _. simpl. split; [apply strtoimax_in_intmax|reflexivity].
  - destruct (isdigit type).
    + unfold bind at 1, buffer_clear.
      apply (yields_bind (fun _ => True)); [apply length_loop_yields|].
      intros [|] s' _; simpl; [|constructor].
      unfold bind, buffer_get, in_read_n, heap, new_. simpl.
      destruct (Input_read_n _ _) as [storage i]. simpl. auto.
    + destruct (Ascii.eqb type "l"%char).
      * unfold bind at 1, heap, new_.
        apply list_loop_yields; [exact IH|constructor].
      * destruct (Ascii.eqb type "d"%char); [|constructor].
        unfold bind at 1, heap, new_.
        apply dictionary_loop_yields;
          [exact IH|split; constructor|constructor|constructor].
Qed.

Lemma Item_read_yields fuel (i : I) (h : Heap) :
  match Item_read fuel i h with
  | Done (result, _, _) => parsed result
  | Undefined => False
  | OutOfFuel => True
  end.
Proof.
  unfold Item_read.
  match goal with
  | |- context [bind ?c ?k ?s] =>
      assert (H : yields parsed (bind c k s))
  end.
  { unfold bind at 1, in_read. simpl.
    destruct (Input_read i) as [type i']. apply _read_yields. }
  destruct (bind _ _ _) as [[result s]| |]; exact H.
Qed.

(** X17. Whatever the source holds, a tree [Item::read] returns is one
    the public operations could have built and has no [NULL] slot:
    every integer is an [intmax_t] value, and every dictionary, at any
    depth, has its pairs in strictly increasing key order with a key
    and a value in each. *)
Theorem Item_read_returns_sorted_tree
        (fuel : nat) (i i' : I) (h h' : Heap) (y : Item) :
  Item_read fuel i h = Done (Some y, i', h') ->
  valid y = true /\ complete y = true.
Proof.
  intros E. pose proof (Item_read_yields fuel i h) as H.
  rewrite E in H. exact H.
Qed.

End ParserInvariant.

Lemma Item_read_returns_sorted_tree_witness :
  valid (Dictionary [(Some (String (lit "a")), Some (Integer 2))]) = true
  /\ complete (Dictionary [(Some (String (lit "a")), Some (Integer 2))])
     = true.
Proof.
  apply (Item_read_returns_sorted_tree
           20 {| _buffer := lit "d1:ai1e1:ai2ee"; _position := 0 |}
           {| _buffer := lit "d1:ai1e1:ai2ee"; _position := 14 |}
           0%Z 5%Z).
  vm_compute. reflexivity.
Defined.

(** ** Sources on which the parser returns *)

Lemma terminated_app a b : terminated (a ++ b) = true -> terminated b = true.
Proof.
  induction a as [|c a IH]; cbn [app terminated]; [auto|].
  intros H. apply andb_true_iff in H. apply IH, H.
Qed.

Lemma terminated_cons c rest :
  terminated (c :: rest) = true ->
  terminated rest = true
  /\ (Ascii.eqb c "i"%char = true ->
      existsb (Ascii.eqb "e"%char) rest = true).
Proof.
  cbn [terminated]. intros H. apply andb_true_iff in H.
  destruct H as [H1 H2].
  split; [exact H2|]. intros E. rewrite E in H1. exact H1.
Qed.

Lemma existsb_e_split suf :
  existsb (Ascii.eqb "e"%char) suf = true ->
  exists text rest,
    suf = text ++ "e"%char :: rest
    /\ Forall (fun c => Ascii.eqb c "e"%char = false) text.
Proof.
  induction suf as [|c suf IH]; cbn [existsb]; [discriminate|].
  destruct (Ascii.eqb_spec "e"%char c) as [<-|Hne]; cbn [orb].
  - intros _. exists [], suf. split; [reflexivity|constructor].
  - intros H. destruct (IH H) as (text & rest & -> & Ht).
    exists (c :: text), rest. split; [reflexivity|].
    constructor; [|exact Ht].
    apply Ascii.eqb_neq. congruence.
Qed.

Lemma in_read_n_st size pre suf buf h :
  in_read_n size (st pre suf buf h)
  = Done (tt,
          st (pre ++ firstn (Nat.min (Z.to_nat size) (length suf)) suf)
             (skipn (Nat.min (Z.to_nat size) (length suf)) suf)
             (firstn (Nat.min (Z.to_nat size) (length suf)) suf) h).
Proof.
  set (m := Nat.min (Z.to_nat size) (length suf)).
  assert (Hsplit : suf = firstn m suf ++ skipn m suf)
    by (symmetry; apply firstn_skipn).
  assert (Hm : length (firstn m suf) = m)
    by (rewrite length_firstn; unfold m; lia).
  unfold in_read_n, st. simpl. unfold ReferencedStringInput_read_n. simpl.
  rewrite length_app, skipn_app, skipn_all, Nat.sub_diag. simpl.
  destruct (Nat.ltb_spec (length pre) (length pre + length suf)) as [E|E].
  - match goal with
    | |- context [if ?b then Z.to_nat size else ?r] =>
        replace (if b then Z.to_nat size else r) with m
    end.
    + rewrite <- app_assoc, <- Hsplit, length_app, Hm. reflexivity.
    + unfold m.
      destruct (Z.ltb_spec (Z.of_nat (length pre) + size)
                           (Z.of_nat (length pre + length suf))); lia.
  - assert (Hs : suf = []) by (destruct suf; [reflexivity|simpl in E; lia]).
    assert (Hm0 : m = O) by (unfold m; rewrite Hs; simpl; lia).
    rewrite <- app_assoc, <- Hsplit, length_app, Hm, Hm0, Nat.add_0_r.
    reflexivity.
Qed.

Lemma heap_st {A : Type} (c : M Heap A) a pre suf buf h h' :
  c h = Done (a, h') ->
  heap c (st pre suf buf h) = Done (a, st pre suf buf h').
Proof. unfold heap, st. simpl. intros ->. reflexivity. Qed.

Lemma _read_other fuel c (s : ParseState ReferencedStringInput) :
  Ascii.eqb c "i"%char = false -> isdigit c = false ->
  Ascii.eqb c "l"%char = false -> Ascii.eqb c "d"%char = false ->
  _read (S fuel) c s = Done (None, s).
Proof. intros E1 E2 E3 E4. simpl. rewrite E1, E2, E3, E4. reflexivity. Qed.

Lemma _read_zero fuel (s : ParseState ReferencedStringInput) :
  _read (S fuel) zero s = Done (None, s).
Proof. apply _read_other; reflexivity. Qed.

Lemma length_loop_returns fuel :
  forall c pre suf buf h,
    (length suf + 2 <= fuel)%nat ->
    exists ok mid suf' buf',
      suf = mid ++ suf'
      /\ length_loop fuel c (st pre suf buf h)
         = Done (ok, st (pre ++ mid) suf' buf' h).
Proof.
  induction fuel as [|fuel IH]; intros c pre suf buf h Hf; [lia|].
  cbn [length_loop].
  destruct (isdigit c); cbn [negb].
  2:{ exists false, [], suf, buf. rewrite (app_nil_r pre).
      split; reflexivity. }
  unfold bind at 1, buffer_append. cbn [source buffer live st].
  change {| source := {| _buffer := pre ++ suf; _position := length pre |};
            buffer := buf ++ [c]; live := h |}
    with (st pre suf (buf ++ [c]) h).
  destruct suf as [|c' suf1].
  - rewrite (bind_Done _ _ _ _ _ (in_read_end pre (buf ++ [c]) h)).
    change (Ascii.eqb zero ":"%char) with false. cbv iota.
    destruct fuel as [|fuel]; [simpl in Hf; lia|].
    exists false, [], [], (buf ++ [c]). rewrite (app_nil_r pre).
    split; reflexivity.
  - rewrite (bind_Done _ _ _ _ _ (in_read_cons pre c' suf1 (buf ++ [c]) h)).
    destruct (Ascii.eqb c' ":"%char).
    + exists true, [c'], suf1, (buf ++ [c]). auto.
    + destruct (IH c' (pre ++ [c']) suf1 (buf ++ [c]) h)
        as (ok & mid & suf' & buf' & -> & E); [simpl in Hf; lia|].
      exists ok, (c' :: mid), suf', buf'. split; [reflexivity|].
      rewrite E, <- app_assoc. reflexivity.
Qed.

Section Returns.
Variable f : nat.
Hypothesis _read_returns_f :
  forall c pre suf buf h,
    (length suf + 3 <= f)%nat -> terminated suf = true ->
    (Ascii.eqb c "i"%char = true ->
     existsb (Ascii.eqb "e"%char) suf = true) ->
    exists r mid suf' buf' h',
      suf = mid ++ suf'
      /\ _read f c (st pre suf buf h)
         = Done (r, st (pre ++ mid) suf' buf' h').

(** One byte is read and the construct it starts is parsed. *)
Lemma element_returns pre suf buf h :
  (length suf + 2 <= f)%nat -> terminated suf = true ->
  exists c r mid suf' buf' h',
    suf = mid ++ suf'
    /\ (r = None \/ 1 <= length mid)%nat
    /\ in_read (st pre suf buf h)
       = Done (c, st (pre ++ firstn 1 suf) (skipn 1 suf) buf h)
    /\ _read f c (st (pre ++ firstn 1 suf) (skipn 1 suf) buf h)
       = Done (r, st (pre ++ mid) suf' buf' h').
Proof.
  intros Hf Ht. destruct suf as [|c suf1].
  - exists zero, None, [], [], buf, h. simpl. rewrite !app_nil_r.
    split; [reflexivity|]. split; [auto|].
    split; [apply in_read_end|].
    destruct f as [|f']; [simpl in Hf; lia|]. apply _read_zero.
  - destruct (terminated_cons c suf1 Ht) as [Ht1 Hi].
    destruct (_read_returns_f c (pre ++ [c]) suf1 buf h)
      as (r & mid & suf' & buf' & h' & -> & E); [simpl in Hf; lia|auto..].
    exists c, r, (c :: mid), suf', buf', h'. simpl.
    split; [reflexivity|]. split; [right; lia|].
    split; [apply in_read_cons|].
    rewrite E, <- app_assoc. reflexivity.
Qed.

Lemma list_loop_returns n :
  forall result pre suf buf h,
    (length suf + 1 <= n)%nat -> (length suf + 2 <= f)%nat ->
    terminated suf = true ->
    exists r mid suf' buf' h',
      suf = mid ++ suf'
      /\ list_loop (_read f) n result (st pre suf buf h)
         = Done (r, st (pre ++ mid) suf' buf' h').
Proof.
  induction n as [|n IH]; intros result pre suf buf h Hn Hf Ht; [lia|].
  cbn [list_loop].
  destruct (element_returns pre suf buf h Hf Ht)
    as (c & r & mid & suf' & buf' & h' & Hsuf & Hmid & E1 & E2).
  rewrite (bind_Done _ _ _ _ _ E1).
  destruct (Ascii.eqb c "e"%char).
  - exists (Some (List result)), (firstn 1 suf), (skipn 1 suf), buf, h.
    split; [symmetry; apply firstn_skipn|reflexivity].
  - rewrite (bind_Done _ _ _ _ _ E2).
    destruct r as [y|].
    + rewrite List_push_spec. unfold bind at 1, lift.
      destruct Hmid as [Hmid|Hmid]; [discriminate|].
      destruct (IH (result ++ [Some y]) (pre ++ mid) suf' buf' h')
        as (r2 & mid2 & suf2 & buf2 & h2 & -> & E3).
      { subst suf. rewrite length_app in Hn. lia. }
      { subst suf. rewrite length_app in Hf. lia. }
      { subst suf. apply (terminated_app mid). exact Ht. }
      exists r2, (mid ++ mid2), suf2, buf2, h2.
      split; [rewrite Hsuf, app_assoc; reflexivity|].
      rewrite E3, app_assoc. reflexivity.
    + exists None, mid, suf', buf',
        (h' - Z.of_nat (nodes_ptr (Some (List result))))%Z.
      split; [exact Hsuf|].
      erewrite bind_Done; [reflexivity|].
      apply heap_st. reflexivity.
Qed.

Lemma dictionary_loop_returns n :
  forall result pre suf buf h,
    (length suf + 1 <= n)%nat -> (length suf + 2 <= f)%nat ->
    terminated suf = true -> Forall key_present result ->
    exists r mid suf' buf' h',
      suf = mid ++ suf'
      /\ dictionary_loop (_read f) n result (st pre suf buf h)
         = Done (r, st (pre ++ mid) suf' buf' h').
Proof.
  induction n as [|n IH]; intros result pre suf buf h Hn Hf Ht Hp; [lia|].
  cbn [dictionary_loop].
  destruct (element_returns pre suf buf h Hf Ht)
    as (c & key & mid & suf' & buf' & h' & Hsuf & Hmid & E1 & E2).
  rewrite (bind_Done _ _ _ _ _ E1).
  destruct (Ascii.eqb c "e"%char).
  - exists (Some (Dictionary result)), (firstn 1 suf), (skipn 1 suf), buf, h.
    split; [symmetry; apply firstn_skipn|reflexivity].
  - rewrite (bind_Done _ _ _ _ _ E2).
    assert (Hf' : (length suf' + 2 <= f)%nat)
      by (subst suf; rewrite length_app in Hf; lia).
    assert (Ht' : terminated suf' = true)
      by (subst suf; apply (terminated_app mid); exact Ht).
    destruct (element_returns (pre ++ mid) suf' buf' h' Hf' Ht')
      as (c2 & value & mid2 & suf2 & buf2 & h2 & Hsuf2 & Hmid2 & E3 & E4).
    rewrite (bind_Done _ _ _ _ _ E3), (bind_Done _ _ _ _ _ E4).
    pose proof (_read_yields f c (st (pre ++ firstn 1 suf) (skipn 1 suf)
                                     buf h)) as Hkey.
    rewrite E2 in Hkey. simpl in Hkey.
    destruct key as [k|]; [destruct value as [v|]|].
    + destruct Hkey as [Hkv _].
      destruct (Dictionary_assign_with_pair clone k (Some v) result h2 Hp
                  (clone_valid k Hkv)) as [h3 E5].
      rewrite (bind_Done _ _ _ _ _
                 (heap_st _ _ _ _ _ _ _ E5)).
      destruct Hmid as [Hmid|Hmid]; [discriminate|].
      destruct (IH (assign_pair k (Some v) result)
                  ((pre ++ mid) ++ mid2) suf2 buf2 h3)
        as (r3 & mid3 & suf3 & buf3 & h4 & -> & E6).
      { subst suf suf'. rewrite !length_app in Hn. lia. }
      { subst suf suf'. rewrite !length_app in Hf. lia. }
      { subst suf'. apply (terminated_app mid2). exact Ht'. }
      { apply assign_pair_present. exact Hp. }
      exists r3, (mid ++ mid2 ++ mid3), suf3, buf3, h4.
      split; [rewrite Hsuf, Hsuf2, <- !app_assoc; reflexivity|].
      rewrite E6, <- !app_assoc. reflexivity.
    + eexists None, (mid ++ mid2), suf2, buf2, _.
      split; [rewrite Hsuf, Hsuf2, <- !app_assoc; reflexivity|].
      erewrite bind_Done; [|apply heap_st; reflexivity].
      erewrite bind_Done; [|apply heap_st; reflexivity].
      erewrite bind_Done; [|apply heap_st; reflexivity].
      rewrite <- app_assoc. reflexivity.
    + eexists None, (mid ++ mid2), suf2, buf2, _.
      split; [rewrite Hsuf, Hsuf2, <- !app_assoc; reflexivity|].
      erewrite bind_Done; [|apply heap_st; reflexivity].
      erewrite bind_Done; [|apply heap_st; reflexivity].
      erewrite bind_Done; [|apply heap_st; reflexivity].
      rewrite <- app_assoc. reflexivity.
Qed.
End Returns.

Lemma _read_returns fuel :
  forall c pre suf buf h,
    (length suf + 3 <= fuel)%nat -> terminated suf = true ->
    (Ascii.eqb c "i"%char = true ->
     existsb (Ascii.eqb "e"%char) suf = true) ->
    exists r mid suf' buf' h',
      suf = mid ++ suf'
      /\ _read fuel c (st pre suf buf h)
         = Done (r, st (pre ++ mid) suf' buf' h').
Proof.
  induction fuel as [|fuel IH]; intros c pre suf buf h Hf Ht Hi; [lia|].
  destruct (Ascii.eqb_spec c "i"%char) as [->|Hne].
  - destruct (existsb_e_split suf (Hi eq_refl)) as (text & rest & -> & Htext).
    exists (Some (Integer (strtoimax text))), (text ++ ["e"%char]), rest,
      text, (h + 1)%Z.
    split; [rewrite <- app_assoc; reflexivity|].
    apply _read_integer; [exact Htext|].
    rewrite length_app in Hf. simpl in Hf. lia.
  - apply Ascii.eqb_neq in Hne. cbn [_read]. rewrite Hne.
    destruct (isdigit c).
    + unfold bind at 1, buffer_clear. cbn [source live st].
      change {| source := {| _buffer := pre ++ suf; _position := length pre |};
                buffer := []; live := h |}
        with (st pre suf [] h).
      destruct (length_loop_returns fuel c pre suf [] h)
        as (ok & mid & suf' & buf' & -> & E); [lia|].
      rewrite (bind_Done _ _ _ _ _ E).
      destruct ok.
      * unfold bind at 1, buffer_get. unfold bind at 1, buffer_clear.
        cbn [source buffer live st].
        change {| source := {| _buffer := (pre ++ mid) ++ suf';
                               _position := length (pre ++ mid) |};
                  buffer := []; live := h |}
          with (st (pre ++ mid) suf' [] h).
        rewrite (bind_Done _ _ _ _ _ (in_read_n_st _ _ _ _ _)).
        unfold bind at 1, buffer_get. cbn [buffer st].
        set (m := Nat.min (Z.to_nat (strtoimax buf')) (length suf')).
        exists (Some (String (firstn m suf'))), (mid ++ firstn m suf'),
          (skipn m suf'), (firstn m suf'), (h + 1)%Z.
        split; [rewrite <- app_assoc, firstn_skipn; reflexivity|].
        rewrite app_assoc. apply heap_st. reflexivity.
      * exists None, mid, suf', buf', h. auto.
    + destruct (Ascii.eqb c "l"%char).
      * erewrite bind_Done; [|apply heap_st; reflexivity].
        apply (list_loop_returns fuel IH); [lia|lia|exact Ht].
      * destruct (Ascii.eqb c "d"%char).
        -- erewrite bind_Done; [|apply heap_st; reflexivity].
           apply (dictionary_loop_returns fuel IH);
             [lia|lia|exact Ht|constructor].
        -- exists None, [], suf, buf, h. rewrite (app_nil_r pre).
           split; reflexivity.
Qed.

(** X19. [Item::read] returns on every source in which each ['i'] has
    an ['e'] somewhere behind it, in particular on every source without
    an ['i'] and on every source that ends in ['e']: the loop of the
    integer case is the only one that does not stop at the end of the
    source. The number of steps is bounded by the length of the
    source. *)
Theorem decode_returns_on_terminated_source (w : bytes) (fuel : nat) :
  terminated w = true -> (length w + 2 <= fuel)%nat ->
  exists result h, decode fuel w = Done (result, h).
Proof.
  intros Ht Hf. destruct w as [|c w].
  - destruct fuel as [|fuel]; [simpl in Hf; lia|].
    exists None, 0%Z. reflexivity.
  - destruct (terminated_cons c w Ht) as [Ht' Hi].
    destruct (_read_returns fuel c [c] w [] 0%Z)
      as (r & mid & suf' & buf' & h' & _ & E); [simpl in Hf; lia|auto..].
    exists r, h'. rewrite decode_cons, E. reflexivity.
Qed.

Lemma decode_returns_on_terminated_source_witness :
  exists result h, decode 12 (lit "li3e1:x") = Done (result, h).
Proof.
  apply (decode_returns_on_terminated_source (lit "li3e1:x") 12).
  - vm_compute. reflexivity.
  - simpl. lia.
Defined.

(** ** The string case at the end of the source *)

Lemma firstn_min {A : Type} (n : nat) (l : list A) :
  firstn (Nat.min n (length l)) l = firstn n l.
Proof.
  destruct (Nat.le_ge_cases n (length l)) as [H|H].
  - rewrite Nat.min_l by exact H. reflexivity.
  - rewrite Nat.min_r by exact H.
    rewrite firstn_all, firstn_all2 by exact H. reflexivity.
Qed.

Lemma _read_digits c ds remaining fuel pre buf h :
  Forall is_digit (c :: ds) -> (length ds < fuel)%nat ->
  _read (S fuel) c (st pre (ds ++ ":"%char :: remaining) buf h)
  = Done (Some (String (firstn (Z.to_nat (strtoimax (c :: ds))) remaining)),
          st (pre ++ ds ++ ":"%char
                  :: firstn (Z.to_nat (strtoimax (c :: ds))) remaining)
             (skipn (Z.to_nat (strtoimax (c :: ds))) remaining)
             (firstn (Z.to_nat (strtoimax (c :: ds))) remaining)
             (h + 1)%Z).
Proof.
  intros Hd Hf. apply Forall_cons_iff in Hd. destruct Hd as [Hc Hds].
  cbn [_read].
  replace (Ascii.eqb c "i"%char) with false
    by (symmetry; apply is_digit_eqb; [exact Hc|reflexivity]).
  unfold is_digit in Hc. rewrite Hc.
  unfold bind at 1, buffer_clear. cbn [source live st].
  change {| source := {| _buffer := pre ++ ds ++ ":"%char :: remaining;
                         _position := length pre |};
            buffer := []; live := h |}
    with (st pre (ds ++ ":"%char :: remaining) [] h).
  rewrite (bind_Done _ _ _ _ _
             (length_loop_digits ds Hds fuel c pre remaining [] h Hc Hf)).
  unfold bind at 1, buffer_get. unfold bind at 1, buffer_clear.
  cbn [source buffer live st app].
  change {| source := {| _buffer := (pre ++ ds ++ [":"%char]) ++ remaining;
                         _position := length (pre ++ ds ++ [":"%char]) |};
            buffer := []; live := h |}
    with (st (pre ++ ds ++ [":"%char]) remaining [] h).
  rewrite (bind_Done _ _ _ _ _ (in_read_n_st _ _ _ _ _)).
  unfold bind at 1, buffer_get. cbn [buffer st].
  rewrite !firstn_min.
  set (n := Z.to_nat (strtoimax (c :: ds))).
  replace (skipn (Nat.min n (length remaining)) remaining)
    with (skipn n remaining).
  - erewrite heap_st; [|reflexivity].
    rewrite <- !app_assoc. reflexivity.
  - destruct (Nat.le_ge_cases n (length remaining)) as [H|H].
    + rewrite Nat.min_l by exact H. reflexivity.
    + rewrite Nat.min_r by exact H.
      rewrite skipn_all, skipn_all2 by exact H. reflexivity.
Qed.

(** X20. The length in front of a string is an upper bound only: the
    string case takes as many bytes as the decimal length says, or all
    that are left in the source when they are fewer, and returns them
    as a [String]; a source that ends inside a string is not
    rejected. *)
Theorem decode_string_takes_what_is_left
        (c : ascii) (ds remaining : bytes) (fuel : nat) :
  forallb isdigit (c :: ds) = true -> (length ds + 2 <= fuel)%nat ->
  decode fuel (c :: ds ++ ":"%char :: remaining)
  = Done (Some (String (firstn (Z.to_nat (strtoimax (c :: ds))) remaining)),
          1%Z).
Proof.
  intros Hd Hf. apply forallb_is_digit in Hd.
  destruct fuel as [|fuel]; [lia|].
  rewrite decode_cons, _read_digits by (auto; lia). reflexivity.
Qed.

Lemma decode_string_takes_what_is_left_witness :
  decode 5 ("1"%char :: ["2"%char] ++ ":"%char :: lit "spam")
  = Done (Some (String (firstn (Z.to_nat (strtoimax ("1"%char :: ["2"%char])))
                               (lit "spam"))), 1%Z).
Proof.
  apply (decode_string_takes_what_is_left "1"%char ["2"%char] (lit "spam") 5).
  - reflexivity.
  - simpl. lia.
Defined.

(** ** Reading one value after another *)




(** ** The free store after a decode *)

Lemma bind_inv {S A B : Type} (c : M S A) (k : A -> M S B) s b s2 :
  bind c k s = Done (b, s2) ->
  exists a s1, c s = Done (a, s1) /\ k a s1 = Done (b, s2).
Proof.
  unfold bind. destruct (c s) as [[a s1]| |]; try discriminate.
  intros E. exists a, s1. auto.
Qed.

Lemma in_read_same s c s' :
  in_read s = Done (c, s') ->
  same_store s s'
  /\ (no_dictionary (_buffer (source s)) = true ->
      Ascii.eqb c "d"%char = false).
Proof.
  unfold in_read. simpl. unfold ReferencedStringInput_read.
  destruct (nth_error (_buffer (source s)) (_position (source s))) as [b|]
    eqn:E; intros H; inversion H; subst; clear H.
  - split; [split; reflexivity|]. intros Hn.
    apply nth_error_In in E. unfold no_dictionary in Hn.
    rewrite forallb_forall in Hn. specialize (Hn _ E).
    apply negb_true_iff. exact Hn.
  - split; [split; reflexivity|]. intros _. reflexivity.
Qed.

Lemma same_store_trans s1 s2 s3 :
  same_store s1 s2 -> same_store s2 s3 -> same_store s1 s3.
Proof. unfold same_store. intros [H1 H2] [H3 H4]. split; congruence. Qed.

Lemma integer_loop_same fuel :
  forall s s', integer_loop fuel s = Done (tt, s') -> same_store s s'.
Proof.
  induction fuel as [|fuel IH]; intros s s' E; [discriminate|].
  cbn [integer_loop] in E.
  apply bind_inv in E. destruct E as (c & s1 & E1 & E).
  apply in_read_same in E1. destruct E1 as [H1 _].
  destruct (Ascii.eqb c "e"%char).
  - inversion E; subst. exact H1.
  - apply bind_inv in E. destruct E as ([] & s2 & E2 & E).
    apply IH in E. inversion E2; subst.
    apply (same_store_trans _ _ _ H1). exact E.
Qed.

Lemma length_loop_same fuel :
  forall c s ok s', length_loop fuel c s = Done (ok, s') -> same_store s s'.
Proof.
  induction fuel as [|fuel IH]; intros c s ok s' E; [discriminate|].
  cbn [length_loop] in E.
  destruct (negb (isdigit c)).
  - inversion E; subst. split; reflexivity.
  - apply bind_inv in E. destruct E as ([] & s1 & E1 & E).
    inversion E1; subst; clear E1.
    apply bind_inv in E. destruct E as (c' & s2 & E2 & E).
    apply in_read_same in E2. destruct E2 as [H2 _].
    destruct (Ascii.eqb c' ":"%char).
    + inversion E; subst. exact H2.
    + apply IH in E. apply (same_store_trans _ _ _ H2). exact E.
Qed.

Lemma in_read_n_same size s s' :
  in_read_n size s = Done (tt, s') -> same_store s s'.
Proof.
  unfold in_read_n. simpl. unfold ReferencedStringInput_read_n.
  destruct (_ <? _)%nat; intros E; inversion E; subst; split; reflexivity.
Qed.

Section Books.
Variable rec : ascii -> M (ParseState ReferencedStringInput) Ptr.
Hypothesis rec_books :
  forall c s r s',
    Ascii.eqb c "d"%char = false ->
    no_dictionary (_buffer (source s)) = true ->
    rec c s = Done (r, s') -> keeps_books s r s'.

Lemma list_loop_books fuel :
  forall result s r s',
    no_dictionary (_buffer (source s)) = true ->
    list_loop rec fuel result s = Done (r, s') ->
    _buffer (source s') = _buffer (source s)
    /\ live s'
       = (live s - Z.of_nat (nodes (List result))
          + Z.of_nat (nodes_ptr r))%Z.
Proof.
  induction fuel as [|fuel IH]; intros result s r s' Hn E; [discriminate|].
  cbn [list_loop] in E.
  apply bind_inv in E. destruct E as (c & s1 & E1 & E).
  apply in_read_same in E1. destruct E1 as [[Hb1 Hl1] Hc].
  specialize (Hc Hn).
  destruct (Ascii.eqb c "e"%char).
  - inversion E; subst. split; [exact Hb1|].
    rewrite Hl1. cbn [nodes_ptr]. lia.
  - apply bind_inv in E. destruct E as (item & s2 & E2 & E).
    apply rec_books in E2; [|exact Hc|rewrite Hb1; exact Hn].
    destruct E2 as [Hb2 Hl2].
    destruct item as [y|].
    + rewrite List_push_spec in E. unfold bind at 1, lift in E.
      apply IH in E; [|rewrite Hb2, Hb1; exact Hn].
      destruct E as [Hb3 Hl3].
      split; [congruence|].
      rewrite Hl3, Hl2, Hl1, nodes_List_app. cbn [nodes_ptr]. lia.
    + apply bind_inv in E. destruct E as ([] & s3 & E3 & E).
      unfold heap, delete_ in E3. injection E3 as E3. subst s3.
      unfold ret in E. injection E as Er Es. subst r s'.
      cbn [source live].
      split; [congruence|].
      rewrite Hl2, Hl1, ?Zpos_P_of_succ_nat. cbn [nodes_ptr nodes].
      rewrite ?Nat2Z.inj_succ. lia.
Qed.
End Books.

Ltac books :=
  unfold keeps_books;
  cbn [source live nodes_ptr nodes fold_right] in *;
  split; [congruence|rewrite ?Zpos_P_of_succ_nat, ?Nat2Z.inj_succ; lia].

Lemma _read_books fuel :
  forall c s r s',
    Ascii.eqb c "d"%char = false ->
    no_dictionary (_buffer (source s)) = true ->
    _read fuel c s = Done (r, s') -> keeps_books s r s'.
Proof.
  induction fuel as [|fuel IH]; intros c s r s' Hc Hn E; [discriminate|].
  cbn [_read] in E.
  destruct (Ascii.eqb c "i"%char).
  - apply bind_inv in E. destruct E as ([] & s1 & E1 & E).
    inversion E1; subst; clear E1.
    apply bind_inv in E. destruct E as ([] & s2 & E2 & E).
    apply integer_loop_same in E2. destruct E2 as [Hb2 Hl2].
    unfold bind, buffer_get, heap, new_ in E.
    inversion E; subst. books.
  - destruct (isdigit c).
    + apply bind_inv in E. destruct E as ([] & s1 & E1 & E).
      inversion E1; subst; clear E1.
      apply bind_inv in E. destruct E as (ok & s2 & E2 & E).
      apply length_loop_same in E2. destruct E2 as [Hb2 Hl2].
      destruct ok.
      * apply bind_inv in E. destruct E as (text & s3 & E3 & E).
        inversion E3; subst; clear E3.
        apply bind_inv in E. destruct E as ([] & s4 & E4 & E).
        inversion E4; subst; clear E4.
        apply bind_inv in E. destruct E as ([] & s5 & E5 & E).
        apply in_read_n_same in E5. destruct E5 as [Hb5 Hl5].
        unfold bind, buffer_get, heap, new_ in E.
        inversion E; subst. books.
      * inversion E; subst. books.
    + destruct (Ascii.eqb c "l"%char).
      * apply bind_inv in E. destruct E as (p & s1 & E1 & E).
        unfold heap, new_ in E1. inversion E1; subst; clear E1.
        apply (list_loop_books (_read fuel) IH) in E; [|exact Hn].
        destruct E as [Hb Hl]. books.
      * rewrite Hc in E. inversion E; subst. books.
Qed.

(** X22. Without dictionaries the parser keeps its books: when the
    source holds no ['d'] byte and [Item::read] returns, the free
    store, empty before the call, holds exactly the objects of the
    tree returned, and nothing when the result is [NULL]; every node
    of a construct that failed has been released. *)
Theorem decode_without_dictionary_keeps_books
        (w : bytes) (fuel : nat) (result : Ptr) (h : Heap) :
  no_dictionary w = true ->
  decode fuel w = Done (result, h) ->
  h = Z.of_nat (nodes_ptr result).
Proof.
  intros Hn E. unfold decode, Item_read in E.
  destruct (bind _ _ _) as [[r s]| |] eqn:Eb; try discriminate.
  inversion E; subst; clear E.
  apply bind_inv in Eb. destruct Eb as (c & s1 & E1 & E2).
  apply in_read_same in E1. destruct E1 as [[Hb1 Hl1] Hc].
  apply _read_books in E2;
    [|apply Hc; exact Hn|rewrite Hb1; exact Hn].
  destruct E2 as [_ Hl]. rewrite Hl, Hl1. reflexivity.
Qed.

Lemma decode_without_dictionary_keeps_books_witness :
  0%Z = Z.of_nat (nodes_ptr None)
  /\ 4%Z = Z.of_nat (nodes_ptr (Some (List [Some (Integer 3);
                                            Some (List []);
                                            Some (String (lit "a"))]))).
Proof.
  split.
  - apply (decode_without_dictionary_keeps_books (lit "li3el1:ae1:ax") 20).
    + reflexivity.
    + vm_compute. reflexivity.
  - apply (decode_without_dictionary_keeps_books (lit "li3ele1:ae") 20).
    + reflexivity.
    + vm_compute. reflexivity.
Defined.

(** ** [ReferencedStringInput] and [ReferencedStringOutput] *)




Lemma Input_read_loop_end count (i : ReferencedStringInput) storage :
  Input_end i = true -> Input_read_loop count i storage = (storage, i).
Proof.
  intros E. destruct count; cbn [Input_read_loop]; [|rewrite E];
    reflexivity.
Qed.

(** X24. [ReferencedStringInput::end()] answers true while two or more
    bytes are left to read (and for an empty buffer) and false from the
    last byte on, also when nothing is left; so the loop of the base
    class, [Input::read(bytes, storage)], which reads while [!end()],
    takes nothing from such a source as long as two bytes or more are
    left. [read()] itself does not consult [end()]: it returns the
    next byte, and NUL once the buffer is used up. *)
Theorem ReferencedStringInput_end_before_last_byte
        (i : ReferencedStringInput) (count : Z) :
  (Input_end i = true
   <-> _buffer i = [] \/ (2 <= length (unread i))%nat)
  /\ (Input_end i = true -> Input_read_default count i = ([], i))
  /\ (unread i = [] -> _buffer i <> [] ->
      Input_end i = false /\ Input_read i = (zero, i)).
Proof.
  unfold Input_end, Input_read, Input_read_default. simpl.
  unfold ReferencedStringInput_end, ReferencedStringInput_read, unread.
  split; [|split].
  - rewrite orb_true_iff, Nat.eqb_eq, Nat.ltb_lt, length_skipn,
      length_zero_iff_nil.
    split; (intros [H|H]; [left; exact H|right; lia]).
  - intros E. apply Input_read_loop_end. exact E.
  - intros Hu Hb.
    assert (Hp : (length (_buffer i) <= _position i)%nat).
    { apply (f_equal (@length ascii)) in Hu. rewrite length_skipn in Hu.
      simpl in Hu. lia. }
    split.
    + apply orb_false_iff. split.
      * apply Nat.eqb_neq. rewrite length_zero_iff_nil. exact Hb.
      * apply Nat.ltb_ge. lia.
    + replace (nth_error (_buffer i) (_position i)) with (@None ascii);
        [reflexivity|].
      symmetry. apply nth_error_None. exact Hp.
Qed.



(** ** Iterating over the keys of a [Dictionary] *)

Lemma key_iterator_walk_from before :
  forall after fuel,
    (N.of_nat (length (after ++ before)) < 2 ^ 32)%N ->
    (length after < fuel)%nat ->
    key_iterator_walk fuel
      {| _container := rev before ++ after;
         _index := N.of_nat (length before) |}
    = map fst after.
Proof.
  intros after. revert before.
  induction after as [|e after IH]; intros before fuel Hlen Hf;
    (destruct fuel as [|fuel]; [simpl in Hf; lia|]);
    cbn [key_iterator_walk]; unfold key_iterator_valid, key_iterator_arrow,
      key_iterator_valid; cbn [_container _index].
  - rewrite app_nil_r, length_rev.
    replace (_ <? _)%N with false; [reflexivity|].
    symmetry. apply N.ltb_ge. lia.
  - replace (_ <? _)%N with true
      by (symmetry; apply N.ltb_lt; rewrite length_app, length_rev;
          simpl; lia).
    rewrite Nat2N.id, <- (length_rev before), app_nth2, Nat.sub_diag by lia.
    cbn [nth map]. f_equal.
    unfold key_iterator_incr. cbn [_container _index].
    rewrite length_app in Hlen. cbn [length] in Hlen.
    rewrite wrap32_small by (rewrite length_rev; lia).
    replace (N.of_nat (length (rev before)) + 1)%N
      with (N.of_nat (length (e :: before)))
      by (rewrite length_rev; cbn [length]; lia).
    replace (rev before ++ e :: after) with (rev (e :: before) ++ after)
      by (simpl; rewrite <- app_assoc; reflexivity).
    apply IH.
    + rewrite length_app. cbn [length]. lia.
    + simpl in Hf. lia.
Qed.

Lemma Sorted_keys_map items :
  Sorted_keys items ->
  exists keys,
    map fst items = map Some keys
    /\ StronglySorted (fun a b => compare a b = Lt) keys.
Proof.
  intros [Hs Hp]. induction items as [|[first second] items IH].
  - exists []. split; constructor.
  - apply StronglySorted_inv in Hs. destruct Hs as [Hs Hall].
    apply Forall_cons_iff in Hp. destruct Hp as [Hk Hp].
    destruct (IH Hs Hp) as (keys & E & Hsorted).
    destruct first as [k|]; [|exfalso; apply Hk; reflexivity].
    exists (k :: keys). split; [simpl; rewrite E; reflexivity|].
    constructor; [exact Hsorted|].
    apply Forall_forall. intros k' Hin.
    assert (Hin' : In (Some k') (map fst items))
      by (rewrite E; apply in_map; exact Hin).
    apply in_map_iff in Hin'. destruct Hin' as ([f v] & Ef & Hin').
    simpl in Ef. subst f.
    rewrite Forall_forall in Hall. apply (Hall _ Hin').
Qed.

(** X26. Iterating over the keys: starting from [keys()] and advancing
    with [++] as long as the iterator converts to [true] visits every
    pair once, from the first to the last, [->] giving its key; for a
    dictionary kept by [operator[]] these are the keys in strictly
    increasing order of [compare]. *)
Theorem key_iterator_visits_keys_in_order (items : list _Element) :
  keys_sorted items = true -> (N.of_nat (length items) < 2 ^ 32)%N ->
  key_iterator_walk (S (length items)) (Dictionary_keys items)
  = map fst items
  /\ exists keys,
      map fst items = map Some keys
      /\ StronglySorted (fun a b => compare a b = Lt) keys.
Proof.
  intros Hs Hlen. split.
  - apply (key_iterator_walk_from [] items (S (length items))).
    + rewrite app_nil_r. exact Hlen.
    + lia.
  - apply Sorted_keys_map, keys_sorted_Sorted_keys, Hs.
Qed.

Lemma key_iterator_visits_keys_in_order_witness :
  key_iterator_walk
    (S (length [(Some (String (lit "cow")), Some (String (lit "moo")));
                (Some (String (lit "spam")), @None Item)]))
    (Dictionary_keys
       [(Some (String (lit "cow")), Some (String (lit "moo")));
        (Some (String (lit "spam")), None)])
  = map fst [(Some (String (lit "cow")), Some (String (lit "moo")));
             (Some (String (lit "spam")), @None Item)]
  /\ exists keys,
      map fst [(Some (String (lit "cow")), Some (String (lit "moo")));
               (Some (String (lit "spam")), @None Item)]
      = map Some keys
      /\ StronglySorted (fun a b => compare a b = Lt) keys.
Proof.
  apply (key_iterator_visits_keys_in_order
           [(Some (String (lit "cow")), Some (String (lit "moo")));
            (Some (String (lit "spam")), None)]);
    vm_compute; reflexivity.
Defined.

Lemma to_uint32_small z : (0 <= z < 2 ^ 32)%Z -> to_uint32 z = Z.to_N z.
Proof. intros H. unfold to_uint32. rewrite Z.mod_small by exact H. reflexivity. Qed.

(** X27. The key iterator cannot be moved in front of the first key:
    [--] leaves an iterator at index 0 where it is, and [-=] with a
    count above the index puts it at index 0; within the range of
    [int], [--] undoes [++] and [-= count] undoes [+= count], and the
    postfix operators return the iterator as it was. Past the last key
    the iterator converts to [false], [->] returns [NULL] and [*] is
    undefined. *)
Theorem key_iterator_stops_at_first_key (it : key_iterator) (count : Z) :
  key_iterator_decr (Dictionary_keys (_container it))
  = Dictionary_keys (_container it)
  /\ ((_index it + 1 < 2 ^ 32)%N ->
      key_iterator_decr (key_iterator_incr it) = it
      /\ fst (key_iterator_post_incr it) = it
      /\ fst (key_iterator_post_decr it) = it)
  /\ ((0 <= count)%Z -> (Z.of_N (_index it) + count < 2 ^ 31)%Z ->
      key_iterator_sub (key_iterator_add it count) count = it)
  /\ ((_index it < 2 ^ 31)%N -> (Z.of_N (_index it) < count)%Z ->
      key_iterator_sub it count
      = {| _container := _container it; _index := 0 |})
  /\ (key_iterator_valid it = false ->
      key_iterator_arrow it = None /\ key_iterator_deref it = Undefined).
Proof.
  destruct it as [items index]. cbn [_container _index].
  split; [reflexivity|]. split; [|split; [|split]].
  - intros Hi.
    assert (Hz : (0 <= Z.of_N index)%Z) by apply N2Z.is_nonneg.
    assert (H32 : (Z.of_N index + 1 < 2 ^ 32)%Z).
    { apply N2Z.inj_lt in Hi. rewrite N2Z.inj_add in Hi. exact Hi. }
    unfold key_iterator_decr, key_iterator_incr, key_iterator_post_incr,
      key_iterator_post_decr, key_iterator_incr.
    cbn [_container _index fst].
    rewrite wrap32_small by exact Hi.
    split; [|split].
    + replace (0 <? index + 1)%N with true
        by (symmetry; apply N.ltb_lt; lia).
      f_equal. lia.
    + f_equal. rewrite to_uint32_small by lia. lia.
    + destruct (N.ltb_spec 0 index) as [H|H]; f_equal.
      * rewrite (to_uint32_small (Z.of_N index - 1)) by lia.
        rewrite to_uint32_small by lia. lia.
      * rewrite (to_uint32_small (Z.of_N index - 0)) by lia.
        rewrite to_uint32_small by lia. lia.
  - intros Hc Hi.
    assert (Hz : (0 <= Z.of_N index)%Z) by apply N2Z.is_nonneg.
    assert (H31 : (2 ^ 31 < 2 ^ 32)%Z) by reflexivity.
    unfold key_iterator_sub, key_iterator_add. cbn [_container _index].
    rewrite (to_uint32_small (Z.of_N index + count)) by lia.
    unfold to_int.
    replace (Z.to_N (Z.of_N index + count) <? 2 ^ 31)%N with true
      by (symmetry; apply N.ltb_lt; apply N2Z.inj_lt;
          rewrite Z2N.id by lia; exact Hi).
    rewrite Z2N.id by lia.
    replace (Z.of_N index + count <? count)%Z with false
      by (symmetry; apply Z.ltb_ge; lia).
    f_equal. rewrite to_uint32_small by lia.
    replace (Z.of_N index + count - count)%Z with (Z.of_N index) by lia.
    apply N2Z.id.
  - intros Hi Hc. unfold key_iterator_sub, to_int. cbn [_container _index].
    replace (index <? 2 ^ 31)%N with true
      by (symmetry; apply N.ltb_lt; exact Hi).
    replace (Z.of_N index <? count)%Z with true
      by (symmetry; apply Z.ltb_lt; exact Hc).
    reflexivity.
  - unfold key_iterator_arrow, key_iterator_deref, key_iterator_valid.
    cbn [_container _index]. intros E. rewrite E.
    split; [reflexivity|].
    apply N.ltb_ge in E.
    replace (nth_error items (N.to_nat index)) with (@None _Element);
      [reflexivity|].
    symmetry. apply nth_error_None. lia.
Qed.

Lemma key_iterator_stops_at_first_key_witness :
  key_iterator_sub
    (key_iterator_add
       {| _container := [(Some (Integer 1), None); (Some (Integer 2), None)];
          _index := 1 |} 3) 3
  = {| _container := [(Some (Integer 1), None); (Some (Integer 2), None)];
       _index := 1 |}.
Proof.
  apply (key_iterator_stops_at_first_key
           {| _container := [(Some (Integer 1), None);
                             (Some (Integer 2), None)];
              _index := 1 |} 3);
    vm_compute; congruence.
Defined.

(** ** The text [display] shows *)

Lemma List_display_loop_join items :
  forall buffer,
    List_display_loop display items buffer (lit ", ")
    = buffer
        ++ concat (map (fun item => lit ", " ++ display_ptr item) items).
Proof.
  induction items as [|item rest IH]; intros buffer; simpl.
  - symmetry. apply app_nil_r.
  - rewrite IH. destruct item; simpl; rewrite <- !app_assoc; reflexivity.
Qed.

Lemma join_cons (separator text : bytes) (rest : list bytes) :
  join separator (text :: rest)
  = text ++ concat (map (fun t => separator ++ t) rest).
Proof.
  revert text. induction rest as [|t rest IH]; intros text.
  - simpl. symmetry. apply app_nil_r.
  - change (join separator (text :: t :: rest))
      with (text ++ separator ++ join separator (t :: rest)).
    rewrite IH. simpl. rewrite <- !app_assoc. reflexivity.
Qed.

Lemma Dictionary_display_loop_join items :
  forall buffer,
    Dictionary_display_loop display items buffer (lit ", ")
    = buffer
        ++ concat (map (fun e => lit ", " ++ display_pair (lit ", ") e) items).
Proof.
  induction items as [|[first second] rest IH]; intros buffer; simpl.
  - symmetry. apply app_nil_r.
  - rewrite IH. unfold display_pair.
    destruct first, second; simpl; rewrite <- !app_assoc; simpl;
      rewrite <- ?app_assoc; reflexivity.
Qed.

(** X28. The text [display] leaves in the buffer: a [String] between
    double quotes, an [Integer] in decimal, a [List] as its items
    between brackets with [", "] between two items and nothing before
    the first or after the last, a [Dictionary] as its pairs
    [key:value] between braces, separated in the same way; a [NULL]
    slot shows as [[NULL]], and a [NULL] value of any pair but the
    first has the separator in front of it, after the colon. *)
Theorem display_joins_with_separators :
  (forall value, display (String value) = quote :: value ++ [quote])
  /\ (forall value, display (Integer value) = itoa10 intmax_t value [])
  /\ (forall items,
         display (List items)
         = lit "[" ++ join (lit ", ") (map display_ptr items) ++ lit "]")
  /\ display (Dictionary []) = lit "{}"
  /\ (forall e rest,
         display (Dictionary (e :: rest))
         = lit "{"
             ++ join (lit ", ")
                  (display_pair [] e :: map (display_pair (lit ", ")) rest)
             ++ lit "}").
Proof.
  split; [reflexivity|]. split; [reflexivity|]. split; [|split].
  - intros [|item rest]; [reflexivity|].
    cbn [display List_display_loop map].
    rewrite join_cons, map_map, List_display_loop_join.
    destruct item; simpl; rewrite <- ?app_assoc; reflexivity.
  - reflexivity.
  - intros [first second] rest.
    cbn [display Dictionary_display_loop].
    rewrite join_cons, map_map, Dictionary_display_loop_join.
    unfold display_pair.
    destruct first, second; simpl; rewrite <- ?app_assoc; simpl;
      rewrite <- ?app_assoc; reflexivity.
Qed.

(** ** The flattened text of a [Dictionary] *)

Lemma flatten_nth x j :
  (j < N.to_nat (componentCount x))%nat ->
  nth j (flatten x) [] = component_at x (N.of_nat j).
Proof.
  intros H. unfold flatten.
  rewrite (nth_indep _ [] (component_at x (N.of_nat 0)))
    by (rewrite length_map, length_seq; exact H).
  rewrite (map_nth (fun i => component_at x (N.of_nat i))).
  rewrite seq_nth by exact H. reflexivity.
Qed.

Lemma flatten_ptr_length p :
  length (flatten_ptr p) = N.to_nat (slot_count p).
Proof.
  destruct p as [x|]; simpl; [apply flatten_length|reflexivity].
Qed.

Lemma slot_component p index buffer :
  (index < N.to_nat (slot_count p))%nat ->
  match p with
  | None => []
  | Some i => component i (N.of_nat index) buffer
  end
  = nth index (flatten_ptr p) [].
Proof.
  destruct p as [x|]; simpl; intros H.
  - rewrite flatten_nth by exact H. apply component_buffer. lia.
  - destruct index; [reflexivity|lia].
Qed.

Lemma Dictionary_component_loop_nth items :
  forall index buffer,
    Dictionary_component_loop componentCount component items
                              (N.of_nat index) buffer
    = nth index (Dictionary_flat items) [].
Proof.
  induction items as [|[first second] rest IH]; intros index buffer.
  - destruct index; reflexivity.
  - cbn [Dictionary_component_loop]. unfold Dictionary_flat.
    cbn [map concat fst snd]. fold (Dictionary_flat rest).
    change (match first with
            | Some k => componentCount k
            | None => 1%N
            end) with (slot_count first).
    change (match second with
            | Some v => componentCount v
            | None => 1%N
            end) with (slot_count second).
    rewrite <- app_assoc.
    destruct (N.leb_spec (slot_count first) (N.of_nat index)) as [H1|H1].
    + rewrite app_nth2 by (rewrite flatten_ptr_length; lia).
      rewrite flatten_ptr_length.
      replace (N.of_nat index - slot_count first)%N
        with (N.of_nat (index - N.to_nat (slot_count first))) by lia.
      set (index' := (index - N.to_nat (slot_count first))%nat).
      destruct (N.leb_spec (slot_count second) (N.of_nat index')) as [H2|H2].
      * rewrite app_nth2 by (rewrite flatten_ptr_length; lia).
        rewrite flatten_ptr_length.
        replace (N.of_nat index' - slot_count second)%N
          with (N.of_nat (index' - N.to_nat (slot_count second))) by lia.
        apply IH.
      * rewrite app_nth1 by (rewrite flatten_ptr_length; lia).
        apply slot_component. lia.
    + rewrite app_nth1 by (rewrite flatten_ptr_length; lia).
      apply slot_component. lia.
Qed.

Lemma map_nth_seq {A : Type} (l : list A) (d : A) n :
  (n <= length l)%nat ->
  map (fun j => nth j l d) (seq 0 n) = firstn n l.
Proof.
  revert n. induction l as [|a l IH]; intros n H.
  - destruct n; [reflexivity|simpl in H; lia].
  - destruct n as [|n]; [reflexivity|].
    cbn [seq map firstn nth]. f_equal.
    rewrite <- seq_shift, map_map. apply IH. simpl in H. lia.
Qed.

Lemma Dictionary_flat_length items :
  length (Dictionary_flat items)
  = (N.to_nat (fold_right (fun (e : _Element) n =>
                             (slot_counted (fst e) + slot_counted (snd e)
                              + n)%N) 0%N items)
     + nulls items)%nat.
Proof.
  induction items as [|[first second] rest IH]; [reflexivity|].
  unfold Dictionary_flat. cbn [map concat fold_right nulls fst snd].
  fold (Dictionary_flat rest). fold (nulls rest).
  rewrite !length_app, !flatten_ptr_length, IH.
  destruct first, second; simpl slot_count; simpl slot_counted; lia.
Qed.

Lemma Dictionary_componentCount_loop_sum items :
  forall c,
    (c + fold_right (fun (e : _Element) n =>
                       (slot_counted (fst e) + slot_counted (snd e) + n)%N)
                    0%N items < 2 ^ 32)%N ->
    Dictionary_componentCount_loop componentCount items c
    = (c + fold_right (fun (e : _Element) n =>
                         (slot_counted (fst e) + slot_counted (snd e) + n)%N)
                      0%N items)%N.
Proof.
  induction items as [|[first second] rest IH]; intros c Hc;
    cbn [Dictionary_componentCount_loop fold_right fst snd] in *; [lia|].
  rewrite IH;
    destruct first, second; simpl slot_counted in *;
    rewrite ?(wrap32_small (c + _)) by lia;
    rewrite ?wrap32_small by lia; lia.
Qed.

Lemma flatten_Dictionary items :
  (N.of_nat (length (Dictionary_flat items)) < 2 ^ 32)%N ->
  flatten (Dictionary items)
  = firstn (length (Dictionary_flat items) - nulls items)
           (Dictionary_flat items).
Proof.
  intros H. pose proof (Dictionary_flat_length items) as Hl.
  unfold flatten. cbn [componentCount].
  rewrite Dictionary_componentCount_loop_sum by lia.
  rewrite N.add_0_l.
  replace (length (Dictionary_flat items) - nulls items)%nat
    with (N.to_nat (fold_right
                      (fun (e : _Element) n =>
                         (slot_counted (fst e) + slot_counted (snd e) + n)%N)
                      0%N items)) by lia.
  rewrite <- (map_nth_seq (Dictionary_flat items) []) by lia.
  apply map_ext. intros j. unfold component_at. cbn [component].
  apply Dictionary_component_loop_nth.
Qed.

(** X29. How a [Dictionary] flattens for [compare]: [component] runs
    through the components of each key and each value in turn and
    gives a [NULL] one empty component, but [componentCount] counts
    nothing for a [NULL]; so the flattened text is the sequence of all
    those components cut short, at its end, by as many components as
    the dictionary has [NULL]s. With a [NULL] value in front of it, a
    last value of one component is not compared at all. *)
Theorem Dictionary_flattens_short_of_its_nulls (items : list _Element) :
  (N.of_nat (length (Dictionary_flat items)) < 2 ^ 32)%N ->
  flatten (Dictionary items)
  = firstn (length (Dictionary_flat items) - nulls items)
           (Dictionary_flat items)
  /\ forall other,
      compare (Dictionary items) other
      = lex string_compare
            (firstn (length (Dictionary_flat items) - nulls items)
                    (Dictionary_flat items))
            (flatten other).
Proof.
  intros H. split; [apply flatten_Dictionary; exact H|].
  intros other. rewrite compare_is_lex, flatten_Dictionary by exact H.
  reflexivity.
Qed.

Lemma Dictionary_flattens_short_of_its_nulls_witness :
  flatten (Dictionary [(Some (String (lit "a")), None);
                       (Some (String (lit "b")), Some (Integer 1))])
  = firstn (length (Dictionary_flat
                      [(Some (String (lit "a")), None);
                       (Some (String (lit "b")), Some (Integer 1))])
            - nulls [(Some (String (lit "a")), None);
                     (Some (String (lit "b")), Some (Integer 1))])
           (Dictionary_flat
              [(Some (String (lit "a")), None);
               (Some (String (lit "b")), Some (Integer 1))])
  /\ forall other,
      compare (Dictionary [(Some (String (lit "a")), None);
                           (Some (String (lit "b")), Some (Integer 1))])
              other
      = lex string_compare
            (firstn (length (Dictionary_flat
                               [(Some (String (lit "a")), None);
                                (Some (String (lit "b")), Some (Integer 1))])
                     - nulls [(Some (String (lit "a")), None);
                              (Some (String (lit "b")), Some (Integer 1))])
                    (Dictionary_flat
                       [(Some (String (lit "a")), None);
                        (Some (String (lit "b")), Some (Integer 1))]))
            (flatten other).
Proof.
  apply (Dictionary_flattens_short_of_its_nulls
           [(Some (String (lit "a")), None);
            (Some (String (lit "b")), Some (Integer 1))]).
  vm_compute. reflexivity.
Defined.

(** ** Writing a parsed tree and parsing it again *)



